(** * story-editor: the version store, the analysis parsers and the audio glue

    A shallow embedding of the TypeScript sources of the story editor
    (App.tsx, services/geminiService.ts, services/voicevoxService.ts,
    components/TextEditor.tsx, components/CharacterMap.tsx,
    components/VersionMap.tsx) and the properties of its specification
    that concern them.

    Conventions of the embedding.
    - A JavaScript string is the list of its UTF-16 code units ([jsstring]).
    - A JavaScript number used as an index or a counter is a [Z].
    - An [async] handler is modelled as one atomic transition; the replies
      of the remote services it awaits are arguments of the handler
      ([None] stands for a rejected promise).
    - React state is a record; a handler maps the record it closed over to
      the record after all its setters have been applied. *)

From Stdlib Require Import ZArith NArith List Lia Ascii String Bool.
From stdpp Require Import base option list gmap strings pretty.
From Equations Require Import Equations.

Local Open Scope Z_scope.

(** ** JavaScript strings *)

Module JS.

Definition jsstring := list N.

(** An ASCII literal as code units. *)
Definition utf16 (s : string) : jsstring :=
  (fun a : ascii => N_of_ascii a) <$> list_ascii_of_string s.

(** [`${n}`] for an integer [n]. *)
Definition of_int (n : Z) : jsstring := utf16 (pretty n).

(** [l[i]]: [None] is JavaScript's [undefined]. *)
Definition at_index {A} (l : list A) (i : Z) : option A :=
  if decide (0 <= i) then l !! Z.to_nat i else None.

(** [l.length]. *)
Definition len {A} (l : list A) : Z := Z.of_nat (length l).

(** [l.filter((x, index) => p x index)]. *)
Fixpoint filteri_from {A} (p : A -> Z -> bool) (i : Z) (l : list A) : list A :=
  match l with
  | [] => []
  | x :: r =>
      if p x i then x :: filteri_from p (i + 1) r else filteri_from p (i + 1) r
  end.

Definition filteri {A} (p : A -> Z -> bool) (l : list A) : list A :=
  filteri_from p 0 l.

(** [l.find(p)]. *)
Fixpoint find {A} (p : A -> bool) (l : list A) : option A :=
  match l with
  | [] => None
  | x :: r => if p x then Some x else find p r
  end.

(** [l.some(p)]. *)
Definition some {A} (p : A -> bool) (l : list A) : bool := existsb p l.

(** [a === b] on strings. *)
Definition streq (a b : jsstring) : bool := bool_decide (a = b).

End JS.

Import JS.

(** ** Data model (App.tsx, geminiService.ts) *)

Module FlowNode.
Record t := mk { id : jsstring; label : jsstring; x : Z; y : Z }.
End FlowNode.

Module FlowEdge.
Record t := mk
  { id : jsstring; source : jsstring; target : jsstring;
    type : jsstring; animated : bool }.
End FlowEdge.

Module Flowchart.
Record t := mk { nodes : list FlowNode.t; edges : list FlowEdge.t }.
End Flowchart.

Module Relationship.
Record t := mk { to : jsstring; type : jsstring }.
End Relationship.

Module Character.
Record t := mk
  { id : jsstring; name : jsstring; description : jsstring;
    relationships : list Relationship.t }.
End Character.

Module StoryVersion.
Record t := mk
  { id : jsstring;
    name : jsstring;
    text : jsstring;
    flowchartData : option Flowchart.t;
    characters : list Character.t;
    plot : list jsstring;
    timestamp : Z;
    description : jsstring;
    parentVersionId : option jsstring }.
End StoryVersion.

(** The value [analyzeText] resolves with. [characters] and [plot] are
    always arrays, [flowchart] is [null] when the reply has no diagram. *)
Module GeminiResponse.
Record t := mk
  { text : jsstring;
    flowchart : option Flowchart.t;
    characters : list Character.t;
    plot : list jsstring }.
End GeminiResponse.

Module TextSelection.
Record t := mk
  { text : jsstring; before : jsstring; after : jsstring; fullText : jsstring }.
End TextSelection.

(** ** The version store: the state and the handlers of [App] *)

Module App.

Record EditDialog := mkDialog { dlg_index : Z; dlg_name : jsstring }.

(** The state of [App]. The two loading flags are left out: every
    handler that sets one clears it again before it settles. The
    relationship cache is the result of [analyzeVersionRelationships]
    below. *)
Record t := mk
  { versions : list StoryVersion.t;
    currentVersionIndex : Z;
    isCompareMode : bool;
    compareVersionIndex : option Z;
    text : jsstring;
    flowchartData : option Flowchart.t;
    characters : list Character.t;
    editVersionDialog : option EditDialog;
    isVersionMapOpen : bool }.

(** The [useState] initial values. *)
Definition init : t :=
  {| versions := []; currentVersionIndex := 0; isCompareMode := false;
     compareVersionIndex := None; text := []; flowchartData := None;
     characters := []; editVersionDialog := None; isVersionMapOpen := false |}.

(** What a handler leaves behind: it returned, or it threw after the
    setters it had already called. *)
Inductive outcome :=
| Returned (s : t)
| Threw (s : t).

Definition state_of (o : outcome) : t :=
  match o with Returned s | Threw s => s end.

Definition set_versions (vs : list StoryVersion.t) (s : t) : t :=
  {| versions := vs; currentVersionIndex := currentVersionIndex s;
     isCompareMode := isCompareMode s;
     compareVersionIndex := compareVersionIndex s; text := text s;
     flowchartData := flowchartData s; characters := characters s;
     editVersionDialog := editVersionDialog s;
     isVersionMapOpen := isVersionMapOpen s |}.

Definition set_current (i : Z) (s : t) : t :=
  {| versions := versions s; currentVersionIndex := i;
     isCompareMode := isCompareMode s;
     compareVersionIndex := compareVersionIndex s; text := text s;
     flowchartData := flowchartData s; characters := characters s;
     editVersionDialog := editVersionDialog s;
     isVersionMapOpen := isVersionMapOpen s |}.

Definition set_compare (on : bool) (c : option Z) (s : t) : t :=
  {| versions := versions s; currentVersionIndex := currentVersionIndex s;
     isCompareMode := on; compareVersionIndex := c; text := text s;
     flowchartData := flowchartData s; characters := characters s;
     editVersionDialog := editVersionDialog s;
     isVersionMapOpen := isVersionMapOpen s |}.

Definition set_compare_index (c : option Z) (s : t) : t :=
  set_compare (isCompareMode s) c s.

Definition set_display (tx : jsstring) (fc : option Flowchart.t)
    (cs : list Character.t) (s : t) : t :=
  {| versions := versions s; currentVersionIndex := currentVersionIndex s;
     isCompareMode := isCompareMode s;
     compareVersionIndex := compareVersionIndex s; text := tx;
     flowchartData := fc; characters := cs;
     editVersionDialog := editVersionDialog s;
     isVersionMapOpen := isVersionMapOpen s |}.

Definition set_dialog (d : option EditDialog) (s : t) : t :=
  {| versions := versions s; currentVersionIndex := currentVersionIndex s;
     isCompareMode := isCompareMode s;
     compareVersionIndex := compareVersionIndex s; text := text s;
     flowchartData := flowchartData s; characters := characters s;
     editVersionDialog := d; isVersionMapOpen := isVersionMapOpen s |}.

(** The name of the first version. *)
Definition initialName : jsstring :=
  [21021; 26399; 12496; 12540; 12472; 12519; 12531]%N.

(** The prefix of the default name of a later version. *)
Definition versionNamePrefix : jsstring :=
  [12496; 12540; 12472; 12519; 12531; 32]%N.

(** [handleTextChange]: the text is stored; from 50 code units on the
    analysis runs, and the first successful one creates the root ['v1']. *)
Definition handleTextChange (s : t) (newText : jsstring)
    (analysis : option GeminiResponse.t) (now : Z) : t :=
  let s1 := set_display newText (flowchartData s) (characters s) s in
  if decide (len newText < 50) then s1
  else
    match analysis with
    | None => s1
    | Some a =>
        let fc := match GeminiResponse.flowchart a with
                  | Some f => Some f
                  | None => flowchartData s1
                  end in
        let s2 := set_display newText fc (GeminiResponse.characters a) s1 in
        if decide (len (versions s) = 0) then
          let initialVersion :=
            {| StoryVersion.id := utf16 "v1";
               StoryVersion.name := initialName;
               StoryVersion.text := newText;
               StoryVersion.flowchartData := GeminiResponse.flowchart a;
               StoryVersion.characters := GeminiResponse.characters a;
               StoryVersion.plot := GeminiResponse.plot a;
               StoryVersion.timestamp := now;
               StoryVersion.description := [];
               StoryVersion.parentVersionId := None |} in
          set_current 0 (set_versions [initialVersion] s2)
        else s2
    end.

(** [createNewVersion]: rejects when its own analysis does. *)
Definition createNewVersion (s : t) (newText description parentVersionId : jsstring)
    (analysis : option GeminiResponse.t) (now : Z) : option StoryVersion.t :=
  match analysis with
  | None => None
  | Some a =>
      Some {| StoryVersion.id := utf16 "v" ++ of_int (len (versions s) + 1);
              StoryVersion.name := versionNamePrefix ++ of_int (len (versions s) + 1);
              StoryVersion.text := newText;
              StoryVersion.flowchartData := GeminiResponse.flowchart a;
              StoryVersion.characters := GeminiResponse.characters a;
              StoryVersion.plot := GeminiResponse.plot a;
              StoryVersion.timestamp := now;
              StoryVersion.description := description;
              StoryVersion.parentVersionId := Some parentVersionId |}
  end.

(** The part the four rewrite handlers share once the rewriter has
    answered with [newText]: analyse, read the id of the active version
    (a [TypeError] when there is none), create the version, append it and
    show it. Any failure is caught before a setter has run. *)
Definition appendVersion (s : t) (newText description : jsstring)
    (analysis analysis' : option GeminiResponse.t) (now : Z) : t :=
  match analysis with
  | None => s
  | Some a =>
      match at_index (versions s) (currentVersionIndex s) with
      | None => s
      | Some active =>
          match createNewVersion s newText description
                  (StoryVersion.id active) analysis' now with
          | None => s
          | Some newVersion =>
              set_display newText (GeminiResponse.flowchart a)
                (GeminiResponse.characters a)
                (set_current (len (versions s))
                   (set_versions (versions s ++ [newVersion]) s))
          end
      end
  end.

Definition partialPrefix : jsstring := [37096; 20998; 22793; 26356; 58; 32]%N.
Definition entirePrefix : jsstring := [20840; 20307; 22793; 26356; 58; 32]%N.
Definition charactersDescription : jsstring :=
  [30331; 22580; 20154; 29289; 22793; 26356]%N.
Definition flowchartDescription : jsstring :=
  [12501; 12525; 12540; 12481; 12515; 12540; 12488; 12363; 12425; 29983; 25104]%N.

(** [handleModifyText]; [continuation] is what [generateContinuation]
    resolved with. *)
Definition handleModifyText (s : t) (selectedText : TextSelection.t)
    (modificationPrompt : jsstring) (continuation : option jsstring)
    (analysis analysis' : option GeminiResponse.t) (now : Z) : t :=
  match continuation with
  | None => s
  | Some newContinuation =>
      appendVersion s (TextSelection.before selectedText ++ newContinuation)
        (partialPrefix ++ modificationPrompt) analysis analysis' now
  end.

(** [handleModifyEntireText]; [rewritten] is what [modifyEntireText]
    resolved with. *)
Definition handleModifyEntireText (s : t) (modificationPrompt : jsstring)
    (rewritten : option jsstring)
    (analysis analysis' : option GeminiResponse.t) (now : Z) : t :=
  match rewritten with
  | None => s
  | Some newText =>
      appendVersion s newText (entirePrefix ++ modificationPrompt)
        analysis analysis' now
  end.

(** [handleCharactersEdit]; [rewritten] is what
    [modifyStoryWithCharacters] resolved with. *)
Definition handleCharactersEdit (s : t) (rewritten : option jsstring)
    (analysis analysis' : option GeminiResponse.t) (now : Z) : t :=
  match rewritten with
  | None => s
  | Some newText =>
      appendVersion s newText charactersDescription analysis analysis' now
  end.

(** [handleGenerateStoryFromFlowchart]. *)
Definition handleGenerateStoryFromFlowchart (s : t) (rewritten : option jsstring)
    (analysis analysis' : option GeminiResponse.t) (now : Z) : t :=
  match rewritten with
  | None => s
  | Some newText =>
      appendVersion s newText flowchartDescription analysis analysis' now
  end.

(** [handleVersionChange]: [versions[index]] is read first, the index is
    set, and reading [version.text] throws when there is no such version. *)
Definition handleVersionChange (s : t) (index : Z) : outcome :=
  match at_index (versions s) index with
  | None => Threw (set_current index s)
  | Some version =>
      Returned
        (set_display (StoryVersion.text version)
           (StoryVersion.flowchartData version)
           (StoryVersion.characters version)
           (set_current index s))
  end.

(** [toggleCompareMode]. *)
Definition toggleCompareMode (s : t) : t :=
  if isCompareMode s then set_compare false None s
  else
    set_compare true
      (Some (if decide (currentVersionIndex s > 0)
             then currentVersionIndex s - 1 else 1)) s.

(** The second half of [handleVersionDelete]: the compare selection.
    [s] is the state the handler closed over, [s'] the state its earlier
    setters have produced. *)
Definition deleteCompare (s s' : t) (indexToDelete : Z) : t :=
  if isCompareMode s && bool_decide (compareVersionIndex s = Some indexToDelete)
  then set_compare false None s'
  else
    match compareVersionIndex s with
    | Some c =>
        if decide (c > indexToDelete) then set_compare_index (Some (c - 1)) s'
        else s'
    | None => s'
    end.

(** [handleVersionDelete]. *)
Definition handleVersionDelete (s : t) (indexToDelete : Z) : outcome :=
  if decide (indexToDelete = 0) then Returned s
  else
    let updatedVersions :=
      filteri (fun _ index => negb (index =? indexToDelete)) (versions s) in
    if decide (currentVersionIndex s = indexToDelete) then
      match handleVersionChange s (indexToDelete - 1) with
      | Threw s1 => Threw (set_versions updatedVersions s1)
      | Returned s1 =>
          Returned (deleteCompare s (set_versions updatedVersions s1) indexToDelete)
      end
    else if decide (currentVersionIndex s > indexToDelete) then
      Returned
        (deleteCompare s
           (set_current (currentVersionIndex s - 1)
              (set_versions updatedVersions s)) indexToDelete)
    else
      Returned (deleteCompare s (set_versions updatedVersions s) indexToDelete).

(** [handleVersionNameEditStart]. *)
Definition handleVersionNameEditStart (s : t) (index : Z) (currentName : jsstring) : t :=
  if decide (index = 0) then s
  else set_dialog (Some {| dlg_index := index; dlg_name := currentName |}) s.

(** The [onChange] of the dialog's text field. *)
Definition handleVersionNameInput (s : t) (value : jsstring) : t :=
  match editVersionDialog s with
  | Some d => set_dialog (Some {| dlg_index := dlg_index d; dlg_name := value |}) s
  | None => s
  end.

Definition rename (nm : jsstring) (v : StoryVersion.t) : StoryVersion.t :=
  {| StoryVersion.id := StoryVersion.id v;
     StoryVersion.name := nm;
     StoryVersion.text := StoryVersion.text v;
     StoryVersion.flowchartData := StoryVersion.flowchartData v;
     StoryVersion.characters := StoryVersion.characters v;
     StoryVersion.plot := StoryVersion.plot v;
     StoryVersion.timestamp := StoryVersion.timestamp v;
     StoryVersion.description := StoryVersion.description v;
     StoryVersion.parentVersionId := StoryVersion.parentVersionId v |}.

(** [handleVersionNameSave]. When the dialog's index names no version,
    JavaScript extends the array with an object that has a name and
    nothing else, which is no [StoryVersion]: there the model stops
    ([None]). *)
Definition handleVersionNameSave (s : t) : option t :=
  match editVersionDialog s with
  | None => Some s
  | Some d =>
      match at_index (versions s) (dlg_index d) with
      | None => None
      | Some v =>
          Some (set_dialog None
                  (set_versions
                     (<[Z.to_nat (dlg_index d) := rename (dlg_name d) v]> (versions s))
                     s))
      end
  end.

(** [handleVersionNameCancel]. *)
Definition handleVersionNameCancel (s : t) : t := set_dialog None s.

(** [handleReanalyze]: the active version is replaced in place; reading
    [versions[currentVersionIndex].description] throws when there is no
    active version, and the handler catches it. *)
Definition handleReanalyze (s : t) (analysis : option GeminiResponse.t) (now : Z) : t :=
  match analysis with
  | None => s
  | Some a =>
      match at_index (versions s) (currentVersionIndex s) with
      | None => s
      | Some v =>
          let updatedVersion :=
            {| StoryVersion.id := StoryVersion.id v;
               StoryVersion.name := StoryVersion.name v;
               StoryVersion.text := StoryVersion.text v;
               StoryVersion.flowchartData := GeminiResponse.flowchart a;
               StoryVersion.characters := GeminiResponse.characters a;
               StoryVersion.plot := GeminiResponse.plot a;
               StoryVersion.timestamp := now;
               StoryVersion.description := StoryVersion.description v;
               StoryVersion.parentVersionId := StoryVersion.parentVersionId v |} in
          let fc := match GeminiResponse.flowchart a with
                    | Some f => Some f
                    | None => flowchartData s
                    end in
          set_display (text s) fc (GeminiResponse.characters a)
            (set_versions
               (<[Z.to_nat (currentVersionIndex s) := updatedVersion]> (versions s)) s)
      end
  end.

(** *** User actions and reachable states *)

Inductive action :=
| TextChange (newText : jsstring) (analysis : option GeminiResponse.t) (now : Z)
| ModifyText (sel : TextSelection.t) (prompt : jsstring)
    (continuation : option jsstring)
    (analysis analysis' : option GeminiResponse.t) (now : Z)
| ModifyEntireText (prompt : jsstring) (rewritten : option jsstring)
    (analysis analysis' : option GeminiResponse.t) (now : Z)
| CharactersEdit (rewritten : option jsstring)
    (analysis analysis' : option GeminiResponse.t) (now : Z)
| GenerateStoryFromFlowchart (rewritten : option jsstring)
    (analysis analysis' : option GeminiResponse.t) (now : Z)
| Reanalyze (analysis : option GeminiResponse.t) (now : Z)
| VersionChange (index : Z)
| ToggleCompareMode
| VersionDelete (index : Z)
| VersionNameEditStart (index : Z)
| VersionNameInput (value : jsstring)
| VersionNameSave
| VersionNameCancel.

(** A tab is rendered for every position of [versions] and for no other. *)
Definition tab_exists (s : t) (index : Z) : bool :=
  bool_decide (0 <= index < len (versions s)).

(** One user action. [None]: the control that triggers the action is not
    rendered in [s] (tabs come from [versions.map], the compare button
    needs [versions.length > 1]), or the model stops (see
    [handleVersionNameSave]). *)
Definition exec (s : t) (a : action) : option t :=
  match a with
  | TextChange newText analysis now => Some (handleTextChange s newText analysis now)
  | ModifyText sel prompt c a1 a2 now =>
      Some (handleModifyText s sel prompt c a1 a2 now)
  | ModifyEntireText prompt r a1 a2 now =>
      Some (handleModifyEntireText s prompt r a1 a2 now)
  | CharactersEdit r a1 a2 now => Some (handleCharactersEdit s r a1 a2 now)
  | GenerateStoryFromFlowchart r a1 a2 now =>
      Some (handleGenerateStoryFromFlowchart s r a1 a2 now)
  | Reanalyze analysis now => Some (handleReanalyze s analysis now)
  | VersionChange index =>
      if tab_exists s index then Some (state_of (handleVersionChange s index))
      else None
  | ToggleCompareMode =>
      if decide (len (versions s) > 1) then Some (toggleCompareMode s) else None
  | VersionDelete index =>
      if tab_exists s index then Some (state_of (handleVersionDelete s index))
      else None
  | VersionNameEditStart index =>
      if tab_exists s index then
        match at_index (versions s) index with
        | Some v => Some (handleVersionNameEditStart s index (StoryVersion.name v))
        | None => None
        end
      else None
  | VersionNameInput value => Some (handleVersionNameInput s value)
  | VersionNameSave => handleVersionNameSave s
  | VersionNameCancel => Some (handleVersionNameCancel s)
  end.

Fixpoint execs (s : t) (tr : list action) : option t :=
  match tr with
  | [] => Some s
  | a :: tr' =>
      match exec s a with
      | Some s' => execs s' tr'
      | None => None
      end
  end.

Definition reachable (s : t) : Prop := exists tr, execs init tr = Some s.

Definition is_delete (a : action) : bool :=
  match a with VersionDelete _ => true | _ => false end.

End App.

(** ** Exceptions and promises *)

Module Control.

(** A computation that returns or throws. *)
Inductive exn (A : Type) :=
| Ok (a : A)
| Throw.
Arguments Ok {A} a.
Arguments Throw {A}.

Definition bind {A B} (c : exn A) (k : A -> exn B) : exn B :=
  match c with
  | Ok a => k a
  | Throw => Throw
  end.

(** [option] as the outcome of an awaited call: [None] is a rejection. *)
Definition await {A} (o : option A) : exn A :=
  match o with
  | Some a => Ok a
  | None => Throw
  end.

(** [try { c } catch { return h }]. *)
Definition try_catch {A} (c : exn A) (h : A) : A :=
  match c with
  | Ok a => a
  | Throw => h
  end.

(** How an [async] function settles. *)
Inductive promise (A : Type) :=
| Resolved (a : A)
| Rejected.
Arguments Resolved {A} a.
Arguments Rejected {A}.

(** An [async] body without a handler of its own. *)
Definition settle {A} (c : exn A) : promise A :=
  match c with
  | Ok a => Resolved a
  | Throw => Rejected
  end.

End Control.

Notation "x <- c ;; k" := (Control.bind c (fun x => k))
  (at level 100, c at next level, right associativity).

(** ** The regular-expression idioms of the sources *)

Module Regex.

(** [\s]: white space and line terminators. *)
Definition is_space (c : N) : bool :=
  ((9 <=? c) && (c <=? 13) || (c =? 32) || (c =? 160) || (c =? 5760)
   || (8192 <=? c) && (c <=? 8202) || (c =? 8232) || (c =? 8233)
   || (c =? 8239) || (c =? 8287) || (c =? 12288) || (c =? 65279))%N.

(** What [.] does not match. *)
Definition is_line_terminator (c : N) : bool :=
  ((c =? 10) || (c =? 13) || (c =? 8232) || (c =? 8233))%N.

(** [[A-Z]]. *)
Definition is_upper (c : N) : bool := ((65 <=? c) && (c <=? 90))%N.

Fixpoint drop_while {A} (p : A -> bool) (l : list A) : list A :=
  match l with
  | [] => []
  | x :: r => if p x then drop_while p r else l
  end.

Fixpoint take_while {A} (p : A -> bool) (l : list A) : list A :=
  match l with
  | [] => []
  | x :: r => if p x then x :: take_while p r else []
  end.

(** [s.trim()]. *)
Definition trim (s : jsstring) : jsstring :=
  reverse (drop_while is_space (reverse (drop_while is_space s))).

(** [s.startsWith(pat)], with the rest of [s]. *)
Fixpoint strip_prefix (pat s : jsstring) : option jsstring :=
  match pat, s with
  | [], _ => Some s
  | p :: pat', c :: s' => if (p =? c)%N then strip_prefix pat' s' else None
  | _ :: _, [] => None
  end.

(** What follows the first occurrence of [pat] in [s]. *)
Fixpoint after_first (pat s : jsstring) : option jsstring :=
  match strip_prefix pat s with
  | Some rest => Some rest
  | None => match s with [] => None | _ :: s' => after_first pat s' end
  end.

(** [(.*?)] followed by one character of the class [stop]: the
    characters up to the first [stop], none of them a line terminator. *)
Fixpoint lazy_until (stop : N -> bool) (s : jsstring)
  : option (jsstring * N * jsstring) :=
  match s with
  | [] => None
  | c :: s' =>
      if stop c then Some ([], c, s')
      else if is_line_terminator c then None
      else
        match lazy_until stop s' with
        | Some (taken, d, rest) => Some (c :: taken, d, rest)
        | None => None
        end
  end.

(** [([\s\S]*?)] followed by the literal [pat]. *)
Fixpoint lazy_any_until (pat s : jsstring) : option (jsstring * jsstring) :=
  match strip_prefix pat s with
  | Some rest => Some ([], rest)
  | None =>
      match s with
      | [] => None
      | c :: s' =>
          match lazy_any_until pat s' with
          | Some (taken, rest) => Some (c :: taken, rest)
          | None => None
          end
      end
  end.

(** One step of a scan with the [g] flag: a character no match starts
    at, or a match. *)
Inductive piece (M : Type) :=
| Skipped (c : N)
| Matched (m : M).
Arguments Skipped {M} c.
Arguments Matched {M} m.

(** The scan of [s] by a pattern with the [g] flag. [m s] tries the
    pattern at the start of [s] and gives what it captured and the text
    after the match. The patterns used here consume at least one character;
    a match that consumed nothing is treated as no match. *)
Equations global {M} (m : jsstring -> option (M * jsstring)) (s : jsstring)
  : list (piece M) by wf (length s) lt :=
  global m [] := [];
  global m (c :: s') with m (c :: s') := {
    | Some (x, rest) with decide (length rest < length (c :: s'))%nat := {
        | left _ := Matched x :: global m rest;
        | right _ := Skipped c :: global m s' };
    | None := Skipped c :: global m s' }.

(** [s.match(/.../g)]: the captures of all matches, in order. *)
Definition matches {M} (m : jsstring -> option (M * jsstring)) (s : jsstring) : list M :=
  omap (fun p => match p with Matched x => Some x | Skipped _ => None end)
       (global m s).

(** [s.replace(/.../g, ...)]; [m] gives the replacement text. *)
Definition replace_all (m : jsstring -> option (jsstring * jsstring)) (s : jsstring)
  : jsstring :=
  concat ((fun p => match p with Matched x => x | Skipped c => [c] end)
            <$> global m s).

(** [s.match(/.../)], without the [g] flag: the leftmost match. *)
Fixpoint first_match {M} (m : jsstring -> option (M * jsstring)) (s : jsstring)
  : option M :=
  match m s with
  | Some (x, _) => Some x
  | None => match s with [] => None | _ :: s' => first_match m s' end
  end.

(** [s.split(sep)] for a non-empty separator. *)
Fixpoint split_pieces {M} (cur : jsstring) (ps : list (piece M)) : list jsstring :=
  match ps with
  | [] => [reverse cur]
  | Skipped c :: ps' => split_pieces (c :: cur) ps'
  | Matched _ :: ps' => reverse cur :: split_pieces [] ps'
  end.

Definition split (sep s : jsstring) : list jsstring :=
  split_pieces []
    (global (fun t => match strip_prefix sep t with
                      | Some rest => Some (tt, rest)
                      | None => None
                      end) s).

(** [s.includes(pat)]. *)
Definition includes (pat s : jsstring) : bool :=
  bool_decide (is_Some (after_first pat s)).

End Regex.

(** ** services/geminiService.ts: the extractors *)

Module GeminiService.
Import Regex.

(** [/([A-Z])\[(.*?)\]/] tried at the start of [s]: the id, the label and
    the text after the closing bracket. *)
Definition nodeToken (s : jsstring) : option ((N * jsstring) * jsstring) :=
  match s with
  | x :: b :: s' =>
      if is_upper x && (b =? 91)%N then
        match lazy_until (fun c => (c =? 93)%N) s' with
        | Some (label, _, rest) => Some ((x, label), rest)
        | None => None
        end
      else None
  | _ => None
  end.

(** The same pattern with the [g] flag hands on the matched text. *)
Definition nodeTokenText (s : jsstring) : option (jsstring * jsstring) :=
  match nodeToken s with
  | Some ((x, label), rest) => Some (x :: 91%N :: label ++ [93%N], rest)
  | None => None
  end.

(** The body of the inner [forEach]: first occurrence of an id wins. *)
Definition addNode (nodes : list FlowNode.t) (tok : N * jsstring) : list FlowNode.t :=
  match JS.find (fun n => streq (FlowNode.id n) [tok.1]) nodes with
  | Some _ => nodes
  | None =>
      nodes ++ [ {| FlowNode.id := [tok.1]; FlowNode.label := tok.2;
                    FlowNode.x := 100; FlowNode.y := 100 + len nodes * 100 |} ]
  end.

(** The body of the outer [forEach] of the first pass. *)
Definition addLineNodes (nodes : list FlowNode.t) (line : jsstring) : list FlowNode.t :=
  foldl (fun nodes matched =>
           match first_match nodeToken matched with
           | Some tok => addNode nodes tok
           | None => nodes
           end)
        nodes (matches nodeTokenText line).

Definition firstPass (lines : list jsstring) : list FlowNode.t :=
  foldl addLineNodes [] lines.

(** [/^([A-Z])/]. *)
Definition leadingUpper (s : jsstring) : option N :=
  match s with
  | c :: _ => if is_upper c then Some c else None
  | [] => None
  end.

Definition arrow : jsstring := utf16 "-->".

(** The body of the [forEach] of the second pass. *)
Definition lineEdge (index : nat) (line : jsstring) : option FlowEdge.t :=
  if includes arrow line then
    match trim <$> split arrow line with
    | fromPart :: toPart :: _ =>
        match leadingUpper fromPart, leadingUpper toPart with
        | Some a, Some b =>
            Some {| FlowEdge.id := utf16 "e" ++ of_int (Z.of_nat index);
                    FlowEdge.source := [a]; FlowEdge.target := [b];
                    FlowEdge.type := utf16 "smoothstep";
                    FlowEdge.animated := false |}
        | _, _ => None
        end
    | _ => None
    end
  else None.

Definition secondPass (lines : list jsstring) : list FlowEdge.t :=
  omap (fun e => e) (imap lineEdge lines).

(** [flowchartSection[1].split('\n').map(l => l.trim()).filter(Boolean)]. *)
Definition diagramLines (block : jsstring) : list jsstring :=
  filter (fun l => l <> []) (trim <$> split [10%N] block).

(** The fence header [```mermaid\s*\n\s*graph TD\n] tried at the start of
    [s]: the white space after [mermaid] has to hold a line feed. *)
Definition fenceHeader (s : jsstring) : option jsstring :=
  match strip_prefix (utf16 "```mermaid") s with
  | Some r =>
      if existsb (fun c => (c =? 10)%N) (take_while is_space r) then
        strip_prefix (utf16 "graph TD" ++ [10%N]) (drop_while is_space r)
      else None
  | None => None
  end.

Fixpoint firstFenceHeader (s : jsstring) : option jsstring :=
  match fenceHeader s with
  | Some rest => Some rest
  | None => match s with [] => None | _ :: s' => firstFenceHeader s' end
  end.

(** The capture group of
    [/\[FLOWCHART\][\s\S]*?```mermaid\s*\n\s*graph TD\n([\s\S]*?)\n```/]:
    after the first marker, after the first fence header behind it, up to
    the first closing fence. *)
Definition flowchartSection (text : jsstring) : option jsstring :=
  match after_first (utf16 "[FLOWCHART]") text with
  | Some r1 =>
      match firstFenceHeader r1 with
      | Some r2 =>
          match lazy_any_until (10%N :: utf16 "```") r2 with
          | Some (block, _) => Some block
          | None => None
          end
      | None => None
      end
  | None => None
  end.

(** What [extractFlowchart] does with the capture group. *)
Definition flowchartOfBlock (block : jsstring) : Flowchart.t :=
  let lines := diagramLines block in
  {| Flowchart.nodes := firstPass lines; Flowchart.edges := secondPass lines |}.

Definition extractFlowchart (text : jsstring) : option Flowchart.t :=
  flowchartOfBlock <$> flowchartSection text.

(** *** JSON.stringify on a relationship list *)

Definition is_high_surrogate (c : N) : bool := ((55296 <=? c) && (c <=? 56319))%N.
Definition is_low_surrogate (c : N) : bool := ((56320 <=? c) && (c <=? 57343))%N.

Definition hexDigit (d : N) : N := (if d <? 10 then 48 + d else 87 + d)%N.

(** [\uXXXX], lower-case digits. *)
Definition unicodeEscape (c : N) : jsstring :=
  [92; 117; hexDigit (c / 4096 mod 16); hexDigit (c / 256 mod 16);
   hexDigit (c / 16 mod 16); hexDigit (c mod 16)]%N.

(** One code unit that is not part of a surrogate pair. *)
Definition quoteUnit (c : N) : jsstring :=
  if (c =? 8)%N then [92; 98]%N
  else if (c =? 9)%N then [92; 116]%N
  else if (c =? 10)%N then [92; 110]%N
  else if (c =? 12)%N then [92; 102]%N
  else if (c =? 13)%N then [92; 114]%N
  else if (c =? 34)%N then [92; 34]%N
  else if (c =? 92)%N then [92; 92]%N
  else if (c <? 32)%N || is_high_surrogate c || is_low_surrogate c
  then unicodeEscape c
  else [c].

(** The text between the quotes of [QuoteJSONString]: a surrogate pair is
    copied, every other code unit goes through [quoteUnit]. *)
Fixpoint quoteChars (s : jsstring) : jsstring :=
  match s with
  | [] => []
  | c :: r =>
      match r with
      | d :: r' =>
          if is_high_surrogate c && is_low_surrogate d
          then c :: d :: quoteChars r'
          else quoteUnit c ++ quoteChars r
      | [] => quoteUnit c
      end
  end.

Definition quoteJSONString (s : jsstring) : jsstring :=
  34%N :: quoteChars s ++ [34%N].

(** An object with the keys [to] and [type], in this order. *)
Definition stringifyRelationship (r : Relationship.t) : jsstring :=
  utf16 "{" ++ quoteJSONString (utf16 "to") ++ utf16 ":" ++
  quoteJSONString (Relationship.to r) ++ utf16 "," ++
  quoteJSONString (utf16 "type") ++ utf16 ":" ++
  quoteJSONString (Relationship.type r) ++ utf16 "}".

Fixpoint joinComma (l : list jsstring) : jsstring :=
  match l with
  | [] => []
  | [x] => x
  | x :: l' => x ++ 44%N :: joinComma l'
  end.

Definition JSON_stringify (rs : list Relationship.t) : jsstring :=
  91%N :: joinComma (stringifyRelationship <$> rs) ++ [93%N].

(** *** The character diff of [modifyStoryWithCharacters] *)

Module CharacterChange.
Inductive kind := Modified | Added | Deleted.
Record flags := mkFlags { name : bool; description : bool; relationships : bool }.
Record t := mk
  { type : kind;
    original : option Character.t;
    modified : option Character.t;
    changes : option flags }.
End CharacterChange.

Definition characterChanges (originalCharacters modifiedCharacters : list Character.t)
  : list CharacterChange.t :=
  (fun modChar =>
     match JS.find (fun c => streq (Character.id c) (Character.id modChar))
             originalCharacters with
     | Some origChar =>
         {| CharacterChange.type := CharacterChange.Modified;
            CharacterChange.original := Some origChar;
            CharacterChange.modified := Some modChar;
            CharacterChange.changes := Some
              {| CharacterChange.name :=
                   negb (streq (Character.name origChar) (Character.name modChar));
                 CharacterChange.description :=
                   negb (streq (Character.description origChar)
                               (Character.description modChar));
                 CharacterChange.relationships :=
                   negb (streq (JSON_stringify (Character.relationships origChar))
                               (JSON_stringify (Character.relationships modChar))) |} |}
     | None =>
         {| CharacterChange.type := CharacterChange.Added;
            CharacterChange.original := None;
            CharacterChange.modified := Some modChar;
            CharacterChange.changes := None |}
     end) <$> modifiedCharacters.

Definition deletedCharacters (originalCharacters modifiedCharacters : list Character.t)
  : list CharacterChange.t :=
  (fun char =>
     {| CharacterChange.type := CharacterChange.Deleted;
        CharacterChange.original := Some char;
        CharacterChange.modified := None;
        CharacterChange.changes := None |})
  <$> List.filter
        (fun origChar =>
           negb (JS.some (fun modChar =>
                            streq (Character.id modChar) (Character.id origChar))
                         modifiedCharacters))
        originalCharacters.

Definition allChanges (originalCharacters modifiedCharacters : list Character.t)
  : list CharacterChange.t :=
  characterChanges originalCharacters modifiedCharacters ++
  deletedCharacters originalCharacters modifiedCharacters.

(** *** [convertToReadableText] *)

(** What the request to the generative-text endpoint comes to: the
    request fails, or it is answered and
    [response.data.candidates[0].content.parts[0].text] is read, which
    throws a [TypeError] when the body has no such text ([Body None]). *)
Inductive reply :=
| NetworkError
| Body (text : option jsstring).

Definition replyText (r : reply) : Control.exn jsstring :=
  match r with
  | NetworkError => Control.Throw
  | Body t => Control.await t
  end.

Definition convertToReadableText (text : jsstring) (r : reply)
  : Control.promise jsstring :=
  Control.Resolved
    (Control.try_catch
       (result <- replyText r ;;
        Control.Ok (trim result))
       text).

(** *** [analyzeFlowchartRelationship] *)

Module Json.
#[local] Unset Elimination Schemes.
(** A JavaScript value as [JSON.parse] builds it, and [undefined]. A
    number is kept as its literal; an object holds each of its keys once. *)
Inductive value :=
| Undefined
| Null
| Bool (b : bool)
| Num (literal : jsstring)
| Str (s : jsstring)
| Arr (items : list value)
| Obj (fields : list (jsstring * value)).
#[local] Set Elimination Schemes.

Fixpoint lookup (key : jsstring) (fields : list (jsstring * value)) : value :=
  match fields with
  | [] => Undefined
  | (k, v) :: fields' => if streq k key then v else lookup key fields'
  end.

(** [v.key] for a key that arrays, strings, numbers and booleans do not
    have: a [TypeError] on [null] and [undefined]. *)
Definition getProp (v : value) (key : jsstring) : Control.exn value :=
  match v with
  | Undefined | Null => Control.Throw
  | Obj fields => Control.Ok (lookup key fields)
  | _ => Control.Ok Undefined
  end.
End Json.

Module RelationshipResult.
Record t := mk { branchPoint : Json.value; sharedNodes : list Json.value }.
Definition empty : t := {| branchPoint := Json.Null; sharedNodes := [] |}.
End RelationshipResult.

(** [/\{[\s\S]*\}/]: from the first opening brace to the last closing one. *)
Definition matchBraces (s : jsstring) : option jsstring :=
  match drop_while (fun c => negb (c =? 123)%N) s with
  | [] => None
  | _ :: body =>
      match drop_while (fun c => negb (c =? 125)%N) (reverse body) with
      | [] => None
      | rb => Some (123%N :: reverse rb)
      end
  end.

(** [.replace(/(\r\n|\n|\r)/gm, '')]. *)
Definition dropLineBreaks (s : jsstring) : jsstring :=
  List.filter (fun c => negb ((c =? 10) || (c =? 13))%N) s.

(** [.replace(/,\s*([\]}])/g, '$1')]. *)
Definition trailingComma (s : jsstring) : option (jsstring * jsstring) :=
  match s with
  | c :: r =>
      if (c =? 44)%N then
        match drop_while is_space r with
        | d :: r' =>
            if ((d =? 93) || (d =? 125))%N then Some ([d], r') else None
        | [] => None
        end
      else None
  | [] => None
  end.

(** The third replacement of the repair pass: after an opening brace or
    a comma and white space, a key that starts with a character that is
    no quote and no white space and runs up to the first colon is put in
    double quotes; the white space after the colon goes. *)
Definition bareKey (s : jsstring) : option (jsstring * jsstring) :=
  match s with
  | c :: r =>
      if ((c =? 123) || (c =? 44))%N then
        match drop_while is_space r with
        | k0 :: r' =>
            if ((k0 =? 34) || (k0 =? 39))%N || is_space k0 then None
            else
              match lazy_until (fun d => (d =? 58)%N) r' with
              | Some (taken, _, rest) =>
                  Some (c :: 34%N :: k0 :: taken ++ [34; 58]%N,
                        drop_while is_space rest)
              | None => None
              end
        | [] => None
        end
      else None
  | [] => None
  end.

(** The fourth replacement of the repair pass: after a colon and white
    space, a value that starts with a character that is no quote, no
    white space, no opening brace and no opening bracket and runs up to
    the first comma or closing brace is put in double quotes. *)
Definition bareValue (s : jsstring) : option (jsstring * jsstring) :=
  match s with
  | c :: r =>
      if (c =? 58)%N then
        match drop_while is_space r with
        | k0 :: r' =>
            if ((k0 =? 34) || (k0 =? 39) || (k0 =? 123) || (k0 =? 91))%N
               || is_space k0 then None
            else
              match lazy_until (fun d => ((d =? 44) || (d =? 125))%N) r' with
              | Some (taken, d, rest) =>
                  Some (58%N :: 34%N :: k0 :: taken ++ [34%N; d], rest)
              | None => None
              end
        | [] => None
        end
      else None
  | [] => None
  end.

(** The repair pass, [cleanedJson]. *)
Definition cleanJson (jsonMatch : jsstring) : jsstring :=
  replace_all bareValue
    (replace_all bareKey
       (replace_all trailingComma (dropLineBreaks jsonMatch))).

Section Analyzer.

(** [JSON.parse]: [None] is a [SyntaxError]. *)
Variable JSON_parse : jsstring -> option Json.value.

(** The inner [try]/[catch]: parse, and on failure parse the repaired text. *)
Definition parseWithRepair (jsonMatch : jsstring) : Control.exn Json.value :=
  match JSON_parse jsonMatch with
  | Some v => Control.Ok v
  | None => Control.await (JSON_parse (cleanJson jsonMatch))
  end.

(** The body of the outer [try]. Building the prompt reads
    [flowchart1.nodes] and [flowchart2.nodes], a [TypeError] on [null]. *)
Definition analyzeBody (flowchart1 flowchart2 : option Flowchart.t)
    (text1 text2 : jsstring) (r : reply) : Control.exn RelationshipResult.t :=
  _ <- Control.await flowchart1 ;;
  _ <- Control.await flowchart2 ;;
  responseText <- replyText r ;;
  jsonMatch <- Control.await (matchBraces responseText) ;;
  parsedResult <- parseWithRepair jsonMatch ;;
  branchPoint <- Json.getProp parsedResult (utf16 "branchPoint") ;;
  sharedNodes <- Json.getProp parsedResult (utf16 "sharedNodes") ;;
  Control.Ok
    {| RelationshipResult.branchPoint := branchPoint;
       RelationshipResult.sharedNodes :=
         match sharedNodes with
         | Json.Arr items => items
         | _ => []
         end |}.

Definition analyzeFlowchartRelationship (flowchart1 flowchart2 : option Flowchart.t)
    (text1 text2 : jsstring) (r : reply) : Control.promise RelationshipResult.t :=
  Control.Resolved
    (Control.try_catch (analyzeBody flowchart1 flowchart2 text1 text2 r)
       RelationshipResult.empty).

End Analyzer.

End GeminiService.

(** ** services/voicevoxService.ts *)

Module Voicevox.
Import Regex.

(** The four marks of [[、。！？]]. *)
Definition is_punct (c : N) : bool :=
  ((c =? 12289) || (c =? 12290) || (c =? 65281) || (c =? 65311))%N.

(** [/\n+/g] to one full stop. *)
Definition lineFeeds (s : jsstring) : option (jsstring * jsstring) :=
  match s with
  | c :: r =>
      if (c =? 10)%N then Some ([12290%N], drop_while (fun d => (d =? 10)%N) r)
      else None
  | [] => None
  end.

(** [/([^、。！？])\s*$/g]: a last character that is no mark gets a full
    stop, the white space behind it goes. *)
Definition missingStop (s : jsstring) : option (jsstring * jsstring) :=
  match s with
  | c :: r =>
      if negb (is_punct c) && forallb is_space r then Some ([c; 12290%N], [])
      else None
  | [] => None
  end.

(** [/[、。！？]+/g] to the first mark of the run. *)
Definition punctRun (s : jsstring) : option (jsstring * jsstring) :=
  match s with
  | c :: r => if is_punct c then Some ([c], drop_while is_punct r) else None
  | [] => None
  end.

(** [/([、。！？])\s+/g]: white space behind a mark goes. *)
Definition spaceAfterPunct (s : jsstring) : option (jsstring * jsstring) :=
  match s with
  | c :: d :: r =>
      if is_punct c && is_space d then Some ([c], drop_while is_space r)
      else None
  | _ => None
  end.

(** [/\s+/g] to one comma. *)
Definition spaceRun (s : jsstring) : option (jsstring * jsstring) :=
  match s with
  | c :: r => if is_space c then Some ([12289%N], drop_while is_space r) else None
  | [] => None
  end.

Definition preprocessText (text : jsstring) : jsstring :=
  replace_all spaceRun
    (replace_all spaceAfterPunct
       (replace_all punctRun
          (replace_all missingStop
             (replace_all lineFeeds text)))).

Section GenerateAudio.

(** The speech-synthesis service. [audio_query] stands for the first
    request with its [ok] check and [json()], [synthesis] for the second
    with its [ok] check and [arrayBuffer()]; [None] is any failure.
    [withSpeedScale] sets [speedScale] to 0.7. *)
Variables QueryJson ArrayBuffer : Type.
Variable audio_query : jsstring -> Z -> option QueryJson.
Variable withSpeedScale : QueryJson -> QueryJson.
Variable synthesis : QueryJson -> Z -> option ArrayBuffer.

(** [generateAudio]; [r] is what the conversion request comes to. The
    handler logs and throws again. *)
Definition generateAudio (text : jsstring) (speakerId : Z) (r : GeminiService.reply)
  : Control.promise ArrayBuffer :=
  Control.settle
    (readableText <-
       match GeminiService.convertToReadableText text r with
       | Control.Resolved t => Control.Ok t
       | Control.Rejected => Control.Throw
       end ;;
     let processedText := preprocessText readableText in
     queryJson <- Control.await (audio_query processedText speakerId) ;;
     let queryJson' :=
       if decide (speakerId = 13) then withSpeedScale queryJson else queryJson in
     Control.await (synthesis queryJson' speakerId)).

End GenerateAudio.

(** [AudioPlayer]. Times are ticks of the audio clock; a decoded buffer
    is known by its duration. [sourceNode] is [None] for [null], and for
    the node that the field holds it tells whether that node is still
    sounding: it is started by [play], and sounds until it is stopped or
    has ended. *)
Module AudioPlayer.

Record t := mk
  { audioContext : bool;
    audioBuffer : option Z;
    sourceNode : option bool;
    startTime : Z;
    offset : Z;
    isPlaying : bool }.

Definition new : t :=
  {| audioContext := false; audioBuffer := None; sourceNode := None;
     startTime := 0; offset := 0; isPlaying := false |}.

(** [sourceNode.stop(); sourceNode.disconnect()] when there is a node. *)
Definition stopSource (n : option bool) : option bool :=
  match n with
  | Some _ => Some false
  | None => None
  end.

(** [loadAudio]; [decoded] is what [decodeAudioData] settles with. The
    context is created before the decoding can fail. *)
Definition loadAudio (p : t) (decoded : option Z) : t * Control.exn unit :=
  let p1 :=
    {| audioContext := true; audioBuffer := audioBuffer p;
       sourceNode := sourceNode p; startTime := startTime p;
       offset := offset p; isPlaying := isPlaying p |} in
  match decoded with
  | None => (p1, Control.Throw)
  | Some buffer =>
      ({| audioContext := true; audioBuffer := Some buffer;
          sourceNode := sourceNode p; startTime := startTime p;
          offset := 0; isPlaying := isPlaying p |}, Control.Ok tt)
  end.

Definition play (p : t) (currentTime : Z) : t :=
  if negb (audioContext p) || negb (bool_decide (is_Some (audioBuffer p))) then p
  else
    {| audioContext := audioContext p; audioBuffer := audioBuffer p;
       sourceNode := Some true; startTime := currentTime - offset p;
       offset := offset p; isPlaying := true |}.

Definition getCurrentTime (p : t) (currentTime : Z) : Z :=
  if negb (audioContext p) || negb (isPlaying p) then offset p
  else currentTime - startTime p.

Definition getDuration (p : t) : Z :=
  match audioBuffer p with
  | Some duration => duration
  | None => 0
  end.

Definition pause (p : t) (currentTime : Z) : t :=
  if negb (isPlaying p) then p
  else
    {| audioContext := audioContext p; audioBuffer := audioBuffer p;
       sourceNode := stopSource (sourceNode p); startTime := startTime p;
       offset := getCurrentTime p currentTime; isPlaying := false |}.

Definition stop (p : t) : t :=
  {| audioContext := audioContext p; audioBuffer := audioBuffer p;
     sourceNode := stopSource (sourceNode p); startTime := startTime p;
     offset := 0; isPlaying := false |}.

Definition reset (p : t) : t :=
  {| audioContext := audioContext p; audioBuffer := audioBuffer p;
     sourceNode := stopSource (sourceNode p); startTime := startTime p;
     offset := 0; isPlaying := false |}.

(** The [onended] handler that [play] installs on every node it creates.
    It runs when such a node has ended, at the end of its buffer or
    after [stop()]; [current] tells whether that node is the one that
    [sourceNode] holds, which sounds no more then. The handler does not
    assign the field. *)
Definition onended (p : t) (current : bool) (currentTime : Z) : t :=
  let node := if current then stopSource (sourceNode p) else sourceNode p in
  if decide (getCurrentTime p currentTime >= getDuration p) then
    {| audioContext := audioContext p; audioBuffer := audioBuffer p;
       sourceNode := node; startTime := startTime p;
       offset := 0; isPlaying := false |}
  else
    {| audioContext := audioContext p; audioBuffer := audioBuffer p;
       sourceNode := node; startTime := startTime p;
       offset := offset p; isPlaying := isPlaying p |}.

Definition getIsPlaying (p : t) : bool := isPlaying p.

End AudioPlayer.

End Voicevox.

(** ** components/TextEditor.tsx: the audio controls *)

Module TextEditor.
Import Voicevox.

Definition MAX_TEXT_LENGTH : Z := 500.

Inductive playState := initial | playing | paused.

(** [audioPlayer] is a reference to a player object of the heap. *)
Record AudioState := mkAudioState
  { audioPlayer : nat;
    state : playState;
    isGenerating : bool }.

(** The audio part of the component: the [audioStates] state, the
    [previousVersionIndex] ref and the player objects that exist. *)
Record t := mk
  { audioStates : gmap jsstring AudioState;
    previousVersionIndex : Z;
    players : list AudioPlayer.t }.

(** The component as it mounts with [versionIndex]. *)
Definition mount (versionIndex : Z) : t :=
  {| audioStates := ∅; previousVersionIndex := versionIndex; players := [] |}.

(** What the handlers ask of the outside. *)
Inductive effect :=
| GenerateAudio (text : jsstring) (speakerId : Z)
| Play (player : nat)
| Pause (player : nat).

(** [`v${versionIndex + 1}`]. *)
Definition versionKey (versionIndex : Z) : jsstring :=
  utf16 "v" ++ of_int (versionIndex + 1).

Definition setAudioState (key : jsstring) (a : AudioState) (st : t) : t :=
  {| audioStates := <[key := a]> (audioStates st);
     previousVersionIndex := previousVersionIndex st;
     players := players st |}.

Definition updatePlayer (r : nat) (f : AudioPlayer.t -> AudioPlayer.t) (st : t) : t :=
  {| audioStates := audioStates st;
     previousVersionIndex := previousVersionIndex st;
     players := alter f r (players st) |}.

Definition withState (s : playState) (a : AudioState) : AudioState :=
  {| audioPlayer := audioPlayer a; state := s; isGenerating := isGenerating a |}.

Definition withGenerating (g : bool) (s : playState) (a : AudioState) : AudioState :=
  {| audioPlayer := audioPlayer a; state := s; isGenerating := g |}.

(** [getCurrentAudioState]: the state of the current version, made with
    a new player when there is none. *)
Definition getCurrentAudioState (st : t) (versionIndex : Z) : AudioState * t :=
  let currentVersion := versionKey versionIndex in
  match audioStates st !! currentVersion with
  | Some a => (a, st)
  | None =>
      let newState :=
        {| audioPlayer := length (players st); state := initial;
           isGenerating := false |} in
      (newState,
       {| audioStates := <[currentVersion := newState]> (audioStates st);
          previousVersionIndex := previousVersionIndex st;
          players := players st ++ [AudioPlayer.new] |})
  end.

(** The effect that runs when the version is switched. [versions] are the
    ids of the version list. *)
Definition versionSwitchEffect (st : t) (versionIndex : Z) (versions : list jsstring) : t :=
  if decide (previousVersionIndex st <> versionIndex) then
    let prevVersion := versionKey (previousVersionIndex st) in
    let st1 :=
      if negb (JS.some (fun v => streq v prevVersion) versions) then
        {| audioStates := delete prevVersion (audioStates st);
           previousVersionIndex := previousVersionIndex st;
           players := players st |}
      else
        match audioStates st !! prevVersion with
        | Some a =>
            setAudioState prevVersion (withState initial a)
              (updatePlayer (audioPlayer a) AudioPlayer.reset st)
        | None => st
        end in
    {| audioStates := audioStates st1; previousVersionIndex := versionIndex;
       players := players st1 |}
  else st.

(** [isAudioEnabled]. *)
Definition isAudioEnabled (text : jsstring) : bool :=
  bool_decide (len text > 0) && bool_decide (len text <= MAX_TEXT_LENGTH).

Definition playerDuration (st : t) (r : nat) : Z :=
  match players st !! r with
  | Some p => AudioPlayer.getDuration p
  | None => 0
  end.

Section PlayAudio.

Variable ArrayBuffer : Type.
(** [decodeAudioData]: the duration of the decoded buffer, [None] when it
    rejects. *)
Variable decodeAudioData : ArrayBuffer -> option Z.

(** [handlePlayAudio]. [generated] is what [generateAudio] settles with
    if it is called, [currentTime] the reading of the audio clock. *)
Definition handlePlayAudio (st : t) (text : jsstring) (versionIndex : Z)
    (generated : option ArrayBuffer) (currentTime : Z) : t * list effect :=
  if negb (isAudioEnabled text) then (st, [])
  else
    let '(currentAudioState, st1) := getCurrentAudioState st versionIndex in
    let currentVersion := versionKey versionIndex in
    let r := audioPlayer currentAudioState in
    let failed st' :=
      setAudioState currentVersion
        (withGenerating false initial currentAudioState) st' in
    let start st' :=
      setAudioState currentVersion (withState playing currentAudioState)
        (updatePlayer r (fun p => AudioPlayer.play p currentTime) st') in
    match state currentAudioState with
    | playing =>
        (setAudioState currentVersion (withState paused currentAudioState)
           (updatePlayer r (fun p => AudioPlayer.pause p currentTime) st1),
         [Pause r])
    | _ =>
        if decide (len text = 0) then (st1, [])
        else if decide (playerDuration st1 r = 0) then
          let st2 :=
            setAudioState currentVersion
              (withGenerating true (state currentAudioState) currentAudioState)
              st1 in
          let speakerId := if decide (versionIndex = 0) then 13 else 1 in
          match generated with
          | None => (failed st2, [GenerateAudio text speakerId])
          | Some audioData =>
              match decodeAudioData audioData with
              | None =>
                  (failed
                     (updatePlayer r
                        (fun p => (AudioPlayer.loadAudio p None).1) st2),
                   [GenerateAudio text speakerId])
              | Some buffer =>
                  (start
                     (setAudioState currentVersion
                        (withGenerating false initial currentAudioState)
                        (updatePlayer r
                           (fun p => (AudioPlayer.loadAudio p (Some buffer)).1)
                           st2)),
                   [GenerateAudio text speakerId; Play r])
              end
          end
        else (start st1, [Play r])
    end.

End PlayAudio.

(** [handleResetAudio]. *)
Definition handleResetAudio (st : t) (versionIndex : Z) : t :=
  let '(currentAudioState, st1) := getCurrentAudioState st versionIndex in
  setAudioState (versionKey versionIndex) (withState initial currentAudioState)
    (updatePlayer (audioPlayer currentAudioState) AudioPlayer.reset st1).

(** The effect that runs when the text changes. *)
Definition textChangeEffect (st : t) (versionIndex : Z) : t :=
  match audioStates st !! versionKey versionIndex with
  | Some a =>
      setAudioState (versionKey versionIndex) (withState initial a)
        (updatePlayer (audioPlayer a) AudioPlayer.reset st)
  | None => st
  end.

End TextEditor.

(** ** The two users of the relationship analyzer *)

Module Relationships.
Import GeminiService.

(** One invocation of [analyzeFlowchartRelationship]. *)
Record call := mkCall
  { flowchart1 : option Flowchart.t;
    flowchart2 : option Flowchart.t;
    text1 : jsstring;
    text2 : jsstring }.

(** The invocations made so far and the object the results are stored in. *)
Definition progress : Type := list call * gmap jsstring RelationshipResult.t.

Fixpoint forEach {A B} (body : B -> A -> Control.exn B) (acc : B) (l : list A)
  : Control.exn B :=
  match l with
  | [] => Control.Ok acc
  | x :: l' => acc' <- body acc x ;; forEach body acc' l'
  end.

Section Analyzer.

Variable JSON_parse : jsstring -> option Json.value.
(** What the [n]-th request to the generative-text endpoint comes to. *)
Variable replies : nat -> reply.

(** [await analyzeFlowchartRelationship(...)], stored under [key]. *)
Definition analyzeInto (key : jsstring) (c : call) (acc : progress)
  : Control.exn progress :=
  match analyzeFlowchartRelationship JSON_parse (flowchart1 c) (flowchart2 c)
          (text1 c) (text2 c) (replies (length acc.1)) with
  | Control.Resolved result =>
      Control.Ok (acc.1 ++ [c], <[key := result]> acc.2)
  | Control.Rejected => Control.Throw
  end.

(** *** components/VersionMap.tsx *)

(** [`${i}-${i-1}`]. *)
Definition positionKey (i : Z) : jsstring :=
  of_int i ++ utf16 "-" ++ of_int (i - 1).

(** The body of the [for] loop of [analyzeRelationships]. *)
Definition versionMapBody (versions : list StoryVersion.t) (acc : progress) (i : Z)
  : Control.exn progress :=
  cur <- Control.await (at_index versions i) ;;
  prev <- Control.await (at_index versions (i - 1)) ;;
  match StoryVersion.flowchartData cur, StoryVersion.flowchartData prev with
  | Some _, Some _ =>
      analyzeInto (positionKey i)
        {| flowchart1 := StoryVersion.flowchartData prev;
           flowchart2 := StoryVersion.flowchartData cur;
           text1 := StoryVersion.text prev;
           text2 := StoryVersion.text cur |} acc
  | _, _ => Control.Ok acc
  end.

(** [analyzeRelationships] of the Version Map view: [i] runs from 1 to
    [versions.length - 1]; the result is what [setRelationships] gets. *)
Definition analyzeRelationships (versions : list StoryVersion.t)
  : Control.exn progress :=
  forEach (versionMapBody versions) ([], ∅)
    (Z.of_nat <$> seq 1 (length versions - 1)).

(** *** App.tsx *)

(** [`${version.id}-${parentVersion.id}`]. *)
Definition idKey (version parentVersion : StoryVersion.t) : jsstring :=
  StoryVersion.id version ++ utf16 "-" ++ StoryVersion.id parentVersion.

(** The body of the [for ... of] loop of [analyzeVersionRelationships]. *)
Definition appBody (versions : list StoryVersion.t) (acc : progress)
    (version : StoryVersion.t) : Control.exn progress :=
  match StoryVersion.parentVersionId version with
  | None => Control.Ok acc
  | Some parentId =>
      if decide (parentId = []) then Control.Ok acc
      else
        match JS.find (fun v => streq (StoryVersion.id v) parentId) versions with
        | None => Control.Ok acc
        | Some parentVersion =>
            analyzeInto (idKey version parentVersion)
              {| flowchart1 := StoryVersion.flowchartData parentVersion;
                 flowchart2 := StoryVersion.flowchartData version;
                 text1 := StoryVersion.text parentVersion;
                 text2 := StoryVersion.text version |} acc
        end
  end.

(** [analyzeVersionRelationships] of [App]; the result is what
    [setRelationshipCache] gets. *)
Definition analyzeVersionRelationships (versions : list StoryVersion.t)
  : Control.exn progress :=
  forEach (appBody versions) ([], ∅) versions.

End Analyzer.

End Relationships.

(** ** services/geminiService.ts: the characters and the plot of a reply *)

Module Analysis.
Import Regex GeminiService.

(** A lazy [[\s\S]*?] that a lookahead ends: the shortest prefix of [s]
    after which [look] holds, if there is one. *)
Fixpoint lazy_lookahead (look : jsstring -> bool) (s : jsstring) : option jsstring :=
  if look s then Some []
  else
    match s with
    | [] => None
    | c :: s' =>
        match lazy_lookahead look s' with
        | Some taken => Some (c :: taken)
        | None => None
        end
    end.

(** The lookahead of the characters section: a line feed and the plot
    marker, or a line feed and nothing but white space up to the end. *)
Definition charactersEnd (s : jsstring) : bool :=
  bool_decide (is_Some (strip_prefix (10%N :: utf16 "[PLOT]") s)) ||
  match s with
  | c :: r => (c =? 10)%N && forallb is_space r
  | [] => false
  end.

(** The capture group of the section pattern. A later occurrence of the
    marker can only match where the first one does, so the first
    occurrence decides. *)
Definition charactersSection (text : jsstring) : option jsstring :=
  match after_first (utf16 "[CHARACTERS]" ++ [10%N]) text with
  | Some rest => lazy_lookahead charactersEnd rest
  | None => None
  end.

(** The lazy description and its lookahead: the characters up to the
    first line feed or the end; no match when another line terminator
    comes first. *)
Fixpoint restOfLine (s : jsstring) : option jsstring :=
  match s with
  | [] => Some []
  | c :: s' =>
      if (c =? 10)%N then Some []
      else if is_line_terminator c then None
      else
        match restOfLine s' with
        | Some taken => Some (c :: taken)
        | None => None
        end
  end.

(** The greedy white space before the description. It first takes the
    whole run; when the description cannot be matched behind the run, it
    gives characters back, and the first shorter run that works is the
    one that ends before the last line feed of the run, with an empty
    description. *)
Definition descriptionAt (s : jsstring) : option jsstring :=
  match restOfLine (drop_while is_space s) with
  | Some description => Some description
  | None =>
      if existsb (fun c => (c =? 10)%N) (take_while is_space s) then Some []
      else None
  end.

(** The lazy name: the shortest run without a line terminator after
    which the two stars, the colon and the description match. *)
Fixpoint nameAt (s : jsstring) : option (jsstring * jsstring) :=
  match
    match strip_prefix (utf16 "**:") s with
    | Some rest => descriptionAt rest
    | None => None
    end
  with
  | Some description => Some ([], description)
  | None =>
      match s with
      | [] => None
      | c :: s' =>
          if is_line_terminator c then None
          else
            match nameAt s' with
            | Some (name, description) => Some (c :: name, description)
            | None => None
            end
      end
  end.

Fixpoint leftmost {M} (m : jsstring -> option M) (s : jsstring) : option M :=
  match m s with
  | Some x => Some x
  | None => match s with [] => None | _ :: s' => leftmost m s' end
  end.

(** [block.match(...)]: the two capture groups of the leftmost match. *)
Definition nameMatch (block : jsstring) : option (jsstring * jsstring) :=
  leftmost (fun s => match strip_prefix (utf16 "**") s with
                     | Some rest => nameAt rest
                     | None => None
                     end) block.

(** The body of the [forEach] over the blocks. *)
Definition characterOfBlock (index : nat) (block : jsstring) : option Character.t :=
  match nameMatch block with
  | Some (name, description) =>
      Some {| Character.id := utf16 "char-" ++ of_int (Z.of_nat index);
              Character.name := trim name;
              Character.description := trim description;
              Character.relationships := [] |}
  | None => None
  end.

Definition characterBlocks (section : jsstring) : list jsstring :=
  filter (fun b => b <> []) (split (10%N :: utf16 "-") section).

Definition extractCharacters (text : jsstring) : list Character.t :=
  match charactersSection text with
  | None => []
  | Some section => omap (fun c => c) (imap characterOfBlock (characterBlocks section))
  end.

(** The lookahead of the plot section: a line feed and an opening
    bracket, or the end of the text. *)
Definition plotEnd (s : jsstring) : bool :=
  bool_decide (is_Some (strip_prefix (10%N :: utf16 "[") s)) || bool_decide (s = []).

Definition plotSection (text : jsstring) : option jsstring :=
  match after_first (utf16 "[PLOT]") text with
  | Some rest => lazy_lookahead plotEnd rest
  | None => None
  end.

Definition extractPlot (text : jsstring) : list jsstring :=
  match plotSection text with
  | None => []
  | Some section =>
      List.filter (fun point => (0 <? len point)%Z)
        (trim <$> split (10%N :: utf16 "-") section)
  end.

(** [analyzeText]: the three extractors on the text of the reply. *)
Definition analyzeText (r : reply) : Control.promise GeminiResponse.t :=
  Control.settle
    (result <- replyText r ;;
     Control.Ok {| GeminiResponse.text := result;
                   GeminiResponse.flowchart := extractFlowchart result;
                   GeminiResponse.characters := extractCharacters result;
                   GeminiResponse.plot := extractPlot result |}).

End Analysis.

(** ** components/CharacterMap.tsx: the character editor *)

Module CharacterMap.
Import Regex.

Record t := mk
  { editingCharacters : list Character.t;
    isEditMode : bool;
    editDialogOpen : bool;
    editListDialogOpen : bool;
    selectedCharacter : option Character.t;
    editedName : jsstring;
    editedDescription : jsstring;
    isNewCharacter : bool }.

(** The [useState] initial values. *)
Definition mount : t :=
  {| editingCharacters := []; isEditMode := false; editDialogOpen := false;
     editListDialogOpen := false; selectedCharacter := None; editedName := [];
     editedDescription := []; isNewCharacter := false |}.

Definition setEditingCharacters (cs : list Character.t) (s : t) : t :=
  {| editingCharacters := cs; isEditMode := isEditMode s;
     editDialogOpen := editDialogOpen s;
     editListDialogOpen := editListDialogOpen s;
     selectedCharacter := selectedCharacter s; editedName := editedName s;
     editedDescription := editedDescription s;
     isNewCharacter := isNewCharacter s |}.

Definition setEditListDialogOpen (b : bool) (s : t) : t :=
  {| editingCharacters := editingCharacters s; isEditMode := isEditMode s;
     editDialogOpen := editDialogOpen s; editListDialogOpen := b;
     selectedCharacter := selectedCharacter s; editedName := editedName s;
     editedDescription := editedDescription s;
     isNewCharacter := isNewCharacter s |}.

Definition setIsEditMode (b : bool) (s : t) : t :=
  {| editingCharacters := editingCharacters s; isEditMode := b;
     editDialogOpen := editDialogOpen s;
     editListDialogOpen := editListDialogOpen s;
     selectedCharacter := selectedCharacter s; editedName := editedName s;
     editedDescription := editedDescription s;
     isNewCharacter := isNewCharacter s |}.

Definition setEditedName (v : jsstring) (s : t) : t :=
  {| editingCharacters := editingCharacters s; isEditMode := isEditMode s;
     editDialogOpen := editDialogOpen s;
     editListDialogOpen := editListDialogOpen s;
     selectedCharacter := selectedCharacter s; editedName := v;
     editedDescription := editedDescription s;
     isNewCharacter := isNewCharacter s |}.

Definition setEditedDescription (v : jsstring) (s : t) : t :=
  {| editingCharacters := editingCharacters s; isEditMode := isEditMode s;
     editDialogOpen := editDialogOpen s;
     editListDialogOpen := editListDialogOpen s;
     selectedCharacter := selectedCharacter s; editedName := editedName s;
     editedDescription := v; isNewCharacter := isNewCharacter s |}.

(** The four setters every path into and out of the single-character
    dialog calls together. *)
Definition setDialog (selected : option Character.t) (name description : jsstring)
    (isNew open : bool) (s : t) : t :=
  {| editingCharacters := editingCharacters s; isEditMode := isEditMode s;
     editDialogOpen := open; editListDialogOpen := editListDialogOpen s;
     selectedCharacter := selected; editedName := name;
     editedDescription := description; isNewCharacter := isNew |}.

Section Props.

(** The [characters] prop. *)
Variable characters : list Character.t.

Definition handleEditClick (s : t) : t :=
  setEditListDialogOpen true (setEditingCharacters characters s).

(** [handleSaveClick]; [onCharactersEdit] is the optional prop, and the
    handler stops at the [await] when the callback rejects. *)
Definition handleSaveClick
    (onCharactersEdit : option (list Character.t -> Control.exn unit)) (s : t)
  : Control.exn t :=
  _ <- match onCharactersEdit with
       | Some callback => callback (editingCharacters s)
       | None => Control.Ok tt
       end ;;
  Control.Ok (setIsEditMode false (setEditListDialogOpen false s)).

Definition handleCancelEdit (s : t) : t :=
  setIsEditMode false (setEditListDialogOpen false (setEditingCharacters characters s)).

Definition handleCharacterClick (character : Character.t) (s : t) : t :=
  setDialog (Some character) (Character.name character)
    (Character.description character) false true s.

Definition handleAddCharacter (s : t) : t :=
  setDialog None [] [] true true s.

Definition handleDeleteCharacter (characterId : jsstring) (s : t) : t :=
  setEditingCharacters
    (List.filter (fun char => negb (streq (Character.id char) characterId))
       (editingCharacters s)) s.

Definition handleDialogClose (s : t) : t :=
  setDialog None [] [] (isNewCharacter s) false s.

(** [handleDialogSave]; [now] is [Date.now()]. *)
Definition handleDialogSave (now : Z) (s : t) : t :=
  if bool_decide (trim (editedName s) = []) then s
  else
    handleDialogClose
      (if isNewCharacter s then
         setEditingCharacters
           (editingCharacters s ++
              [ {| Character.id := of_int now;
                   Character.name := trim (editedName s);
                   Character.description := trim (editedDescription s);
                   Character.relationships := [] |} ]) s
       else
         match selectedCharacter s with
         | Some selected =>
             setEditingCharacters
               ((fun char =>
                   if streq (Character.id char) (Character.id selected) then
                     {| Character.id := Character.id char;
                        Character.name := trim (editedName s);
                        Character.description := trim (editedDescription s);
                        Character.relationships := Character.relationships char |}
                   else char) <$> editingCharacters s) s
         | None => s
         end).

(** What the user can do in the editor; the payloads are the arguments
    of the handlers and the values of what the user types. *)
Inductive event :=
| EditClick
| SaveClick (onCharactersEdit : option (list Character.t -> Control.exn unit))
| CancelEdit
| CharacterClick (character : Character.t)
| AddCharacter
| DeleteCharacter (characterId : jsstring)
| NameInput (value : jsstring)
| DescriptionInput (value : jsstring)
| DialogSave (now : Z)
| DialogClose.

Definition handle (s : t) (e : event) : t :=
  match e with
  | EditClick => handleEditClick s
  | SaveClick onCharactersEdit =>
      Control.try_catch (handleSaveClick onCharactersEdit s) s
  | CancelEdit => handleCancelEdit s
  | CharacterClick character => handleCharacterClick character s
  | AddCharacter => handleAddCharacter s
  | DeleteCharacter characterId => handleDeleteCharacter characterId s
  | NameInput value => setEditedName value s
  | DescriptionInput value => setEditedDescription value s
  | DialogSave now => handleDialogSave now s
  | DialogClose => handleDialogClose s
  end.

End Props.

(** The clock values read during a run of events. *)
Definition clocks (evs : list event) : list Z :=
  omap (fun e => match e with DialogSave now => Some now | _ => None end) evs.

End CharacterMap.

(** ** services/geminiService.ts: the four rewriters *)

Module Rewriters.
Import Regex GeminiService.

(** [result.replace(/^\[<echo>.*?\]\n*/, '')]: when the reply starts with
    an opening bracket and [echo], and a closing bracket follows on the
    same line, the text up to the first such bracket and the line feeds
    behind it are dropped. *)
Definition stripEcho (echo result : jsstring) : jsstring :=
  match strip_prefix (91%N :: echo) result with
  | Some r =>
      match lazy_until (fun c => (c =? 93)%N) r with
      | Some (_, _, rest) => drop_while (fun c => (c =? 10)%N) rest
      | None => result
      end
  | None => result
  end.

(** [result.replace(/^\[<line>\]\n*/, '')]. *)
Definition stripLine (line result : jsstring) : jsstring :=
  match strip_prefix (91%N :: line ++ [93%N]) result with
  | Some rest => drop_while (fun c => (c =? 10)%N) rest
  | None => result
  end.

(** The literal of the pattern of [generateContinuation]. *)
Definition continuationEcho : jsstring :=
  [26032; 12375; 12356; 23637; 38283; 12398; 25991; 31456; 12398; 12415;
   12434; 20986; 21147]%N.

(** The literal of the pattern of [modifyEntireText] and of
    [modifyStoryWithCharacters]. *)
Definition rewriteEcho : jsstring :=
  [26032; 12375; 12356; 29289; 35486; 25991; 12398; 12415; 12434; 20986;
   21147]%N.

(** The literal of the pattern of [generateStoryFromFlowchart]. *)
Definition storyLine : jsstring :=
  [29983; 25104; 12373; 12428; 12383; 29289; 35486; 25991; 12398; 12415;
   12434; 20986; 21147; 12375; 12390; 12367; 12384; 12373; 12356]%N.

(** The last line of each prompt, which names the output format. *)
Definition continuationFormat : jsstring :=
  [91; 26032; 12375; 12356; 23637; 38283; 12398; 25991; 31456; 12398; 12415;
   12434; 20986; 21147; 12290; 22793; 26356; 38283; 22987; 20301; 32622;
   12363; 12425; 29289; 35486; 12398; 26368; 24460; 12414; 12391; 12434;
   29983; 25104; 12375; 12390; 12367; 12384; 12373; 12356; 12290; 93]%N.

Definition rewriteFormat : jsstring :=
  [91; 26032; 12375; 12356; 29289; 35486; 25991; 12398; 12415; 12434; 20986;
   21147; 12375; 12390; 12367; 12384; 12373; 12356; 12290; 93]%N.

Definition storyFormat : jsstring :=
  [91; 29983; 25104; 12373; 12428; 12383; 29289; 35486; 25991; 12398; 12415;
   12434; 20986; 21147; 12375; 12390; 12367; 12384; 12373; 12356; 93]%N.

(** What each rewriter does with the reply to its request. *)
Definition generateContinuation (r : reply) : Control.promise jsstring :=
  Control.settle
    (result <- replyText r ;;
     Control.Ok (trim (stripEcho continuationEcho result))).

Definition modifyEntireText (r : reply) : Control.promise jsstring :=
  Control.settle
    (result <- replyText r ;;
     Control.Ok (trim (stripEcho rewriteEcho result))).

Definition modifyStoryWithCharacters (r : reply) : Control.promise jsstring :=
  Control.settle
    (result <- replyText r ;;
     Control.Ok (trim (stripEcho rewriteEcho result))).

Definition generateStoryFromFlowchart (r : reply) : Control.promise jsstring :=
  Control.settle
    (result <- replyText r ;;
     Control.Ok (trim (stripLine storyLine result))).

End Rewriters.

(** ** components/TextEditor.tsx: the selection *)

Module Selecting.
Import Regex.

(** [s.substring(a, b)]: both indices are clamped to the string and
    swapped when the first is the larger. *)
Definition substring (s : jsstring) (a b : Z) : jsstring :=
  let clamp i := Z.max 0 (Z.min i (len s)) in
  let lo := Z.min (clamp a) (clamp b) in
  let hi := Z.max (clamp a) (clamp b) in
  take (Z.to_nat (hi - lo)) (drop (Z.to_nat lo) s).

(** What the handler reads of the text area. *)
Record textarea := mkTextarea
  { value : jsstring; selectionStart : Z; selectionEnd : Z }.

(** The body of the timer of [handleTextSelection]: the next value of
    [selectedText]; [ref] is [textAreaRef.current]. *)
Definition handleTextSelection (ref : option textarea)
    (selectedText : option TextSelection.t) : option TextSelection.t :=
  match ref with
  | None => selectedText
  | Some ta =>
      let start := selectionStart ta in
      let end_ := selectionEnd ta in
      if (start =? end_)%Z then None
      else
        let selectedContent := trim (substring (value ta) start end_) in
        if bool_decide (selectedContent = []) then None
        else
          Some {| TextSelection.text := selectedContent;
                  TextSelection.before := substring (value ta) 0 start;
                  TextSelection.after :=
                    substring (value ta) end_ (len (value ta));
                  TextSelection.fullText := value ta |}
  end.

End Selecting.

(** ** components/VersionMap.tsx: the layout of one flowchart *)

Module Layout.

(** A number as the layout meets it: an integer, [NaN], or the
    [-Infinity] that [Math.max()] gives for no argument. *)
Inductive num :=
| Int (n : Z)
| NaN
| NegInfinity.

Global Instance num_eq_dec : EqDecision num.
Proof. solve_decision. Defined.

(** [Math.max(a, b)]. *)
Definition max2 (a b : num) : num :=
  match a, b with
  | NaN, _ => NaN
  | _, NaN => NaN
  | NegInfinity, x => x
  | x, NegInfinity => x
  | Int m, Int n => Int (Z.max m n)
  end.

(** [Math.max(...vals)]. *)
Definition math_max (vals : list num) : num := foldr max2 NegInfinity vals.

(** An argument of [Math.max] that may be [undefined]. *)
Definition of_value (v : option num) : num := default NaN v.

(** [a + k] and [a * k] for a positive integer [k]. *)
Definition add (a : num) (k : Z) : num :=
  match a with Int n => Int (n + k) | NaN => NaN | NegInfinity => NegInfinity end.

Definition mul (a : num) (k : Z) : num :=
  match a with Int n => Int (n * k) | NaN => NaN | NegInfinity => NegInfinity end.

(** [dependencies], [levels] and [positions] are plain objects that the
    function uses as maps from ids. A plain object inherits the members
    of [Object.prototype]: reading one of their names finds the
    inherited member where the object has no property of its own, where
    a map has nothing, and an assignment to [__proto__] creates no
    property. An object also lists its array indices before its other
    keys. The maps and the entry list below are the properties that the
    objects own, in the order of their creation: they are the objects of
    the source for the ids that are ordinary keys, none of the names of
    [Object.prototype] and no string of digits. For other ids they do
    not tell what the source does; the statements on the layout that
    depend on it assume [ordinaryKeys]. *)
Definition prototypeNames : list jsstring :=
  [ utf16 "constructor"; utf16 "hasOwnProperty"; utf16 "isPrototypeOf";
    utf16 "propertyIsEnumerable"; utf16 "toLocaleString"; utf16 "toString";
    utf16 "valueOf"; utf16 "__proto__"; utf16 "__defineGetter__";
    utf16 "__defineSetter__"; utf16 "__lookupGetter__"; utf16 "__lookupSetter__" ].

Definition digits (k : jsstring) : bool :=
  forallb (fun c => (48 <=? c)%N && (c <=? 57)%N) k.

Definition ordinaryKey (k : jsstring) : bool :=
  negb (bool_decide (k ∈ prototypeNames)) && negb (digits k).

(** The strings that a call uses as keys: the ids of the nodes and the
    endpoints of the edges. *)
Definition keys (nodes : list FlowNode.t) (edges : list FlowEdge.t) : list jsstring :=
  (FlowNode.id <$> nodes) ++ (FlowEdge.source <$> edges) ++ (FlowEdge.target <$> edges).

Definition ordinaryKeys (nodes : list FlowNode.t) (edges : list FlowEdge.t) : Prop :=
  Forall (fun k => ordinaryKey k = true) (keys nodes edges).

(** [dependencies] maps each node id to the set of the sources of its
    incoming edges, a list in the order of insertion. [set.add(x)]: *)
Definition set_add (x : jsstring) (set : list jsstring) : list jsstring :=
  if bool_decide (x ∈ set) then set else set ++ [x].

Definition initDependencies (nodes : list FlowNode.t)
  : gmap jsstring (list jsstring) :=
  foldl (fun d node => <[FlowNode.id node := []]> d) ∅ nodes.

(** [dependencies[edge.target].add(edge.source)]: a [TypeError] when the
    target, an ordinary key, is not the id of a node. *)
Definition addDependency (d : gmap jsstring (list jsstring)) (edge : FlowEdge.t)
  : Control.exn (gmap jsstring (list jsstring)) :=
  match d !! FlowEdge.target edge with
  | Some set =>
      Control.Ok (<[FlowEdge.target edge := set_add (FlowEdge.source edge) set]> d)
  | None => Control.Throw
  end.

Fixpoint addDependencies (d : gmap jsstring (list jsstring))
    (edges : list FlowEdge.t)
  : Control.exn (gmap jsstring (list jsstring)) :=
  match edges with
  | [] => Control.Ok d
  | edge :: edges' =>
      d' <- addDependency d edge ;;
      addDependencies d' edges'
  end.

(** [levels]: the entries of the object in the order of their first
    assignment, as [Object.entries] lists ordinary keys; [visited]: the
    set. *)
Record state := mkState
  { visited : gset jsstring;
    levels : list (jsstring * num) }.

(** [levels[nodeId]] for an ordinary key. *)
Definition read (l : list (jsstring * num)) (nodeId : jsstring) : option num :=
  snd <$> JS.find (fun entry => streq entry.1 nodeId) l.

(** [levels[nodeId] = v] for an ordinary key. *)
Definition assign (nodeId : jsstring) (v : num) (l : list (jsstring * num))
  : list (jsstring * num) :=
  match read l nodeId with
  | Some _ => (fun entry => if streq entry.1 nodeId then (nodeId, v) else entry) <$> l
  | None => l ++ [(nodeId, v)]
  end.

(** The outcome of a call that may recurse: [None] when the depth
    [fuel] does not suffice, else the value returned with the state
    left behind, or a [TypeError]. *)
Definition result (A : Type) := option (Control.exn (A * state)).

(** [Array.from(deps).map(dep => calculateLevel(dep))]. *)
Fixpoint mapLevels (f : jsstring -> state -> result (option num))
    (deps : list jsstring) (st : state) : result (list (option num)) :=
  match deps with
  | [] => Some (Control.Ok ([], st))
  | dep :: deps' =>
      match f dep st with
      | None => None
      | Some Control.Throw => Some Control.Throw
      | Some (Control.Ok (v, st1)) =>
          match mapLevels f deps' st1 with
          | None => None
          | Some Control.Throw => Some Control.Throw
          | Some (Control.Ok (vs, st2)) => Some (Control.Ok (v :: vs, st2))
          end
      end
  end.

(** [calculateLevel]. Reading [deps.size] throws when [nodeId], an
    ordinary key, is not the id of a node. *)
Fixpoint calculateLevel (fuel : nat)
    (dependencies : gmap jsstring (list jsstring))
    (nodeId : jsstring) (st : state) : result (option num) :=
  match fuel with
  | O => None
  | S fuel' =>
      if bool_decide (nodeId ∈ visited st) then
        Some (Control.Ok (read (levels st) nodeId, st))
      else
        let st1 := mkState ({[nodeId]} ∪ visited st) (levels st) in
        match dependencies !! nodeId with
        | None => Some Control.Throw
        | Some [] =>
            let l := assign nodeId (Int 0) (levels st1) in
            Some (Control.Ok (read l nodeId, mkState (visited st1) l))
        | Some deps =>
            match mapLevels (calculateLevel fuel' dependencies) deps st1 with
            | None => None
            | Some Control.Throw => Some Control.Throw
            | Some (Control.Ok (vals, st2)) =>
                let maxDependencyLevel := math_max (of_value <$> vals) in
                let l := assign nodeId (add maxDependencyLevel 1) (levels st2) in
                Some (Control.Ok (read l nodeId, mkState (visited st2) l))
            end
        end
  end.

(** [nodes.forEach(node => { if (!visited.has(node.id)) calculateLevel(node.id) })]. *)
Fixpoint visitAll (fuel : nat)
    (dependencies : gmap jsstring (list jsstring))
    (nodes : list FlowNode.t) (st : state) : result unit :=
  match nodes with
  | [] => Some (Control.Ok (tt, st))
  | node :: nodes' =>
      if bool_decide (FlowNode.id node ∈ visited st) then
        visitAll fuel dependencies nodes' st
      else
        match calculateLevel fuel dependencies (FlowNode.id node) st with
        | None => None
        | Some Control.Throw => Some Control.Throw
        | Some (Control.Ok (_, st1)) => visitAll fuel dependencies nodes' st1
        end
  end.

(** [levelGroups[level]]: the ids with that level, in the order of the
    entries of [levels]. *)
Definition levelGroup (l : list (jsstring * num)) (level : num) : list jsstring :=
  fst <$> filter (fun entry => entry.2 = level) l.

(** The index of an id in its group. *)
Fixpoint indexOf (nodeId : jsstring) (group : list jsstring) : option Z :=
  match group with
  | [] => None
  | k :: group' =>
      if streq k nodeId then Some 0
      else match indexOf nodeId group' with
           | Some i => Some (i + 1)
           | None => None
           end
  end.

Record position := mkPosition { x : Z; y : num; highlight : bool }.

(** One entry of [positions]. With [nodeWidth + 40 = 190] the
    horizontal offset [(index - (n - 1) / 2) * 190] is the integer
    [(2 * index - (n - 1)) * 95]. *)
Definition positionOf (nodes : list FlowNode.t) (baseX : Z)
    (divergencePoint : option jsstring) (l : list (jsstring * num))
    (entry : jsstring * num) : option (jsstring * position) :=
  let nodeIds := levelGroup l entry.2 in
  match indexOf entry.1 nodeIds with
  | Some index =>
      Some (entry.1,
            {| x := baseX + (2 * index - (len nodeIds - 1)) * 95;
               y := mul entry.2 100;
               highlight :=
                 match JS.find (fun n => streq (FlowNode.id n) entry.1) nodes with
                 | Some node => bool_decide (Some (FlowNode.label node) = divergencePoint)
                 | None => false
                 end |})
  | None => None
  end.

Record t := mk
  { positions : gmap jsstring position;
    maxLevel : num;
    height : num;
    centerX : Z }.

(** [calculateFlowchartLayout]. The recursion of [calculateLevel] is run
    with a depth of one more than the number of ids. *)
Definition calculateFlowchartLayout (nodes : list FlowNode.t)
    (edges : list FlowEdge.t) (baseX : Z) (divergencePoint : option jsstring)
  : option (Control.exn t) :=
  match addDependencies (initDependencies nodes) edges with
  | Control.Throw => Some Control.Throw
  | Control.Ok dependencies =>
      match visitAll (S (size (dom dependencies))) dependencies nodes
              (mkState ∅ []) with
      | None => None
      | Some Control.Throw => Some Control.Throw
      | Some (Control.Ok (_, st)) =>
          let l := levels st in
          let maxLevel := math_max (snd <$> l) in
          Some (Control.Ok
                  {| positions :=
                       list_to_map
                         (omap (positionOf nodes baseX divergencePoint l) l);
                     maxLevel := maxLevel;
                     height := mul (add maxLevel 1) 100;
                     centerX := baseX |})
      end
  end.

End Layout.

(** * Properties *)

(** ** Lists and strings *)

Module BasicFacts.

Lemma filter_absent {A B} `{EqDecision B} (f : A -> B) (l : list A) (y : B) :
  y ∉ f <$> l -> filter (fun a => f a = y) l = [].
Proof.
  induction l as [|a l IH]; simpl; [done|].
  rewrite not_elem_of_cons. intros [Hne Hni].
  rewrite filter_cons_False by congruence. by apply IH.
Qed.

Lemma count_unique {A B} `{EqDecision B} (f : A -> B) (l : list A) (y : B) :
  NoDup (f <$> l) -> y ∈ f <$> l ->
  length (filter (fun a => f a = y) l) = 1%nat.
Proof.
  induction l as [|a l IH]; simpl.
  - intros _ Hin. by apply elem_of_nil in Hin.
  - intros Hnd Hin. apply NoDup_cons in Hnd as [Hna Hnd].
    destruct (decide (f a = y)) as [<-|Hne].
    + rewrite filter_cons_True by done. simpl.
      by rewrite filter_absent.
    + rewrite filter_cons_False by done. apply IH; [done|].
      apply elem_of_cons in Hin as [?|?]; [congruence|done].
Qed.

Lemma utf16_inj : Inj (=) (=) utf16.
Proof.
  intros a b Hab. unfold utf16 in Hab.
  assert (Hn : Inj (=) (=) (fun c : ascii => N_of_ascii c)).
  { intros x y Hxy. rewrite <- (ascii_N_embedding x), <- (ascii_N_embedding y).
    by rewrite Hxy. }
  apply (list_fmap_eq_inj _ Hn) in Hab.
  rewrite <- (string_of_list_ascii_of_string a),
          <- (string_of_list_ascii_of_string b). by rewrite Hab.
Qed.

Lemma of_int_inj : Inj (=) (=) of_int.
Proof.
  intros a b Hab. unfold of_int in Hab. apply utf16_inj in Hab.
  by apply (inj pretty) in Hab.
Qed.

(** [`${n}`] is made of digits when [n] is not negative. *)
Definition is_digit (c : N) : bool := ((48 <=? c) && (c <=? 57))%N.

Definition digits (s : string) : Prop :=
  Forall (fun c => is_digit c = true) (utf16 s).

Lemma pretty_N_go_digits x s : digits s -> digits (pretty_N_go x s).
Proof.
  revert s. induction (N.lt_wf_0 x) as [x _ IH]; intros s Hs.
  destruct (decide (x = 0%N)) as [->|Hx]; [by rewrite pretty_N_go_0|].
  rewrite pretty_N_go_step by lia. apply IH; [apply N.div_lt; lia|].
  unfold digits, utf16. cbn [list_ascii_of_string fmap list_fmap].
  constructor; [|exact Hs].
  unfold pretty_N_char. by repeat case_match.
Qed.

Lemma of_int_digits n :
  0 <= n -> Forall (fun c => is_digit c = true) (of_int n).
Proof.
  intros Hn. unfold of_int, pretty, pretty_Z. destruct n as [|p|p]; [|
|lia].
  - by repeat constructor.
  - unfold pretty, pretty_positive, pretty, pretty_N.
    rewrite decide_False by done. apply pretty_N_go_digits. constructor.
Qed.

Lemma split_at_dash (d1 d2 e1 e2 : jsstring) :
  Forall (fun c => is_digit c = true) d1 ->
  Forall (fun c => is_digit c = true) d2 ->
  d1 ++ 45%N :: e1 = d2 ++ 45%N :: e2 -> d1 = d2 /\ e1 = e2.
Proof.
  intros H1. revert d2. induction H1 as [|c d1 Hc _ IH]; intros d2 H2 Heq.
  - destruct H2 as [|c d2 Hc _]; simpl in Heq.
    + by injection Heq as ->.
    + injection Heq as <- _. done.
  - destruct H2 as [|c' d2 Hc' H2]; simpl in Heq.
    + injection Heq as -> _. done.
    + injection Heq as -> Heq. by destruct (IH d2 H2 Heq) as [-> ->].
Qed.

Lemma omap_cons {A B} (f : A -> option B) (x : A) (l : list A) :
  omap f (x :: l) =
  match f x with
  | Some y => y :: omap f l
  | None => omap f l
  end.
Proof. reflexivity. Qed.

End BasicFacts.

(** ** The version store *)

Module StoreFacts.
Import App BasicFacts.

Definition ids (vs : list StoryVersion.t) : list jsstring :=
  StoryVersion.id <$> vs.

Definition parents (vs : list StoryVersion.t) : list (option jsstring) :=
  StoryVersion.parentVersionId <$> vs.

(** The invariant of the data model, as the specification words it. *)
Definition count_roots (vs : list StoryVersion.t) : nat :=
  length (filter (fun p => p = None) (parents vs)).

Definition parents_present (vs : list StoryVersion.t) : Prop :=
  forall p, Some p ∈ parents vs -> p ∈ ids vs.

Definition store_invariant (vs : list StoryVersion.t) : Prop :=
  count_roots vs = 1%nat /\ parents_present vs.

(** What the handlers keep: the root, when there is one, is the first
    version and the only one without a parent. *)
Definition root_first (vs : list StoryVersion.t) : Prop :=
  vs = [] \/ exists rest, parents vs = None :: rest /\ Forall is_Some rest.

(** The version at [index] is the parent of no other version: no other
    version of the list has its id as [parentVersionId]. *)
Definition childless (vs : list StoryVersion.t) (index : Z) : bool :=
  match at_index vs index with
  | Some v =>
      forallb
        (fun other =>
           negb (bool_decide (StoryVersion.parentVersionId other
                              = Some (StoryVersion.id v))))
        (delete (Z.to_nat index) vs)
  | None => true
  end.

(** An action that cuts no parent link in [s]: any action but a
    deletion, the deletion of the first version, which the handler
    refuses, and the deletion of a version that is the parent of no
    other. *)
Definition harmless (s : t) (a : action) : bool :=
  match a with
  | VersionDelete index => bool_decide (index = 0) || childless (versions s) index
  | _ => true
  end.

(** Every action of [tr], run from [s], is harmless in the state it is
    taken in. *)
Fixpoint harmless_run (s : t) (tr : list action) : bool :=
  match tr with
  | [] => true
  | a :: tr' =>
      harmless s a &&
      match exec s a with
      | Some s' => harmless_run s' tr'
      | None => true
      end
  end.

Lemma filteri_from_all {A} (l : list A) (i d : Z) :
  d < i -> filteri_from (fun _ k => negb (k =? d)) i l = l.
Proof.
  revert i. induction l as [|x l IH]; intros i Hd; simpl; [done|].
  destruct (Z.eqb_spec i d) as [->|_]; [lia|]. simpl. f_equal. apply IH. lia.
Qed.

Lemma filteri_from_delete {A} (l : list A) (i d : Z) :
  i <= d ->
  filteri_from (fun _ k => negb (k =? d)) i l = delete (Z.to_nat (d - i)) l.
Proof.
  revert i. induction l as [|x l IH]; intros i Hd; simpl; [done|].
  destruct (Z.eqb_spec i d) as [->|Hne]; simpl.
  - rewrite Z.sub_diag. simpl. apply filteri_from_all. lia.
  - replace (Z.to_nat (d - i)) with (S (Z.to_nat (d - (i + 1)))) by lia.
    simpl. f_equal. apply IH. lia.
Qed.

Lemma filteri_delete {A} (l : list A) (d : Z) :
  0 <= d -> filteri (fun _ k => negb (k =? d)) l = delete (Z.to_nat d) l.
Proof.
  intros Hd. unfold filteri. rewrite filteri_from_delete by done.
  by rewrite Z.sub_0_r.
Qed.

Lemma filteri_negative {A} (l : list A) (d : Z) :
  d < 0 -> filteri (fun _ k => negb (k =? d)) l = l.
Proof. intros Hd. by apply filteri_from_all. Qed.

Lemma at_index_Some {A} (l : list A) (i : Z) (x : A) :
  at_index l i = Some x -> 0 <= i < len l /\ l !! Z.to_nat i = Some x.
Proof.
  unfold at_index, len. case_decide; [|done]. intros Hx.
  split; [|done]. apply lookup_lt_Some in Hx. lia.
Qed.

Lemma at_index_in_range {A} (l : list A) (i : Z) :
  0 <= i < len l -> exists x, at_index l i = Some x.
Proof.
  unfold at_index, len. intros Hi. case_decide; [|lia].
  apply lookup_lt_is_Some. lia.
Qed.

(** All the ways a handler changes [versions]. *)
Inductive versions_change (vs : list StoryVersion.t) : list StoryVersion.t -> Prop :=
| vc_same : versions_change vs vs
| vc_root v :
    vs = [] -> StoryVersion.parentVersionId v = None ->
    StoryVersion.id v = utf16 "v1" ->
    versions_change vs [v]
| vc_append active v :
    active ∈ vs ->
    StoryVersion.parentVersionId v = Some (StoryVersion.id active) ->
    StoryVersion.id v = utf16 "v" ++ of_int (len vs + 1) ->
    versions_change vs (vs ++ [v])
| vc_update i v v' :
    vs !! i = Some v ->
    StoryVersion.id v' = StoryVersion.id v ->
    StoryVersion.parentVersionId v' = StoryVersion.parentVersionId v ->
    versions_change vs (<[i := v']> vs).

Definition versions_step (a : action) (vs vs' : list StoryVersion.t) : Prop :=
  versions_change vs vs' \/
  (is_delete a = true /\ exists d, (0 < d)%nat /\ vs' = delete d vs).

Lemma appendVersion_change s newText description a a' now :
  versions_change (versions s)
    (versions (appendVersion s newText description a a' now)).
Proof.
  unfold appendVersion. destruct a as [a|]; [|constructor].
  destruct (at_index _ _) as [active|] eqn:Hact; [|constructor].
  destruct a' as [a'|]; simpl; [|constructor].
  apply at_index_Some in Hact as [_ Hact].
  eapply vc_append; [|done..]. by eapply list_elem_of_lookup_2.
Qed.

Lemma deleteCompare_versions s s' d :
  versions (deleteCompare s s' d) = versions s'.
Proof.
  unfold deleteCompare. destruct (_ && _); [done|].
  destruct (compareVersionIndex s); [|done]. by case_decide.
Qed.

Lemma handleVersionDelete_versions s d :
  versions (state_of (handleVersionDelete s d)) =
  if decide (d = 0) then versions s
  else filteri (fun _ k => negb (k =? d)) (versions s).
Proof.
  unfold handleVersionDelete. case_decide; [done|].
  case_decide.
  - unfold handleVersionChange. destruct (at_index _ _); simpl; [|done].
    by rewrite deleteCompare_versions.
  - case_decide; simpl; by rewrite deleteCompare_versions.
Qed.

Lemma exec_versions_step s a s' :
  exec s a = Some s' -> versions_step a (versions s) (versions s').
Proof.
  unfold versions_step. destruct a; simpl.
  - intros [= <-]. left. unfold handleTextChange.
    case_decide; [constructor|]. destruct analysis; [|constructor].
    case_decide as Hlen; [|constructor]. simpl.
    apply vc_root; [|done..]. unfold len in Hlen.
    destruct (versions s); [done|simpl in Hlen; lia].
  - intros [= <-]. left. unfold handleModifyText.
    destruct continuation; [apply appendVersion_change|constructor].
  - intros [= <-]. left. unfold handleModifyEntireText.
    destruct rewritten; [apply appendVersion_change|constructor].
  - intros [= <-]. left. unfold handleCharactersEdit.
    destruct rewritten; [apply appendVersion_change|constructor].
  - intros [= <-]. left. unfold handleGenerateStoryFromFlowchart.
    destruct rewritten; [apply appendVersion_change|constructor].
  - intros [= <-]. left. unfold handleReanalyze.
    destruct analysis; [|constructor].
    destruct (at_index _ _) as [v|] eqn:Hv; [|constructor]. simpl.
    apply at_index_Some in Hv as [_ Hv]. by eapply vc_update.
  - destruct (tab_exists _ _); [|done]. intros [= <-]. left.
    unfold handleVersionChange. destruct (at_index _ _); constructor.
  - case_decide; [|done]. intros [= <-]. left. unfold toggleCompareMode.
    destruct (isCompareMode s); constructor.
  - destruct (tab_exists _ _) eqn:Htab; [|done]. intros [= <-].
    rewrite handleVersionDelete_versions. case_decide; [left; constructor|].
    apply bool_decide_eq_true in Htab. right. split; [done|].
    rewrite filteri_delete by lia. exists (Z.to_nat index). split; [lia|done].
  - destruct (tab_exists _ _); [|done].
    destruct (at_index _ _); [|done]. intros [= <-]. left.
    unfold handleVersionNameEditStart. case_decide; constructor.
  - intros [= <-]. left. unfold handleVersionNameInput.
    destruct (editVersionDialog s); constructor.
  - unfold handleVersionNameSave. destruct (editVersionDialog s) as [d|].
    + destruct (at_index _ _) as [v|] eqn:Hv; [|done]. intros [= <-]. simpl.
      apply at_index_Some in Hv as [_ Hv]. left. by eapply vc_update.
    + intros [= <-]. left. constructor.
  - intros [= <-]. left. constructor.
Qed.

Lemma update_ids vs i v v' :
  vs !! i = Some v -> StoryVersion.id v' = StoryVersion.id v ->
  ids (<[i:=v']> vs) = ids vs.
Proof.
  intros Hv Hid. unfold ids. rewrite list_fmap_insert. apply list_insert_id.
  rewrite list_lookup_fmap, Hv. simpl. congruence.
Qed.

Lemma update_parents vs i v v' :
  vs !! i = Some v ->
  StoryVersion.parentVersionId v' = StoryVersion.parentVersionId v ->
  parents (<[i:=v']> vs) = parents vs.
Proof.
  intros Hv Hid. unfold parents. rewrite list_fmap_insert. apply list_insert_id.
  rewrite list_lookup_fmap, Hv. simpl. congruence.
Qed.

Lemma root_first_change vs vs' :
  versions_change vs vs' -> root_first vs -> root_first vs'.
Proof.
  intros Hc Hr. destruct Hc as [|v -> Hp _|active v Hact Hp _|i v v' Hv Hid Hp].
  - done.
  - right. exists []. split; [|constructor]. unfold parents. simpl. by rewrite Hp.
  - destruct Hr as [->|(rest & Hrest & Hall)]; [by apply elem_of_nil in Hact|].
    right. exists (rest ++ [Some (StoryVersion.id active)]). split.
    + unfold parents in *. rewrite fmap_app, Hrest. simpl. by rewrite Hp.
    + apply Forall_app. split; [done|]. constructor; [by eexists|constructor].
  - destruct Hr as [->|(rest & Hrest & Hall)]; [done|].
    right. exists rest. split; [|done]. by erewrite update_parents.
Qed.

Lemma root_first_delete vs d :
  (0 < d)%nat -> root_first vs -> root_first (delete d vs).
Proof.
  intros Hd [->|(rest & Hrest & Hall)]; [by left|].
  right. destruct d as [|d]; [lia|]. exists (delete d rest). split.
  - unfold parents in *. destruct vs as [|r vs]; [done|]. simpl in *.
    injection Hrest as -> <-. f_equal. clear. revert d.
    induction vs as [|x vs IH]; intros [|d]; simpl; try done. f_equal. apply IH.
  - by apply Forall_delete.
Qed.

Lemma parents_present_change vs vs' :
  versions_change vs vs' -> parents_present vs -> parents_present vs'.
Proof.
  unfold parents_present.
  intros Hc Hpp. destruct Hc as [|v -> Hp _|active v Hact Hp _|i v v' Hv Hid Hp].
  - done.
  - intros p. unfold parents. simpl. rewrite Hp. intros Hin.
    apply list_elem_of_singleton in Hin. done.
  - intros p. unfold parents, ids in *. rewrite !fmap_app. simpl. rewrite Hp.
    rewrite !elem_of_app, !list_elem_of_singleton. intros [Hin|[= ->]].
    + left. by apply Hpp.
    + left. by apply list_elem_of_fmap_2.
  - intros p. erewrite update_parents, update_ids by done. apply Hpp.
Qed.

Lemma root_first_count vs :
  root_first vs -> vs <> [] -> count_roots vs = 1%nat.
Proof.
  intros [->|(rest & Hrest & Hall)] Hne; [done|].
  unfold count_roots. rewrite Hrest. rewrite filter_cons_True by done.
  simpl. f_equal. clear Hrest. induction Hall as [|x rest [y ->] _ IH]; [done|].
  by rewrite filter_cons_False.
Qed.

Lemma execs_inv (P : t -> Prop) (Q : action -> Prop) :
  (forall s a s', Q a -> P s -> exec s a = Some s' -> P s') ->
  forall tr s s', Forall Q tr -> P s -> execs s tr = Some s' -> P s'.
Proof.
  intros Hstep tr. induction tr as [|a tr IH]; intros s s' Hq Hp; simpl.
  - by intros [= <-].
  - destruct (exec s a) as [s1|] eqn:Hex; [|done].
    inversion Hq; subst. eauto.
Qed.

Lemma reachable_root_first tr s :
  execs init tr = Some s -> root_first (versions s).
Proof.
  apply (execs_inv (fun s => root_first (versions s)) (fun _ => True)).
  - intros s0 a s1 _ Hr Hex. apply exec_versions_step in Hex as [Hc|(_ & d & Hd & ->)].
    + by eapply root_first_change.
    + by apply root_first_delete.
  - by apply Forall_true.
  - by left.
Qed.

Lemma delete_free_parents_present tr s :
  Forall (fun a => is_delete a = false) tr ->
  execs init tr = Some s -> parents_present (versions s).
Proof.
  intros Hnd.
  apply (execs_inv (fun s => parents_present (versions s))
           (fun a => is_delete a = false)); [|done|].
  - intros s0 a s1 Ha Hr Hex.
    apply exec_versions_step in Hex as [Hc|(Hdel & _)]; [|congruence].
    by eapply parents_present_change.
  - intros p Hp. by apply elem_of_nil in Hp.
Qed.

Lemma delete_free_harmless tr : forall s,
  Forall (fun a => is_delete a = false) tr -> harmless_run s tr = true.
Proof.
  induction tr as [|a tr IH]; intros s Hnd; [done|].
  inversion Hnd as [|? ? Ha Htr]; subst. simpl.
  apply andb_true_iff. split; [by destruct a|].
  destruct (exec s a); [by apply IH|done].
Qed.

(** What a deletion that the handler accepts does to the list. *)
Lemma exec_delete_versions s index s' :
  exec s (VersionDelete index) = Some s' ->
  0 <= index < len (versions s) /\
  versions s' = if decide (index = 0) then versions s
                else delete (Z.to_nat index) (versions s).
Proof.
  simpl. destruct (tab_exists s index) eqn:Htab; [|done]. intros [= <-].
  apply bool_decide_eq_true in Htab. split; [done|].
  rewrite handleVersionDelete_versions. case_decide; [done|].
  by rewrite filteri_delete by lia.
Qed.

Lemma elem_of_delete_other {A} (l : list A) (d j : nat) (x : A) :
  l !! j = Some x -> j <> d -> x ∈ delete d l.
Proof.
  intros Hx Hne. destruct (decide (j < d)%nat) as [Hlt|Hge].
  - apply (list_elem_of_lookup_2 _ j). by rewrite list_lookup_delete_lt.
  - destruct j as [|j]; [lia|]. apply (list_elem_of_lookup_2 _ j).
    rewrite list_lookup_delete_ge by lia. done.
Qed.

Lemma elem_of_delete_inv {A} (l : list A) (d : nat) (x : A) :
  x ∈ delete d l -> x ∈ l.
Proof. intros Hx. eapply elem_of_sublist; [done|apply sublist_delete]. Qed.

(** Deleting a version that is the parent of no other keeps every parent
    id among the ids. *)
Lemma parents_present_delete vs index :
  0 <= index < len vs -> childless vs index = true ->
  parents_present vs -> parents_present (delete (Z.to_nat index) vs).
Proof.
  intros Hin Hchild Hpp p Hp. unfold childless in Hchild.
  destruct (at_index_in_range vs index Hin) as [v Hv]. rewrite Hv in Hchild.
  apply at_index_Some in Hv as [_ Hv].
  rewrite forallb_forall in Hchild.
  apply list_elem_of_fmap in Hp as (child & Hparent & Hc).
  assert (Hne : p <> StoryVersion.id v).
  { intros ->. apply list_elem_of_In, Hchild in Hc.
    apply negb_true_iff, bool_decide_eq_false in Hc. by apply Hc. }
  assert (Hid : p ∈ ids vs).
  { apply Hpp. apply list_elem_of_fmap. exists child. split; [done|].
    by eapply elem_of_delete_inv. }
  apply list_elem_of_fmap in Hid as (w & -> & Hw).
  apply list_elem_of_lookup_1 in Hw as [j Hj].
  apply list_elem_of_fmap. exists w. split; [done|].
  apply (elem_of_delete_other _ _ j); [done|]. intros ->. congruence.
Qed.

Lemma harmless_run_parents_present tr : forall s s',
  parents_present (versions s) -> harmless_run s tr = true ->
  execs s tr = Some s' -> parents_present (versions s').
Proof.
  induction tr as [|a tr IH]; intros s s' Hpp Hrun; simpl.
  - by intros [= <-].
  - simpl in Hrun. apply andb_true_iff in Hrun as [Ha Hrun].
    destruct (exec s a) as [s1|] eqn:Hex; [|done].
    apply (IH s1 s'); [|done].
    destruct (is_delete a) eqn:Hdel.
    + destruct a; try done. simpl in Ha.
      apply exec_delete_versions in Hex as [Hin ->].
      case_decide; [done|]. apply orb_true_iff in Ha as [Ha|Ha].
      * by apply bool_decide_eq_true in Ha.
      * by apply parents_present_delete.
    + apply exec_versions_step in Hex as [Hc|(Hd & _)]; [|congruence].
      by eapply parents_present_change.
Qed.

(** The active index denotes a version, and so does the compare index
    when one is set, which happens in compare mode only. *)
Definition selection_ok (s : t) : Prop :=
  0 <= currentVersionIndex s < len (versions s) /\
  match compareVersionIndex s with
  | Some c => 0 <= c < len (versions s) /\ isCompareMode s = true
  | None => True
  end.

Lemma deleteCompare_current s s' d :
  currentVersionIndex (deleteCompare s s' d) = currentVersionIndex s'.
Proof.
  unfold deleteCompare. destruct (_ && _); [done|].
  destruct (compareVersionIndex s); [|done]. by case_decide.
Qed.

Lemma handleVersionDelete_length s d :
  0 < d < len (versions s) ->
  len (versions (state_of (handleVersionDelete s d))) = len (versions s) - 1.
Proof.
  intros Hd. rewrite handleVersionDelete_versions. case_decide; [lia|].
  rewrite filteri_delete by lia. unfold len in *.
  rewrite length_delete; [lia|]. apply lookup_lt_is_Some. lia.
Qed.

Lemma handleVersionDelete_current s d :
  0 < d < len (versions s) ->
  currentVersionIndex (state_of (handleVersionDelete s d)) =
  if decide (currentVersionIndex s = d) then d - 1
  else if decide (currentVersionIndex s > d) then currentVersionIndex s - 1
  else currentVersionIndex s.
Proof.
  intros Hd. unfold handleVersionDelete. case_decide; [lia|].
  case_decide.
  - unfold handleVersionChange.
    destruct (at_index_in_range (versions s) (d - 1)) as [v ->]; [lia|].
    simpl. by rewrite deleteCompare_current.
  - case_decide; simpl; by rewrite deleteCompare_current.
Qed.

Lemma handleVersionDelete_compare s d :
  0 < d < len (versions s) ->
  (is_Some (compareVersionIndex s) -> isCompareMode s = true) ->
  let s' := state_of (handleVersionDelete s d) in
  compareVersionIndex s' =
    match compareVersionIndex s with
    | Some c =>
        if decide (c = d) then None
        else if decide (c > d) then Some (c - 1) else Some c
    | None => None
    end /\
  isCompareMode s' =
    match compareVersionIndex s with
    | Some c => if decide (c = d) then false else isCompareMode s
    | None => isCompareMode s
    end.
Proof.
  intros Hd Hmode. simpl.
  assert (Hdc : forall s1,
    compareVersionIndex s1 = compareVersionIndex s ->
    isCompareMode s1 = isCompareMode s ->
    compareVersionIndex (deleteCompare s s1 d) =
      match compareVersionIndex s with
      | Some c =>
          if decide (c = d) then None
          else if decide (c > d) then Some (c - 1) else Some c
      | None => None
      end /\
    isCompareMode (deleteCompare s s1 d) =
      match compareVersionIndex s with
      | Some c => if decide (c = d) then false else isCompareMode s
      | None => isCompareMode s
      end).
  { intros s1 Hc Hm. unfold deleteCompare.
    destruct (compareVersionIndex s) as [c|] eqn:Hcs.
    - rewrite Hmode by eauto. simpl.
      destruct (decide (c = d)) as [->|Hne].
      + by rewrite bool_decide_eq_true_2.
      + rewrite bool_decide_eq_false_2 by congruence.
        case_decide; simpl; rewrite ?Hc, ?Hm, ?Hmode by eauto; done.
    - rewrite andb_false_r. by rewrite Hc, Hm. }
  unfold handleVersionDelete. case_decide; [lia|].
  case_decide.
  - unfold handleVersionChange.
    destruct (at_index_in_range (versions s) (d - 1)) as [v ->]; [lia|].
    simpl. by apply Hdc.
  - case_decide; simpl; by apply Hdc.
Qed.

(** Before the root exists nothing is selected; afterwards the
    selection is valid. *)
Definition selection_inv (s : t) : Prop :=
  (versions s = [] /\ currentVersionIndex s = 0 /\ compareVersionIndex s = None)
  \/ selection_ok s.

Lemma len_app_one {A} (l : list A) (x : A) : len (l ++ [x]) = len l + 1.
Proof. unfold len. rewrite length_app. simpl. lia. Qed.

Lemma len_insert {A} (l : list A) (i : nat) (x : A) : len (<[i:=x]> l) = len l.
Proof. unfold len. by rewrite length_insert. Qed.

Lemma selection_ok_ext s s' :
  len (versions s') = len (versions s) ->
  currentVersionIndex s' = currentVersionIndex s ->
  compareVersionIndex s' = compareVersionIndex s ->
  isCompareMode s' = isCompareMode s ->
  selection_inv s -> selection_inv s'.
Proof.
  intros Hl Hc Hi Hm [(Hnil & Hc0 & Hi0)|Hok].
  - left. rewrite Hc, Hi. split; [|done].
    rewrite Hnil in Hl. unfold len in Hl. simpl in Hl.
    destruct (versions s'); [done|simpl in Hl; lia].
  - right. unfold selection_ok in *. by rewrite Hl, Hc, Hi, Hm.
Qed.

Lemma appendVersion_selection s newText description a a' now :
  selection_inv s -> selection_inv (appendVersion s newText description a a' now).
Proof.
  intros Hinv. unfold appendVersion. destruct a as [a|]; [|done].
  destruct (at_index _ _) as [active|] eqn:Hact; [|done].
  destruct a' as [a'|]; simpl; [|done].
  apply at_index_Some in Hact as [Hr _].
  destruct Hinv as [(Hnil & _)|[Hcur Hcmp]].
  { rewrite Hnil in Hr. unfold len in Hr. simpl in Hr. lia. }
  right. unfold selection_ok. simpl. rewrite len_app_one. split; [lia|].
  destruct (compareVersionIndex s); [|done]. split; [lia|tauto].
Qed.

Lemma exec_selection_inv s a s' :
  selection_inv s -> exec s a = Some s' -> selection_inv s'.
Proof.
  intros Hinv. destruct a; simpl.
  - intros [= <-]. unfold handleTextChange.
    case_decide; [by eapply selection_ok_ext|].
    destruct analysis; [|by eapply selection_ok_ext].
    case_decide as Hlen; [|by eapply selection_ok_ext].
    destruct Hinv as [(Hnil & Hc0 & Hi0)|[Hcur _]]; [|lia].
    right. unfold selection_ok. simpl. rewrite Hi0. unfold len. simpl. lia.
  - intros [= <-]. unfold handleModifyText.
    destruct continuation; [by apply appendVersion_selection|done].
  - intros [= <-]. unfold handleModifyEntireText.
    destruct rewritten; [by apply appendVersion_selection|done].
  - intros [= <-]. unfold handleCharactersEdit.
    destruct rewritten; [by apply appendVersion_selection|done].
  - intros [= <-]. unfold handleGenerateStoryFromFlowchart.
    destruct rewritten; [by apply appendVersion_selection|done].
  - intros [= <-]. unfold handleReanalyze. destruct analysis; [|done].
    destruct (at_index _ _); [|done].
    eapply selection_ok_ext; [| | | |done]; simpl; [apply len_insert|done..].
  - destruct (tab_exists _ _) eqn:Htab; [|done]. intros [= <-].
    apply bool_decide_eq_true in Htab. unfold handleVersionChange.
    destruct (at_index_in_range _ _ Htab) as [v ->]. simpl.
    destruct Hinv as [(Hnil & _)|[Hcur Hcmp]].
    { rewrite Hnil in Htab. unfold len in Htab. simpl in Htab. lia. }
    right. by split.
  - case_decide as Hlen; [|done]. intros [= <-].
    destruct Hinv as [(Hnil & _)|[Hcur Hcmp]].
    { rewrite Hnil in Hlen. unfold len in Hlen. simpl in Hlen. lia. }
    right. unfold toggleCompareMode, selection_ok.
    destruct (isCompareMode s); simpl; [done|].
    split; [done|]. split; [|done]. case_decide; lia.
  - destruct (tab_exists _ _) eqn:Htab; [|done]. intros [= <-].
    apply bool_decide_eq_true in Htab.
    destruct (decide (index = 0)) as [->|Hne].
    { unfold handleVersionDelete. by rewrite decide_True. }
    destruct Hinv as [(Hnil & _)|Hok].
    { rewrite Hnil in Htab. unfold len in Htab. simpl in Htab. lia. }
    right. assert (Hd : 0 < index < len (versions s)) by lia.
    pose proof (handleVersionDelete_length s index Hd) as Hlen.
    pose proof (handleVersionDelete_current s index Hd) as Hc.
    destruct Hok as [Hcur Hcmp].
    destruct (handleVersionDelete_compare s index Hd) as [Hci Hcm].
    { intros [c Hsome]. rewrite Hsome in Hcmp. tauto. }
    split.
    + rewrite Hc, Hlen. repeat case_decide; lia.
    + rewrite Hci, Hcm, Hlen. destruct (compareVersionIndex s) as [c|]; [|done].
      destruct Hcmp as [Hcr Hm]. repeat case_decide; try done; split; (lia || done).
  - destruct (tab_exists _ _); [|done].
    destruct (at_index _ _); [|done]. intros [= <-].
    unfold handleVersionNameEditStart. case_decide; [done|].
    by eapply selection_ok_ext.
  - intros [= <-]. unfold handleVersionNameInput.
    destruct (editVersionDialog s); [|done]. by eapply selection_ok_ext.
  - unfold handleVersionNameSave. destruct (editVersionDialog s) as [d|].
    + destruct (at_index _ _) as [v|] eqn:Hv; [|done]. intros [= <-].
      eapply selection_ok_ext; [| | | |done]; simpl; [apply len_insert|done..].
    + by intros [= <-].
  - intros [= <-]. by eapply selection_ok_ext.
Qed.

(** Every state the application reaches has a valid selection as soon as
    it has a version. *)
Lemma reachable_selection_ok s :
  reachable s -> versions s <> [] -> selection_ok s.
Proof.
  intros [tr Hex] Hne.
  assert (selection_inv s) as [(Hnil & _)|Hok]; [|done..].
  revert Hex. apply (execs_inv selection_inv (fun _ => True)).
  - intros s0 a s1 _. apply exec_selection_inv.
  - by apply Forall_true.
  - by left.
Qed.

Definition sample_analysis : GeminiResponse.t :=
  {| GeminiResponse.text := []; GeminiResponse.flowchart := None;
     GeminiResponse.characters := []; GeminiResponse.plot := [] |}.

Definition sample_text : jsstring := repeat 97%N 50.

Definition sample_prompt : jsstring := utf16 "make it rain".

(** Write the root, then rewrite the whole text twice: v1 <- v2 <- v3. *)
Definition chain_of_three : list action :=
  [ TextChange sample_text (Some sample_analysis) 0;
    ModifyEntireText sample_prompt (Some sample_text)
      (Some sample_analysis) (Some sample_analysis) 1;
    ModifyEntireText sample_prompt (Some sample_text)
      (Some sample_analysis) (Some sample_analysis) 2 ].

(** ... then delete the middle version. *)
Definition chain_then_delete : list action :=
  chain_of_three ++ [VersionDelete 1].

(** ... then rewrite once more. *)
Definition chain_delete_rewrite : list action :=
  chain_then_delete ++
  [ ModifyEntireText sample_prompt (Some sample_text)
      (Some sample_analysis) (Some sample_analysis) 3 ].

(** C1, as stated, fails: deleting the middle of the chain v1 <- v2 <- v3
    leaves v3 with the parent id v2, which no version of the store has. *)
Lemma dangling_parent_after_delete :
  exists s, execs init chain_then_delete = Some s /\
    ids (versions s) = [utf16 "v1"; utf16 "v3"] /\
    parents (versions s) = [None; Some (utf16 "v2")] /\
    ~ store_invariant (versions s).
Proof.
  eexists. split; [vm_compute; reflexivity|].
  split; [reflexivity|]. split; [reflexivity|].
  intros [_ Hpp]. specialize (Hpp (utf16 "v2")).
  assert (Hin : utf16 "v2" ∈ [utf16 "v1"; utf16 "v3"]).
  { apply Hpp. vm_compute. apply list_elem_of_further, list_elem_of_here. }
  repeat (apply elem_of_cons in Hin as [Hin|Hin]; [by vm_compute in Hin|]).
  by apply elem_of_nil in Hin.
Qed.

(** ... or ask for the deletion of the root, which is refused, and
    delete the last version, which has no child. *)
Definition chain_then_harmless_deletes : list action :=
  chain_of_three ++ [VersionDelete 0; VersionDelete 2].

(** C1, amended. Once the root exists, exactly one version has no parent,
    it is the first one, and every other version has one. Every parent
    id is the id of a version of the store as long as every deletion so
    far was harmless: of the first version, which is refused and changes
    nothing, or of a version that is the parent of no other; runs
    without a deletion are among these. A deletion removes at most the
    version at its index: every other version, its children included,
    stays in the store as it is, with the parent id it had. *)
Theorem store_root_and_parent_links (tr : list action) (s : t) :
  execs init tr = Some s ->
  versions s <> [] ->
  count_roots (versions s) = 1%nat /\
  (exists root rest,
     versions s = root :: rest /\
     StoryVersion.parentVersionId root = None /\
     Forall (fun v => is_Some (StoryVersion.parentVersionId v)) rest) /\
  (harmless_run init tr = true -> parents_present (versions s)) /\
  (Forall (fun a => is_delete a = false) tr -> harmless_run init tr = true) /\
  (forall index s',
     exec s (VersionDelete index) = Some s' ->
     versions s' = (if decide (index = 0) then versions s
                    else delete (Z.to_nat index) (versions s)) /\
     forall j other,
       j <> index -> at_index (versions s) j = Some other ->
       other ∈ versions s').
Proof.
  intros Hex Hne. pose proof (reachable_root_first _ _ Hex) as Hroot.
  split; [by apply root_first_count|]. split; [|split; [|split]].
  - destruct Hroot as [?|(rest & Hrest & Hall)]; [done|].
    destruct (versions s) as [|root vs]; [done|].
    unfold parents in Hrest. simpl in Hrest. injection Hrest as Hr <-.
    exists root, vs. split; [done|]. split; [done|].
    rewrite Forall_fmap in Hall. exact Hall.
  - intros Hrun. apply (harmless_run_parents_present tr init s); [|done..].
    intros p Hp. by apply elem_of_nil in Hp.
  - apply delete_free_harmless.
  - intros index s' Hdel. apply exec_delete_versions in Hdel as [Hin ->].
    split; [done|]. intros j other Hj Hother.
    apply at_index_Some in Hother as [Hjr Hother]. case_decide.
    + by eapply list_elem_of_lookup_2.
    + apply (elem_of_delete_other _ _ (Z.to_nat j)); [done|lia].
Qed.

Lemma store_root_and_parent_links_witness :
  exists s, execs init chain_then_harmless_deletes = Some s /\
    ids (versions s) = [utf16 "v1"; utf16 "v2"] /\
    store_invariant (versions s).
Proof.
  eexists. split; [vm_compute; reflexivity|]. split; [reflexivity|].
  edestruct (store_root_and_parent_links chain_then_harmless_deletes)
    as (Hc & _ & Hp & _);
    [vm_compute; reflexivity|done|].
  split; [exact Hc|]. apply Hp. vm_compute. reflexivity.
Defined.

(** Without a deletion the ids are v1, v2, ... in list order. *)
Definition versionId (k : nat) : jsstring := utf16 "v" ++ of_int (Z.of_nat k).

Lemma versionId_inj : Inj (=) (=) versionId.
Proof.
  intros a b Hab. unfold versionId, of_int in Hab.
  apply app_inv_head in Hab. apply utf16_inj in Hab.
  apply (inj pretty) in Hab. lia.
Qed.

Lemma delete_free_ids tr s :
  Forall (fun a => is_delete a = false) tr ->
  execs init tr = Some s ->
  ids (versions s) = versionId <$> seq 1 (length (versions s)).
Proof.
  intros Hnd.
  apply (execs_inv (fun s => ids (versions s) = versionId <$> seq 1 (length (versions s)))
           (fun a => is_delete a = false)); [|done|done].
  intros s0 a s1 Ha Hids Hex.
  apply exec_versions_step in Hex as [Hc|(Hdel & _)]; [|congruence].
  destruct Hc as [|v _ _ Hid|active v _ _ Hid|i v v' Hv Hid _].
  - done.
  - unfold ids. simpl. by rewrite Hid.
  - unfold ids in *. rewrite fmap_app, length_app, Hids. simpl.
    rewrite Nat.add_1_r, seq_S, fmap_app. simpl. f_equal. rewrite Hid.
    unfold versionId, len. do 3 f_equal. lia.
  - rewrite length_insert. by erewrite update_ids.
Qed.

Lemma delete_free_ids_distinct tr s :
  Forall (fun a => is_delete a = false) tr ->
  execs init tr = Some s -> NoDup (ids (versions s)).
Proof.
  intros Hnd Hex. rewrite (delete_free_ids tr s Hnd Hex).
  apply (NoDup_fmap_2 versionId (Inj0 := versionId_inj)). apply NoDup_seq.
Qed.

(** C2: [createNewVersion] numbers a version by the current length of the
    list, so after a deletion the next id repeats one that is in use. *)
Theorem duplicate_id_after_delete :
  exists s, execs init chain_delete_rewrite = Some s /\
    ids (versions s) = [utf16 "v1"; utf16 "v3"; utf16 "v3"] /\
    ~ NoDup (ids (versions s)).
Proof.
  eexists. split; [vm_compute; reflexivity|]. split; [reflexivity|].
  intros Hnd. apply NoDup_cons in Hnd as [_ Hnd].
  apply NoDup_cons in Hnd as [Hnot _]. apply Hnot.
  vm_compute. apply list_elem_of_here.
Qed.

(** C3. Deleting a version other than the first keeps the active index
    and the compare index inside the shortened list: an index behind the
    deleted position moves down by one, the active index moves to the
    preceding version when the active version is the deleted one, and
    compare mode is left when the compared version is the deleted one. *)
Theorem delete_keeps_selection_valid (s : t) (d : Z) :
  selection_ok s ->
  0 < d < len (versions s) ->
  let s' := state_of (handleVersionDelete s d) in
  len (versions s') = len (versions s) - 1 /\
  selection_ok s' /\
  currentVersionIndex s' =
    (if decide (currentVersionIndex s = d) then d - 1
     else if decide (currentVersionIndex s > d) then currentVersionIndex s - 1
     else currentVersionIndex s) /\
  compareVersionIndex s' =
    match compareVersionIndex s with
    | Some c =>
        if decide (c = d) then None
        else if decide (c > d) then Some (c - 1) else Some c
    | None => None
    end /\
  (compareVersionIndex s = Some d ->
   compareVersionIndex s' = None /\ isCompareMode s' = false).
Proof.
  intros [Hcur Hcmp] Hd. simpl.
  pose proof (handleVersionDelete_length s d Hd) as Hlen.
  pose proof (handleVersionDelete_current s d Hd) as Hc.
  destruct (handleVersionDelete_compare s d Hd) as [Hci Hcm].
  { intros [c Hsome]. rewrite Hsome in Hcmp. tauto. }
  split; [done|]. split; [|split; [done|split; [done|]]].
  - split.
    + rewrite Hc, Hlen. repeat case_decide; lia.
    + rewrite Hci, Hcm, Hlen. destruct (compareVersionIndex s) as [c|]; [|done].
      destruct Hcmp as [Hcr Hm]. repeat case_decide; try done; split; (lia || done).
  - intros Hsome. rewrite Hci, Hcm, Hsome. by rewrite !decide_True.
Qed.

Lemma delete_keeps_selection_valid_witness :
  exists s, execs init (chain_of_three ++ [ToggleCompareMode]) = Some s /\
    selection_ok (state_of (handleVersionDelete s 1)) /\
    currentVersionIndex (state_of (handleVersionDelete s 1)) = 1 /\
    compareVersionIndex (state_of (handleVersionDelete s 1)) = None.
Proof.
  eexists. split; [vm_compute; reflexivity|].
  edestruct (delete_keeps_selection_valid) as (_ & Hok & Hc & Hi & _);
    [| |split; [exact Hok|split; [exact Hc|exact Hi]]].
  - vm_compute. repeat split; congruence.
  - vm_compute. split; reflexivity.
Defined.

End StoreFacts.

(** ** The flowchart extractor *)

Module FlowchartFacts.
Import Regex GeminiService BasicFacts.

(** The [X[label]] tokens of a line, as the pattern finds them from left
    to right, and those of all lines in line order. *)
Definition lineTokens (line : jsstring) : list (N * jsstring) :=
  matches nodeToken line.

Definition blockTokens (lines : list jsstring) : list (N * jsstring) :=
  concat (lineTokens <$> lines).

(** The label of the first token with id [x]. *)
Definition first_label (toks : list (N * jsstring)) (x : N) : option jsstring :=
  snd <$> JS.find (fun t => (t.1 =? x)%N) toks.

Lemma global_cons {M} (m : jsstring -> option (M * jsstring)) c s' :
  global m (c :: s') =
  match m (c :: s') with
  | Some (x, rest) =>
      if decide (length rest < length (c :: s'))%nat
      then Matched x :: global m rest
      else Skipped c :: global m s'
  | None => Skipped c :: global m s'
  end.
Proof.
  simp global. destruct (m (c :: s')) as [[x rest]|]; simpl; [|done].
  by destruct (decide _).
Qed.

Lemma lazy_until_spec stop s taken d rest :
  lazy_until stop s = Some (taken, d, rest) ->
  s = taken ++ d :: rest /\ stop d = true /\
  Forall (fun c => stop c = false /\ is_line_terminator c = false) taken.
Proof.
  revert taken. induction s as [|c s IH]; intros taken; simpl; [done|].
  destruct (stop c) eqn:Hs.
  - intros [= <- <- <-]. by repeat split.
  - destruct (is_line_terminator c) eqn:Hlt; [done|].
    destruct (lazy_until stop s) as [[[t d'] r]|]; [|done].
    intros [= <- <- <-]. destruct (IH t eq_refl) as (-> & ? & ?).
    repeat split; [done|]. by constructor.
Qed.

Lemma lazy_until_complete stop taken d rest :
  stop d = true ->
  Forall (fun c => stop c = false /\ is_line_terminator c = false) taken ->
  lazy_until stop (taken ++ d :: rest) = Some (taken, d, rest).
Proof.
  intros Hd Hall. induction Hall as [|c taken [Hs Hlt] _ IH]; simpl.
  - by rewrite Hd.
  - by rewrite Hs, Hlt, IH.
Qed.

(** Matching the pattern again on the text of a match gives its id and
    its label. *)
Lemma rematch_token s x label rest :
  nodeToken s = Some ((x, label), rest) ->
  first_match nodeToken (x :: 91%N :: label ++ [93%N]) = Some (x, label).
Proof.
  unfold nodeToken. destruct s as [|x' [|b s']]; [done..|].
  destruct (is_upper x' && (b =? 91)%N) eqn:Hxb; [|done].
  destruct (lazy_until _ s') as [[[l d] r]|] eqn:Hl; [|done].
  intros [= -> -> ->]. apply andb_prop in Hxb as [Hx _].
  apply lazy_until_spec in Hl as (_ & Hd & Hall).
  apply N.eqb_eq in Hd as ->.
  simpl. rewrite Hx. simpl.
  by rewrite (lazy_until_complete _ label 93%N []).
Qed.

Lemma matches_text_tokens line :
  Forall2 (fun matched tok => first_match nodeToken matched = Some tok)
    (matches nodeTokenText line) (lineTokens line).
Proof.
  unfold lineTokens, matches.
  remember (length line) as n eqn:Hn.
  revert line Hn. induction (lt_wf n) as [n _ IH]. intros s ->.
  destruct s as [|c s']; [simp global; constructor|].
  rewrite !global_cons. unfold nodeTokenText at 1.
  destruct (nodeToken (c :: s')) as [[[x label] rest]|] eqn:Htok.
  - destruct (decide _) as [Hlt|_]; simpl.
    + constructor; [by eapply rematch_token|]. by apply (IH (length rest)).
    + apply (IH (length s')); [simpl; lia|done].
  - simpl. apply (IH (length s')); [simpl; lia|done].
Qed.

Lemma addLineNodes_tokens nodes line :
  addLineNodes nodes line = foldl addNode nodes (lineTokens line).
Proof.
  unfold addLineNodes. pose proof (matches_text_tokens line) as H2.
  revert nodes. induction H2 as [|matched tok ms ts Hm _ IH]; intros nodes.
  - done.
  - simpl. rewrite Hm. apply IH.
Qed.

Lemma firstPass_tokens lines :
  firstPass lines = foldl addNode [] (blockTokens lines).
Proof.
  unfold firstPass, blockTokens. generalize (@nil FlowNode.t) as nodes.
  induction lines as [|line lines IH]; intros nodes; simpl; [done|].
  by rewrite foldl_app, IH, addLineNodes_tokens.
Qed.

Definition node_ids (nodes : list FlowNode.t) : list jsstring :=
  FlowNode.id <$> nodes.

Lemma find_id_None nodes x :
  JS.find (fun n => streq (FlowNode.id n) [x]) nodes = None <->
  [x] ∉ node_ids nodes.
Proof.
  unfold node_ids, streq. induction nodes as [|n nodes IH]; simpl.
  - split; [intros _ H; by apply elem_of_nil in H|done].
  - rewrite not_elem_of_cons. case_bool_decide as Hn.
    + split; [done|]. intros [Hne _]. by rewrite Hn in Hne.
    + rewrite IH. split; [intros ?; split; [congruence|done]|tauto].
Qed.

Lemma find_id_Some nodes x n :
  JS.find (fun n => streq (FlowNode.id n) [x]) nodes = Some n ->
  [x] ∈ node_ids nodes.
Proof.
  intros Hf. destruct (decide ([x] ∈ node_ids nodes)) as [|Hn]; [done|].
  apply find_id_None in Hn. congruence.
Qed.

Lemma first_label_snoc toks t x :
  first_label (toks ++ [t]) x =
  match first_label toks x with
  | Some l => Some l
  | None => if (t.1 =? x)%N then Some t.2 else None
  end.
Proof.
  unfold first_label. induction toks as [|u toks IH]; simpl.
  - by destruct (t.1 =? x)%N.
  - by destruct (u.1 =? x)%N.
Qed.

Lemma first_label_None toks x :
  first_label toks x = None <-> x ∉ toks.*1.
Proof.
  unfold first_label. induction toks as [|u toks IH]; simpl.
  - split; [intros _ H; by apply elem_of_nil in H|done].
  - rewrite not_elem_of_cons. destruct (N.eqb_spec u.1 x) as [->|Hne]; simpl.
    + split; [done|]. by intros [? _].
    + rewrite IH. split; [intros ?; split; [congruence|done]|tauto].
Qed.

(** What the first pass keeps true of the nodes built from [toks]. *)
Record nodes_of (toks : list (N * jsstring)) (nodes : list FlowNode.t) : Prop :=
  { ids_nodup : NoDup (node_ids nodes);
    ids_cover : forall x, x ∈ toks.*1 -> [x] ∈ node_ids nodes;
    labels_first : forall n, n ∈ nodes ->
      exists x, FlowNode.id n = [x] /\
                first_label toks x = Some (FlowNode.label n) }.

Lemma foldl_addNode_nodes_of toks : nodes_of toks (foldl addNode [] toks).
Proof.
  induction toks as [|t toks IH] using rev_ind.
  - split; simpl.
    + constructor.
    + intros x H. by apply elem_of_nil in H.
    + intros n H. by apply elem_of_nil in H.
  - rewrite foldl_app. simpl. destruct IH as [Hnd Hcov Hlab].
    set (nodes := foldl addNode [] toks) in *. unfold addNode.
    destruct (JS.find _ nodes) as [n0|] eqn:Hfind.
    + apply find_id_Some in Hfind. split.
      * done.
      * intros x. rewrite fmap_app, elem_of_app. simpl.
        rewrite list_elem_of_singleton. intros [Hx| ->]; [by apply Hcov|done].
      * intros n Hn. destruct (Hlab n Hn) as (x & Hid & Hfl).
        exists x. split; [done|]. by rewrite first_label_snoc, Hfl.
    + apply find_id_None in Hfind. split.
      * unfold node_ids in *. rewrite fmap_app. simpl.
        apply NoDup_app. split; [done|]. split; [|apply NoDup_singleton].
        intros i Hi Hi'. apply list_elem_of_singleton in Hi'. by subst.
      * intros x. unfold node_ids in *. rewrite !fmap_app, !elem_of_app. simpl.
        rewrite !list_elem_of_singleton. intros [Hx| ->]; [left; by apply Hcov|by right].
      * intros n. rewrite elem_of_app, list_elem_of_singleton. intros [Hn| ->].
        -- destruct (Hlab n Hn) as (x & Hid & Hfl).
           exists x. split; [done|]. by rewrite first_label_snoc, Hfl.
        -- exists t.1. split; [done|]. simpl. rewrite first_label_snoc.
           destruct (first_label toks t.1) as [l|] eqn:Hfl.
           ++ exfalso. apply Hfind, Hcov.
              destruct (decide (t.1 ∈ toks.*1)) as [|Hni]; [done|].
              apply first_label_None in Hni. congruence.
           ++ by rewrite N.eqb_refl.
Qed.

Lemma matches_Forall {M} (P : M -> Prop) m :
  (forall s x rest, m s = Some (x, rest) -> P x) ->
  forall s, Forall P (matches m s).
Proof.
  intros Hm s. unfold matches. remember (length s) as n eqn:Hn.
  revert s Hn. induction (lt_wf n) as [n _ IH]. intros s ->.
  destruct s as [|c s']; [simp global; constructor|].
  rewrite global_cons. destruct (m (c :: s')) as [[x rest]|] eqn:Hx.
  - destruct (decide _) as [Hlt|_]; simpl.
    + constructor; [by eapply Hm|]. by apply (IH (length rest)).
    + apply (IH (length s')); [simpl; lia|done].
  - simpl. apply (IH (length s')); [simpl; lia|done].
Qed.

Lemma blockTokens_upper lines :
  Forall (fun t => is_upper t.1 = true) (blockTokens lines).
Proof.
  unfold blockTokens. apply Forall_concat, Forall_fmap, Forall_forall.
  intros line _. apply matches_Forall. intros s x rest. unfold nodeToken.
  destruct s as [|x' [|b s']]; [done..|].
  destruct (is_upper x' && (b =? 91)%N) eqn:Hxb; [|done].
  destruct (lazy_until _ s') as [[[l d] r]|]; [|done].
  intros [= <- _]. simpl. by apply andb_prop in Hxb as [? _].
Qed.

Definition nl : jsstring := [10%N].

(** The template of the analysis prompt, with one id used twice. *)
Definition sample_reply : jsstring :=
  utf16 "[FLOWCHART]" ++ nl ++ utf16 "```mermaid" ++ nl ++
  utf16 "graph TD" ++ nl ++
  utf16 "  A[Event1] --> B[Event2]" ++ nl ++
  utf16 "  B --> C[Event3]" ++ nl ++
  utf16 "  A[Again] --> C" ++ nl ++
  utf16 "```" ++ nl ++ nl ++ utf16 "[CHARACTERS]".

Example sample_reply_nodes :
  (fun fc => (fun n => (FlowNode.id n, FlowNode.label n, FlowNode.y n))
               <$> Flowchart.nodes fc) <$> extractFlowchart sample_reply
  = Some [ (utf16 "A", utf16 "Event1", 100);
           (utf16 "B", utf16 "Event2", 200);
           (utf16 "C", utf16 "Event3", 300) ].
Proof. vm_compute. reflexivity. Qed.

(** C5. When the reply holds a diagram block, every id of an
    [X[label]] token of the block is the id of exactly one node, and the
    label of a node is the label of the first token with its id. *)
Theorem extractFlowchart_nodes (text block : jsstring) :
  flowchartSection text = Some block ->
  exists fc, extractFlowchart text = Some fc /\
    let toks := blockTokens (diagramLines block) in
    NoDup (node_ids (Flowchart.nodes fc)) /\
    (forall x label, (x, label) ∈ toks ->
       is_upper x = true /\
       length (filter (fun n => FlowNode.id n = [x]) (Flowchart.nodes fc)) = 1%nat) /\
    (forall n, n ∈ Flowchart.nodes fc ->
       exists x, FlowNode.id n = [x] /\
                 first_label toks x = Some (FlowNode.label n)).
Proof.
  intros Hsec. unfold extractFlowchart. rewrite Hsec. simpl.
  eexists. split; [reflexivity|]. simpl. rewrite firstPass_tokens.
  destruct (foldl_addNode_nodes_of (blockTokens (diagramLines block)))
    as [Hnd Hcov Hlab].
  split; [done|]. split; [|done]. intros x label Hin. split.
  - pose proof (blockTokens_upper (diagramLines block)) as Hup.
    rewrite Forall_forall in Hup. by apply (Hup (x, label)).
  - apply count_unique; [done|]. apply Hcov.
    by apply (list_elem_of_fmap_2 fst _ (x, label)).
Qed.

Lemma extractFlowchart_nodes_witness :
  exists fc, extractFlowchart sample_reply = Some fc /\
    length (filter (fun n => FlowNode.id n = utf16 "A") (Flowchart.nodes fc)) = 1%nat /\
    (forall n, n ∈ Flowchart.nodes fc -> FlowNode.id n = utf16 "A" ->
       FlowNode.label n = utf16 "Event1").
Proof.
  destruct (extractFlowchart_nodes sample_reply
              (utf16 "  A[Event1] --> B[Event2]" ++ nl ++
               utf16 "  B --> C[Event3]" ++ nl ++ utf16 "  A[Again] --> C"))
    as (fc & Hfc & _ & Hone & Hlab); [vm_compute; reflexivity|].
  exists fc. split; [done|]. split.
  - apply (Hone 65%N (utf16 "Again")). vm_compute.
    do 3 apply list_elem_of_further. apply list_elem_of_here.
  - intros n Hn Hid. destruct (Hlab n Hn) as (x & Hx & Hfl).
    rewrite Hid in Hx. injection Hx as <-.
    match type of Hfl with
    | ?l = _ => assert (l = Some (utf16 "Event1")) as Hc by (vm_compute; reflexivity)
    end.
    rewrite Hc in Hfl. by injection Hfl.
Defined.

End FlowchartFacts.

(** ** The character diff *)

Module CharacterFacts.
Import GeminiService BasicFacts.

(** *** [JSON_stringify] is injective *)

Definition unhexDigit (h : N) : N := (if h <? 58 then h - 48 else h - 87)%N.

Definition unhex4 (h1 h2 h3 h4 : N) : N :=
  (((unhexDigit h1 * 16 + unhexDigit h2) * 16 + unhexDigit h3) * 16
   + unhexDigit h4)%N.

Definition unescape (e : N) : option N :=
  if (e =? 98)%N then Some 8%N
  else if (e =? 116)%N then Some 9%N
  else if (e =? 110)%N then Some 10%N
  else if (e =? 102)%N then Some 12%N
  else if (e =? 114)%N then Some 13%N
  else if (e =? 34)%N then Some 34%N
  else if (e =? 92)%N then Some 92%N
  else None.

Definition push (c : N) (p : jsstring * jsstring) : jsstring * jsstring :=
  (c :: p.1, p.2).

(** Reads the text of a quoted string back, up to the closing quote. *)
Fixpoint unquote (fuel : nat) (t : jsstring) : option (jsstring * jsstring) :=
  match fuel with
  | O => None
  | S f =>
      match t with
      | [] => None
      | c :: r =>
          if (c =? 34)%N then Some ([], r)
          else if (c =? 92)%N then
            match r with
            | e :: r1 =>
                if (e =? 117)%N then
                  match r1 with
                  | h1 :: h2 :: h3 :: h4 :: r2 =>
                      push (unhex4 h1 h2 h3 h4) <$> unquote f r2
                  | _ => None
                  end
                else
                  match unescape e with
                  | Some u => push u <$> unquote f r1
                  | None => None
                  end
            | [] => None
            end
          else push c <$> unquote f r
      end
  end.

Lemma unhexDigit_hexDigit d : (d < 16)%N -> unhexDigit (hexDigit d) = d.
Proof.
  intros Hd. unfold unhexDigit, hexDigit.
  destruct (N.ltb_spec d 10).
  - destruct (N.ltb_spec (48 + d) 58); lia.
  - destruct (N.ltb_spec (87 + d) 58); lia.
Qed.

Lemma unhex4_escape c :
  (c < 65536)%N ->
  unhex4 (hexDigit (c / 4096 mod 16)) (hexDigit (c / 256 mod 16))
         (hexDigit (c / 16 mod 16)) (hexDigit (c mod 16)) = c.
Proof.
  intros Hc. unfold unhex4.
  rewrite !unhexDigit_hexDigit by (apply N.mod_lt; lia).
  zify. Z.to_euclidean_division_equations. lia.
Qed.

Lemma unquote_unit c rest f :
  unquote (S f) (quoteUnit c ++ rest) = push c <$> unquote f rest.
Proof.
  unfold quoteUnit.
  destruct (N.eqb_spec c 8) as [->|?]; [reflexivity|].
  destruct (N.eqb_spec c 9) as [->|?]; [reflexivity|].
  destruct (N.eqb_spec c 10) as [->|?]; [reflexivity|].
  destruct (N.eqb_spec c 12) as [->|?]; [reflexivity|].
  destruct (N.eqb_spec c 13) as [->|?]; [reflexivity|].
  destruct (N.eqb_spec c 34) as [->|?]; [reflexivity|].
  destruct (N.eqb_spec c 92) as [->|?]; [reflexivity|].
  destruct (_ || _) eqn:Hesc.
  - assert (c < 65536)%N as Hc.
    { unfold is_high_surrogate, is_low_surrogate in Hesc.
      repeat (apply orb_prop in Hesc as [Hesc|Hesc]);
        rewrite ?andb_true_iff, ?N.ltb_lt, ?N.leb_le in Hesc; lia. }
    unfold unicodeEscape. cbn [app unquote].
    change (92 =? 34)%N with false. change (92 =? 92)%N with true.
    change (117 =? 117)%N with true. cbv iota.
    by rewrite unhex4_escape.
  - cbn [app unquote].
    destruct (N.eqb_spec c 34); [done|]. destruct (N.eqb_spec c 92); done.
Qed.

Lemma quoteChars_cons2 c d r :
  quoteChars (c :: d :: r) =
  if is_high_surrogate c && is_low_surrogate d
  then c :: d :: quoteChars r
  else quoteUnit c ++ quoteChars (d :: r).
Proof. reflexivity. Qed.

Lemma unquote_quoteChars s r fuel :
  (length s < fuel)%nat ->
  unquote fuel (quoteChars s ++ 34%N :: r) = Some (s, r).
Proof.
  remember (length s) as n eqn:Hn. revert s Hn fuel.
  induction (lt_wf n) as [n _ IH]. intros s -> fuel Hf.
  destruct fuel as [|f]; [lia|].
  destruct s as [|c [|d r']].
  - reflexivity.
  - change (quoteChars [c]) with (quoteUnit c). rewrite unquote_unit.
    destruct f as [|f]; [simpl in Hf; lia|]. reflexivity.
  - rewrite quoteChars_cons2.
    destruct (is_high_surrogate c && is_low_surrogate d) eqn:Hpair.
    + apply andb_prop in Hpair as [Hc Hd].
      unfold is_high_surrogate, is_low_surrogate in *.
      rewrite andb_true_iff, !N.leb_le in Hc, Hd.
      destruct f as [|f]; [simpl in Hf; lia|].
      cbn [app unquote].
      destruct (N.eqb_spec c 34); [lia|]. destruct (N.eqb_spec c 92); [lia|].
      destruct (N.eqb_spec d 34); [lia|]. destruct (N.eqb_spec d 92); [lia|].
      rewrite (IH (length r')); [done|simpl; lia|done|simpl in Hf; lia].
    + rewrite <- app_assoc, unquote_unit.
      rewrite (IH (length (d :: r'))); [done|simpl; lia|done|simpl in *; lia].
Qed.

Lemma quoteJSONString_inj s1 s2 r1 r2 :
  quoteJSONString s1 ++ r1 = quoteJSONString s2 ++ r2 -> s1 = s2 /\ r1 = r2.
Proof.
  unfold quoteJSONString. rewrite <- !app_comm_cons, <- !app_assoc. simpl.
  intros [= Heq].
  pose proof (unquote_quoteChars s1 r1 (S (length s1 + length s2)) ltac:(lia)) as H1.
  pose proof (unquote_quoteChars s2 r2 (S (length s1 + length s2)) ltac:(lia)) as H2.
  rewrite Heq in H1. rewrite H1 in H2. by injection H2.
Qed.

Lemma stringifyRelationship_eq x :
  stringifyRelationship x =
  [123; 34; 116; 111; 34; 58]%N ++ quoteJSONString (Relationship.to x) ++
  [44; 34; 116; 121; 112; 101; 34; 58]%N ++
  quoteJSONString (Relationship.type x) ++ [125%N].
Proof. reflexivity. Qed.

Lemma stringifyRelationship_inj x y r1 r2 :
  stringifyRelationship x ++ r1 = stringifyRelationship y ++ r2 ->
  x = y /\ r1 = r2.
Proof.
  rewrite !stringifyRelationship_eq. destruct x as [xt xy], y as [yt yy].
  cbn [Relationship.to Relationship.type].
  rewrite <- !app_assoc. intros Heq.
  apply app_inv_head in Heq.
  apply quoteJSONString_inj in Heq as [-> Heq].
  apply app_inv_head in Heq.
  apply quoteJSONString_inj in Heq as [-> Heq].
  by injection Heq as ->.
Qed.

Lemma stringifyRelationship_head x :
  exists t, stringifyRelationship x = 123%N :: t.
Proof. rewrite stringifyRelationship_eq. by eexists. Qed.

Lemma joinComma_inj l1 l2 r1 r2 :
  joinComma (stringifyRelationship <$> l1) ++ 93%N :: r1 =
  joinComma (stringifyRelationship <$> l2) ++ 93%N :: r2 ->
  l1 = l2 /\ r1 = r2.
Proof.
  revert l2. induction l1 as [|x l1 IH]; intros [|y l2].
  - simpl. by intros [= ->].
  - destruct (stringifyRelationship_head y) as [t Ht].
    cbn [fmap list_fmap joinComma]. rewrite Ht.
    destruct (stringifyRelationship <$> l2); discriminate.
  - destruct (stringifyRelationship_head x) as [t Ht].
    cbn [fmap list_fmap joinComma]. rewrite Ht.
    destruct (stringifyRelationship <$> l1); discriminate.
  - assert (Hstep : forall z l,
      joinComma (stringifyRelationship <$> z :: l) =
      stringifyRelationship z ++
        match l with
        | [] => []
        | _ => 44%N :: joinComma (stringifyRelationship <$> l)
        end).
    { intros z [|z' l]; cbn [fmap list_fmap joinComma]; [by rewrite app_nil_r|done]. }
    rewrite !Hstep, <- !app_assoc. intros Heq.
    apply stringifyRelationship_inj in Heq as [-> Heq].
    destruct l1 as [|x1 l1], l2 as [|y1 l2]; cbn [app] in Heq; try discriminate.
    + by injection Heq as ->.
    + apply (app_inv_head [44%N]) in Heq. apply IH in Heq as [-> ->]. done.
Qed.

Lemma JSON_stringify_inj l1 l2 :
  JSON_stringify l1 = JSON_stringify l2 -> l1 = l2.
Proof.
  unfold JSON_stringify. intros [= Heq].
  by apply joinComma_inj in Heq as [-> _].
Qed.

(** *** The diff *)

Definition char_ids (cs : list Character.t) : list jsstring := Character.id <$> cs.

(** The character a change is about. *)
Definition subject (e : CharacterChange.t) : option jsstring :=
  Character.id <$>
    match CharacterChange.modified e with
    | Some c => Some c
    | None => CharacterChange.original e
    end.

Lemma negb_streq a b : negb (streq a b) = true <-> a <> b.
Proof.
  unfold streq. rewrite negb_true_iff. split.
  - by intros Hb%bool_decide_eq_false.
  - intros Hne. by apply bool_decide_eq_false.
Qed.

Lemma find_by_id_Some cs i o :
  JS.find (fun c => streq (Character.id c) i) cs = Some o ->
  o ∈ cs /\ Character.id o = i.
Proof.
  induction cs as [|c cs IH]; simpl; [done|]. unfold streq at 1.
  case_bool_decide as Hc.
  - intros [= <-]. split; [apply list_elem_of_here|done].
  - intros Hf. destruct (IH Hf). split; [by apply list_elem_of_further|done].
Qed.

Lemma find_by_id_None cs i :
  JS.find (fun c => streq (Character.id c) i) cs = None -> i ∉ char_ids cs.
Proof.
  induction cs as [|c cs IH]; simpl.
  - intros _ Hin. by apply elem_of_nil in Hin.
  - unfold streq at 1. case_bool_decide as Hc; [done|].
    intros Hf. apply not_elem_of_cons. split; [congruence|by apply IH].
Qed.

Lemma find_by_id_elem cs i :
  i ∈ char_ids cs -> is_Some (JS.find (fun c => streq (Character.id c) i) cs).
Proof.
  intros Hin. destruct (JS.find _ cs) eqn:Hf; [by eexists|].
  by apply find_by_id_None in Hf.
Qed.

Lemma some_by_id cs i :
  JS.some (fun c => streq (Character.id c) i) cs = true <-> i ∈ char_ids cs.
Proof.
  unfold JS.some, char_ids. rewrite existsb_exists, list_elem_of_fmap.
  split.
  - intros (c & Hin & Heq). exists c. unfold streq in Heq.
    apply bool_decide_eq_true in Heq. split; [done|by apply list_elem_of_In].
  - intros (c & -> & Hin). exists c. split; [by apply list_elem_of_In|].
    by apply bool_decide_eq_true.
Qed.

Lemma characterChanges_subject orig m :
  subject <$> characterChanges orig [m] = [Some (Character.id m)].
Proof. simpl. by destruct (JS.find _ orig). Qed.

Lemma count_characterChanges orig mods i :
  length (filter (fun e => subject e = Some i) (characterChanges orig mods)) =
  length (filter (fun m => Character.id m = i) mods).
Proof.
  induction mods as [|m mods IH]; [done|].
  unfold characterChanges in *. rewrite fmap_cons.
  pose proof (characterChanges_subject orig m) as Hs. simpl in Hs.
  injection Hs as Hs.
  destruct (decide (Character.id m = i)) as [Hi|Hi].
  - rewrite !filter_cons_True; [|done|by rewrite Hs, Hi]. simpl. by rewrite IH.
  - rewrite !filter_cons_False; [done|done|]. rewrite Hs. congruence.
Qed.

Lemma count_deletedCharacters orig mods i :
  length (filter (fun e => subject e = Some i) (deletedCharacters orig mods)) =
  if decide (i ∈ char_ids mods) then 0%nat
  else length (filter (fun o => Character.id o = i) orig).
Proof.
  unfold deletedCharacters. induction orig as [|o orig IH].
  - simpl. by case_decide.
  - cbn [List.filter].
    destruct (JS.some _ mods) eqn:Hsome; cbn [negb].
    + apply some_by_id in Hsome. rewrite IH. case_decide as Hin; [done|].
      rewrite filter_cons_False; [done|]. congruence.
    + rewrite fmap_cons.
      assert (Character.id o ∉ char_ids mods) as Hni.
      { intros Hin. apply some_by_id in Hin. congruence. }
      destruct (decide (Character.id o = i)) as [Hi|Hi].
      * subst i. rewrite filter_cons_True by done. simpl. rewrite IH.
        rewrite !decide_False by done.
        by rewrite filter_cons_True.
      * rewrite filter_cons_False by (unfold subject; simpl; congruence).
        rewrite IH. case_decide; [done|]. by rewrite filter_cons_False.
Qed.

Definition sample_original : list Character.t :=
  [ {| Character.id := utf16 "char-0"; Character.name := utf16 "Ann";
       Character.description := utf16 "a pilot"; Character.relationships := [] |};
    {| Character.id := utf16 "char-1"; Character.name := utf16 "Bob";
       Character.description := utf16 "a cook"; Character.relationships := [] |} ].

Definition sample_modified : list Character.t :=
  [ {| Character.id := utf16 "char-0"; Character.name := utf16 "Anna";
       Character.description := utf16 "a pilot";
       Character.relationships :=
         [ {| Relationship.to := utf16 "char-7"; Relationship.type := utf16 "friend" |} ] |};
    {| Character.id := utf16 "char-7"; Character.name := utf16 "Cy";
       Character.description := utf16 "a spy"; Character.relationships := [] |} ].

(** C6. With ids that identify the characters of each list, every id of
    an input character is the subject of exactly one change, whose
    category tells in which of the two lists the id occurs; and a
    modified change flags a field exactly when the two characters differ
    in it. *)
Theorem character_diff_partition (orig mods : list Character.t) :
  NoDup (char_ids orig) ->
  NoDup (char_ids mods) ->
  let ch := allChanges orig mods in
  (forall i, i ∈ char_ids orig \/ i ∈ char_ids mods ->
     length (filter (fun e => subject e = Some i) ch) = 1%nat) /\
  (forall e, e ∈ ch ->
     match CharacterChange.type e with
     | CharacterChange.Modified =>
         exists o m f,
           CharacterChange.original e = Some o /\
           CharacterChange.modified e = Some m /\
           CharacterChange.changes e = Some f /\
           o ∈ orig /\ m ∈ mods /\ Character.id o = Character.id m /\
           (CharacterChange.name f = true <-> Character.name o <> Character.name m) /\
           (CharacterChange.description f = true <->
              Character.description o <> Character.description m) /\
           (CharacterChange.relationships f = true <->
              Character.relationships o <> Character.relationships m)
     | CharacterChange.Added =>
         exists m,
           CharacterChange.original e = None /\
           CharacterChange.modified e = Some m /\
           m ∈ mods /\ Character.id m ∉ char_ids orig
     | CharacterChange.Deleted =>
         exists o,
           CharacterChange.original e = Some o /\
           CharacterChange.modified e = None /\
           o ∈ orig /\ Character.id o ∉ char_ids mods
     end).
Proof.
  intros Hno Hnm. simpl. split.
  - intros i Hi. unfold allChanges. rewrite filter_app, length_app.
    rewrite count_characterChanges, count_deletedCharacters.
    destruct (decide (i ∈ char_ids mods)) as [Hin|Hni].
    + by rewrite (count_unique Character.id).
    + rewrite (filter_absent Character.id) by done.
      destruct Hi as [Hi|Hi]; [|done]. by rewrite (count_unique Character.id).
  - intros e. unfold allChanges. rewrite elem_of_app. intros [He|He].
    + unfold characterChanges in He. apply list_elem_of_fmap in He as (m & -> & Hm).
      destruct (JS.find _ orig) as [o|] eqn:Hfind; simpl.
      * apply find_by_id_Some in Hfind as [Ho Hid].
        eexists o, m, _. do 6 (split; [done|]). cbn [CharacterChange.name
          CharacterChange.description CharacterChange.relationships].
        rewrite !negb_streq. do 2 (split; [done|]). split.
        -- intros Hne Heq. apply Hne. by rewrite Heq.
        -- intros Hne Heq. apply Hne. by apply JSON_stringify_inj.
      * apply find_by_id_None in Hfind. by exists m.
    + unfold deletedCharacters in He. apply list_elem_of_fmap in He as (o & -> & Ho).
      apply list_elem_of_In, filter_In in Ho as [Ho Hb]. simpl.
      exists o. repeat split; [by apply list_elem_of_In|].
      intros Hin. apply some_by_id in Hin. rewrite Hin in Hb. done.
Qed.

Lemma character_diff_partition_witness :
  let ch := allChanges sample_original sample_modified in
  CharacterChange.type <$> ch =
    [CharacterChange.Modified; CharacterChange.Added; CharacterChange.Deleted] /\
  length (filter (fun e => subject e = Some (utf16 "char-1")) ch) = 1%nat.
Proof.
  split; [reflexivity|].
  apply (character_diff_partition sample_original sample_modified).
  - apply (bool_decide_unpack _). vm_compute. exact I.
  - apply (bool_decide_unpack _). vm_compute. exact I.
  - left. vm_compute. apply list_elem_of_further, list_elem_of_here.
Defined.

End CharacterFacts.

(** ** The relationship analyzer and the readability conversion *)

Module AnalyzerFacts.
Import Regex Control GeminiService.

(** What [analyzeFlowchartRelationship] makes of a parsed reply. *)
Definition resultOf (parsedResult : Json.value) : RelationshipResult.t :=
  match parsedResult with
  | Json.Undefined | Json.Null => RelationshipResult.empty
  | Json.Obj fields =>
      {| RelationshipResult.branchPoint := Json.lookup (utf16 "branchPoint") fields;
         RelationshipResult.sharedNodes :=
           match Json.lookup (utf16 "sharedNodes") fields with
           | Json.Arr items => items
           | _ => []
           end |}
  | _ =>
      {| RelationshipResult.branchPoint := Json.Undefined;
         RelationshipResult.sharedNodes := [] |}
  end.

Definition brokenReply : jsstring :=
  utf16 "Here you are: {sharedNodes: [], branchPoint: null,}".

(** The repair pass puts the bare keys and the bare value in double
    quotes (code unit 34) and drops the comma before the closing brace. *)
Example brokenReply_repaired :
  cleanJson <$> matchBraces brokenReply
  = Some (utf16 "{" ++ [34%N] ++ utf16 "sharedNodes" ++ [34%N] ++ utf16 ":[]," ++
          [34%N] ++ utf16 "branchPoint" ++ [34%N] ++ utf16 ":" ++
          [34%N] ++ utf16 "null" ++ [34%N] ++ utf16 "}").
Proof. vm_compute. reflexivity. Qed.

(** The cases of [analyzeFlowchartRelationship], which always resolves. *)
Lemma analyzeFlowchartRelationship_cases
    (JSON_parse : jsstring -> option Json.value)
    (flowchart1 flowchart2 : option Flowchart.t) (text1 text2 : jsstring)
    (r : reply) :
  analyzeFlowchartRelationship JSON_parse flowchart1 flowchart2 text1 text2 r =
  Resolved
    match flowchart1, flowchart2, r with
    | Some _, Some _, Body (Some responseText) =>
        match matchBraces responseText with
        | Some jsonMatch =>
            match JSON_parse jsonMatch with
            | Some parsedResult => resultOf parsedResult
            | None =>
                match JSON_parse (cleanJson jsonMatch) with
                | Some parsedResult => resultOf parsedResult
                | None => RelationshipResult.empty
                end
            end
        | None => RelationshipResult.empty
        end
    | _, _, _ => RelationshipResult.empty
    end.
Proof.
  unfold analyzeFlowchartRelationship, analyzeBody, parseWithRepair. f_equal.
  destruct flowchart1 as [f1|], flowchart2 as [f2|]; try done.
  destruct r as [|[responseText|]]; try done. simpl.
  destruct (matchBraces responseText) as [jsonMatch|]; [|done]. simpl.
  assert (Hv : forall v,
    try_catch
      (branchPoint <- Json.getProp v (utf16 "branchPoint") ;;
       sharedNodes <- Json.getProp v (utf16 "sharedNodes") ;;
       Ok {| RelationshipResult.branchPoint := branchPoint;
             RelationshipResult.sharedNodes :=
               match sharedNodes with
               | Json.Arr items => items
               | _ => []
               end |})
      RelationshipResult.empty = resultOf v).
  { by intros []. }
  destruct (JSON_parse jsonMatch) as [v|]; simpl; [apply Hv|].
  destruct (JSON_parse (cleanJson jsonMatch)) as [v|]; simpl; [apply Hv|done].
Qed.

(** *** The repair pass *)

(** A word: letters, digits and underscores, at least one. *)
Definition is_word_char (c : N) : bool :=
  ((48 <=? c) && (c <=? 57) || (65 <=? c) && (c <=? 90) || (c =? 95)
   || (97 <=? c) && (c <=? 122))%N.

Definition word (s : jsstring) : Prop :=
  s <> [] /\ Forall (fun c => is_word_char c = true) s.

(** An object as a reply may spell it: every field on a line of its own
    with a bare key and a bare value, and a comma after the last field
    too. *)
Definition looseField (f : jsstring * jsstring) : jsstring :=
  [10; 32; 32]%N ++ f.1 ++ [58; 32]%N ++ f.2 ++ [44%N].

Definition looseObject (fields : list (jsstring * jsstring)) : jsstring :=
  [123%N] ++ concat (looseField <$> fields) ++ [10; 125]%N.

(** The same object as JSON spells it, on one line: keys and values in
    double quotes (code unit 34), commas between the fields only. *)
Definition strictField (f : jsstring * jsstring) : jsstring :=
  [34%N] ++ f.1 ++ [34; 58; 34]%N ++ f.2 ++ [34%N].

Fixpoint commaSeparated (l : list jsstring) : jsstring :=
  match l with
  | [] => []
  | [x] => x
  | x :: l' => x ++ [44%N] ++ commaSeparated l'
  end.

Definition strictObject (fields : list (jsstring * jsstring)) : jsstring :=
  [123%N] ++ commaSeparated (strictField <$> fields) ++ [125%N].

Definition no_line_break (s : jsstring) : Prop :=
  Forall (fun c => c <> 10%N /\ c <> 13%N) s.

(** **** Scans *)

Lemma replace_all_nil m : replace_all m [] = [].
Proof. unfold replace_all. by simp global. Qed.

Lemma replace_all_skip m c s :
  m (c :: s) = None -> replace_all m (c :: s) = c :: replace_all m s.
Proof. intros Hm. unfold replace_all. by rewrite FlowchartFacts.global_cons, Hm. Qed.

Lemma replace_all_match m c s out rest :
  m (c :: s) = Some (out, rest) -> (length rest <= length s)%nat ->
  replace_all m (c :: s) = out ++ replace_all m rest.
Proof.
  intros Hm Hlen. unfold replace_all. rewrite FlowchartFacts.global_cons, Hm.
  rewrite decide_True by (simpl; lia). done.
Qed.

Lemma replace_all_skip_prefix m (start : N -> bool) pre s :
  (forall c r, start c = false -> m (c :: r) = None) ->
  Forall (fun c => start c = false) pre ->
  replace_all m (pre ++ s) = pre ++ replace_all m s.
Proof.
  intros Hm Hpre. induction Hpre as [|c pre Hc _ IH]; [done|].
  simpl. rewrite replace_all_skip by by apply Hm. by rewrite IH.
Qed.

Lemma Forall_drop_while {A} (P : A -> Prop) p (l : list A) :
  Forall P l -> Forall P (drop_while p l).
Proof.
  induction 1 as [|x l Hx Hl IH]; simpl; [done|].
  destruct (p x); [done|by constructor].
Qed.

(** A replacement that writes characters of a kind where it matches
    keeps a text of that kind. *)
Lemma replace_all_preserves (P : N -> Prop) m :
  (forall s out rest, Forall P s -> m s = Some (out, rest) ->
     Forall P out /\ Forall P rest) ->
  forall s, Forall P s -> Forall P (replace_all m s).
Proof.
  intros Hm s. unfold replace_all.
  remember (length s) as n eqn:Hn. revert s Hn.
  induction (lt_wf n) as [n _ IH]. intros s -> Hs.
  destruct s as [|c s']; [simp global; constructor|].
  rewrite FlowchartFacts.global_cons. inversion Hs as [|? ? Hc Hs']; subst.
  destruct (m (c :: s')) as [[out rest]|] eqn:Hmatch.
  - destruct (Hm _ _ _ Hs Hmatch) as [Hout Hrest]. case_decide as Hlen.
    + rewrite fmap_cons. simpl. apply Forall_app. split; [done|].
      by apply (IH (length rest)).
    + rewrite fmap_cons. simpl. constructor; [done|].
      apply (IH (length s')); [simpl; lia|done..].
  - rewrite fmap_cons. simpl. constructor; [done|].
    apply (IH (length s')); [simpl; lia|done..].
Qed.

Lemma dropLineBreaks_no_line_break s : no_line_break (dropLineBreaks s).
Proof.
  unfold no_line_break, dropLineBreaks. induction s as [|c s IH]; simpl; [done|].
  destruct (negb _) eqn:Hc; [|done]. constructor; [|done].
  apply negb_true_iff, orb_false_iff in Hc as [H10 H13].
  apply N.eqb_neq in H10, H13. done.
Qed.

Lemma bareValue_preserves (P : N -> Prop) s out rest :
  P 34%N -> Forall P s -> bareValue s = Some (out, rest) ->
  Forall P out /\ Forall P rest.
Proof.
  intros Hq Ht. unfold bareValue. destruct s as [|c r]; [done|].
  destruct (c =? 58)%N eqn:Hcolon; [|done]. apply N.eqb_eq in Hcolon as ->.
  inversion Ht as [|? ? Hc Hr]; subst.
  pose proof (Forall_drop_while _ is_space _ Hr) as Hd.
  destruct (drop_while is_space r) as [|k0 r']; [done|].
  destruct (_ || is_space k0); [done|].
  destruct (lazy_until _ r') as [[[taken d] rest']|] eqn:Hl; [|done].
  intros [= <- <-]. apply FlowchartFacts.lazy_until_spec in Hl as (-> & _ & _).
  inversion Hd as [|? ? Hk0 Hr']; subst.
  apply Forall_app in Hr' as [Htaken Hrest].
  inversion Hrest as [|? ? Hdd Hrest']; subst.
  split; [|done]. repeat constructor; try done.
  apply Forall_app. split; [done|]. by repeat constructor.
Qed.

Lemma bareKey_preserves (P : N -> Prop) s out rest :
  P 34%N -> P 58%N -> Forall P s -> bareKey s = Some (out, rest) ->
  Forall P out /\ Forall P rest.
Proof.
  intros Hq Hcolon Ht. unfold bareKey. destruct s as [|c r]; [done|].
  destruct (_ || _)%N; [|done]. inversion Ht as [|? ? Hc Hr]; subst.
  pose proof (Forall_drop_while _ is_space _ Hr) as Hd.
  destruct (drop_while is_space r) as [|k0 r']; [done|].
  destruct (_ || is_space k0); [done|].
  destruct (lazy_until _ r') as [[[taken d] rest']|] eqn:Hl; [|done].
  intros [= <- <-]. apply FlowchartFacts.lazy_until_spec in Hl as (-> & _ & _).
  inversion Hd as [|? ? Hk0 Hr']; subst.
  apply Forall_app in Hr' as [Htaken Hrest].
  inversion Hrest as [|? ? Hdd Hrest']; subst.
  split; [|by apply Forall_drop_while]. repeat constructor; try done.
  apply Forall_app. split; [done|]. by repeat constructor.
Qed.

Lemma trailingComma_preserves (P : N -> Prop) s out rest :
  Forall P s -> trailingComma s = Some (out, rest) ->
  Forall P out /\ Forall P rest.
Proof.
  intros Ht. unfold trailingComma. destruct s as [|c r]; [done|].
  destruct (c =? 44)%N; [|done]. inversion Ht as [|? ? Hc Hr]; subst.
  pose proof (Forall_drop_while _ is_space _ Hr) as Hd.
  destruct (drop_while is_space r) as [|d r']; [done|].
  destruct (_ || _)%N; [|done]. intros [= <- <-].
  inversion Hd; subst. by repeat constructor.
Qed.

(** The repaired text is on one line. *)
Lemma cleanJson_no_line_break s : no_line_break (cleanJson s).
Proof.
  unfold cleanJson, no_line_break.
  apply replace_all_preserves.
  { intros t out rest. by apply bareValue_preserves. }
  apply replace_all_preserves.
  { intros t out rest. by apply bareKey_preserves. }
  apply replace_all_preserves.
  { intros t out rest. by apply trailingComma_preserves. }
  apply dropLineBreaks_no_line_break.
Qed.

(** **** The repair of a loose object *)

Lemma word_char_plain c :
  is_word_char c = true ->
  is_space c = false /\ is_line_terminator c = false /\
  (c <> 10 /\ c <> 13 /\ c <> 34 /\ c <> 39 /\ c <> 44 /\ c <> 58 /\
   c <> 91 /\ c <> 93 /\ c <> 123 /\ c <> 125)%N.
Proof.
  unfold is_word_char. rewrite !orb_true_iff, !andb_true_iff, !N.leb_le, N.eqb_eq.
  intros Hc. split; [|split].
  - apply not_true_is_false. unfold is_space.
    rewrite !orb_true_iff, !andb_true_iff, !N.leb_le, !N.eqb_eq. lia.
  - apply not_true_is_false. unfold is_line_terminator.
    rewrite !orb_true_iff, !N.eqb_eq. lia.
  - lia.
Qed.

Lemma word_cons s :
  word s -> exists c0 s', s = c0 :: s' /\ is_word_char c0 = true /\
                          Forall (fun c => is_word_char c = true) s'.
Proof.
  intros [Hne Hall]. destruct s as [|c0 s']; [done|].
  inversion Hall; subst. by exists c0, s'.
Qed.

(** The field of a loose object without its line break and its comma,
    and with its key in quotes. *)
Definition lineField (f : jsstring * jsstring) : jsstring :=
  [32; 32]%N ++ f.1 ++ [58; 32]%N ++ f.2.

Definition keyedField (f : jsstring * jsstring) : jsstring :=
  [34%N] ++ f.1 ++ [34; 58]%N ++ f.2.

Definition words (fields : list (jsstring * jsstring)) : Prop :=
  Forall (fun f => word f.1 /\ word f.2) fields.

Lemma dropLineBreaks_app s t :
  dropLineBreaks (s ++ t) = dropLineBreaks s ++ dropLineBreaks t.
Proof. apply List.filter_app. Qed.

Lemma dropLineBreaks_word s :
  Forall (fun c => is_word_char c = true) s -> dropLineBreaks s = s.
Proof.
  unfold dropLineBreaks. induction 1 as [|c s Hc _ IH]; simpl; [done|].
  destruct (word_char_plain c Hc) as (_ & _ & H10 & H13 & _).
  apply N.eqb_neq in H10, H13. by rewrite H10, H13, IH.
Qed.

Lemma dropLineBreaks_fields fields :
  words fields ->
  dropLineBreaks (concat (looseField <$> fields))
  = concat ((fun f => lineField f ++ [44%N]) <$> fields).
Proof.
  induction 1 as [|[k v] fields [[_ Hk] [_ Hv]] _ IH]; [done|].
  rewrite !fmap_cons, !concat_cons, dropLineBreaks_app, IH. f_equal.
  unfold looseField, lineField. simpl fst. simpl snd.
  rewrite !dropLineBreaks_app, (dropLineBreaks_word k Hk), (dropLineBreaks_word v Hv).
  by rewrite <- !app_assoc.
Qed.

Lemma dropLineBreaks_loose fields :
  words fields ->
  dropLineBreaks (looseObject fields)
  = [123%N] ++ concat ((fun f => lineField f ++ [44%N]) <$> fields) ++ [125%N].
Proof.
  intros Hw. unfold looseObject.
  by rewrite !dropLineBreaks_app, dropLineBreaks_fields.
Qed.

Lemma lineField_no_comma f :
  word f.1 /\ word f.2 ->
  Forall (fun c => (c =? 44)%N = false) (lineField f).
Proof.
  intros [[_ Hk] [_ Hv]]. unfold lineField.
  repeat (apply Forall_app; split); try by repeat constructor.
  - eapply Forall_impl; [exact Hk|]. intros c Hc. apply N.eqb_neq.
    by destruct (word_char_plain c Hc) as (_ & _ & _ & _ & _ & _ & ? & _).
  - eapply Forall_impl; [exact Hv|]. intros c Hc. apply N.eqb_neq.
    by destruct (word_char_plain c Hc) as (_ & _ & _ & _ & _ & _ & ? & _).
Qed.

Lemma commaSeparated_cons x y l :
  commaSeparated (x :: y :: l) = x ++ [44%N] ++ commaSeparated (y :: l).
Proof. done. Qed.

Lemma commaSeparated_more x l :
  l <> [] -> commaSeparated (x :: l) = x ++ [44%N] ++ commaSeparated l.
Proof. by destruct l. Qed.

Lemma trailingComma_start c r : (c =? 44)%N = false -> trailingComma (c :: r) = None.
Proof. intros Hc. simpl. by rewrite Hc. Qed.

Lemma trailingComma_loose fields :
  words fields ->
  replace_all trailingComma
    (concat ((fun f => lineField f ++ [44%N]) <$> fields) ++ [125%N])
  = commaSeparated (lineField <$> fields) ++ [125%N].
Proof.
  intros Hw. induction Hw as [|f fields Hf Hfs IH].
  - simpl. rewrite replace_all_skip by done. by rewrite replace_all_nil.
  - rewrite !fmap_cons, !concat_cons, <- !app_assoc.
    rewrite (replace_all_skip_prefix _ (fun c => (c =? 44)%N));
      [|apply trailingComma_start|by apply lineField_no_comma].
    destruct Hfs as [|[k' v'] fields' [Hk' Hv'] Hfs'].
    + cbn [fmap list_fmap concat app].
      rewrite (replace_all_match _ _ _ [125%N] []); [|done|simpl; lia].
      by rewrite replace_all_nil.
    + cbn [app]. rewrite replace_all_skip.
      * rewrite IH, (fmap_cons lineField), commaSeparated_cons.
        by rewrite <- !app_assoc.
      * destruct (word_cons k' Hk') as (k0 & kt & Hkeq & Hk0 & _). simpl in Hkeq.
        rewrite fmap_cons, concat_cons. unfold lineField at 1. simpl fst.
        rewrite Hkeq. cbn [app trailingComma drop_while]. simpl.
        destruct (word_char_plain k0 Hk0) as (-> & _ & Hne).
        assert ((k0 =? 93)%N = false) as -> by (apply N.eqb_neq; lia).
        assert ((k0 =? 125)%N = false) as -> by (apply N.eqb_neq; lia).
        done.
Qed.

Lemma drop_while_word k rest :
  word k -> drop_while is_space (k ++ rest) = k ++ rest.
Proof.
  intros Hk. destruct (word_cons k Hk) as (k0 & kt & -> & Hk0 & _). simpl.
  by destruct (word_char_plain k0 Hk0) as (-> & _).
Qed.

Lemma bareKey_start c r :
  ((c =? 123) || (c =? 44))%N = false -> bareKey (c :: r) = None.
Proof. intros Hc. simpl. by rewrite Hc. Qed.

Lemma bareKey_field c k v tail :
  c = 123%N \/ c = 44%N -> word k -> word v ->
  bareKey (c :: lineField (k, v) ++ tail)
  = Some (c :: 34%N :: k ++ [34; 58]%N, v ++ tail).
Proof.
  intros Hc Hk Hv. unfold lineField. simpl fst. simpl snd.
  rewrite <- !app_assoc. cbn [app bareKey].
  assert (((c =? 123) || (c =? 44))%N = true) as ->.
  { destruct Hc as [-> | ->]; done. }
  change (drop_while is_space (32%N :: 32%N :: ?s)) with (drop_while is_space s).
  rewrite (drop_while_word k) by done.
  destruct (word_cons k Hk) as (k0 & kt & -> & Hk0 & Hkt).
  cbn [app]. destruct (word_char_plain k0 Hk0) as (-> & _ & Hne).
  assert ((k0 =? 34)%N = false) as -> by (apply N.eqb_neq; lia).
  assert ((k0 =? 39)%N = false) as -> by (apply N.eqb_neq; lia).
  cbn [orb]. rewrite (FlowchartFacts.lazy_until_complete _ kt 58%N); [|done|].
  - change (drop_while is_space (32%N :: ?s)) with (drop_while is_space s).
    by rewrite (drop_while_word v).
  - eapply Forall_impl; [exact Hkt|]. intros d Hd.
    destruct (word_char_plain d Hd) as (_ & -> & Hned). split; [|done].
    apply N.eqb_neq. lia.
Qed.

Lemma word_no_key_start v :
  word v -> Forall (fun c => ((c =? 123) || (c =? 44))%N = false) v.
Proof.
  intros [_ Hv]. eapply Forall_impl; [exact Hv|]. intros c Hc.
  destruct (word_char_plain c Hc) as (_ & _ & Hne).
  apply orb_false_iff. split; apply N.eqb_neq; lia.
Qed.

Lemma bareKey_loose fields : forall c,
  c = 123%N \/ c = 44%N -> words fields -> fields <> [] ->
  replace_all bareKey (c :: commaSeparated (lineField <$> fields) ++ [125%N])
  = c :: commaSeparated (keyedField <$> fields) ++ [125%N].
Proof.
  induction fields as [|[k v] fields IH]; intros c Hc Hw Hne; [done|].
  inversion Hw as [|? ? [Hk Hv] Hfs]; subst. simpl in Hk, Hv.
  assert (Htail : forall tail,
            replace_all bareKey (c :: lineField (k, v) ++ tail)
            = c :: keyedField (k, v) ++ replace_all bareKey tail).
  { intros tail.
    rewrite (replace_all_match _ _ _ _ _ (bareKey_field c k v tail Hc Hk Hv)).
    - rewrite (replace_all_skip_prefix _ (fun c => ((c =? 123) || (c =? 44))%N));
        [|apply bareKey_start|by apply word_no_key_start].
      unfold keyedField. simpl fst. simpl snd. cbn [app].
      by rewrite <- !app_assoc.
    - unfold lineField. rewrite !length_app. simpl. lia. }
  destruct fields as [|f' fields'].
  - cbn [fmap list_fmap commaSeparated]. rewrite Htail.
    rewrite replace_all_skip by done. by rewrite replace_all_nil.
  - rewrite (fmap_cons lineField (k, v)), (fmap_cons keyedField (k, v)).
    rewrite !commaSeparated_more, <- !app_assoc by done.
    rewrite Htail. cbn [app]. rewrite IH; [done|by right|done|done].
Qed.

Lemma bareValue_start c r : (c =? 58)%N = false -> bareValue (c :: r) = None.
Proof. intros Hc. simpl. by rewrite Hc. Qed.

Lemma bareValue_field v d rest :
  d = 44%N \/ d = 125%N -> word v ->
  bareValue (58%N :: v ++ d :: rest)
  = Some (58%N :: 34%N :: v ++ [34%N; d], rest).
Proof.
  intros Hd Hv. cbn [bareValue]. change (58 =? 58)%N with true. cbv iota.
  rewrite (drop_while_word v) by done.
  destruct (word_cons v Hv) as (v0 & vt & -> & Hv0 & Hvt).
  cbn [app]. destruct (word_char_plain v0 Hv0) as (-> & _ & Hne).
  assert ((v0 =? 34)%N = false) as -> by (apply N.eqb_neq; lia).
  assert ((v0 =? 39)%N = false) as -> by (apply N.eqb_neq; lia).
  assert ((v0 =? 123)%N = false) as -> by (apply N.eqb_neq; lia).
  assert ((v0 =? 91)%N = false) as -> by (apply N.eqb_neq; lia).
  cbn [orb]. rewrite (FlowchartFacts.lazy_until_complete _ vt d); [done| |].
  - by destruct Hd as [-> | ->].
  - eapply Forall_impl; [exact Hvt|]. intros c Hc.
    destruct (word_char_plain c Hc) as (_ & -> & Hnec). split; [|done].
    apply orb_false_iff. split; apply N.eqb_neq; lia.
Qed.

Lemma word_no_colon k :
  word k -> Forall (fun c => (c =? 58)%N = false) k.
Proof.
  intros [_ Hk]. eapply Forall_impl; [exact Hk|]. intros c Hc.
  destruct (word_char_plain c Hc) as (_ & _ & Hne). apply N.eqb_neq. lia.
Qed.

Lemma bareValue_loose fields :
  words fields -> fields <> [] ->
  replace_all bareValue (commaSeparated (keyedField <$> fields) ++ [125%N])
  = commaSeparated (strictField <$> fields) ++ [125%N].
Proof.
  induction fields as [|[k v] fields IH]; intros Hw Hne; [done|].
  inversion Hw as [|? ? [Hk Hv] Hfs]; subst. simpl in Hk, Hv.
  assert (Htail : forall d rest, d = 44%N \/ d = 125%N ->
            replace_all bareValue (keyedField (k, v) ++ d :: rest)
            = strictField (k, v) ++ d :: replace_all bareValue rest).
  { intros d rest Hd. unfold keyedField, strictField. simpl fst. simpl snd.
    cbn [app]. rewrite replace_all_skip by done. f_equal.
    rewrite <- !app_assoc.
    rewrite (replace_all_skip_prefix _ (fun c => (c =? 58)%N));
      [|apply bareValue_start|by apply word_no_colon].
    f_equal. cbn [app]. rewrite replace_all_skip by done. f_equal.
    rewrite (replace_all_match _ _ _ _ _ (bareValue_field v d rest Hd Hv)).
    - cbn [app]. by rewrite <- !app_assoc.
    - rewrite length_app. simpl. lia. }
  destruct fields as [|f' fields'].
  - cbn [fmap list_fmap commaSeparated]. rewrite Htail by by right.
    by rewrite replace_all_nil.
  - rewrite (fmap_cons keyedField (k, v)), (fmap_cons strictField (k, v)).
    rewrite !commaSeparated_more, <- !app_assoc by done.
    cbn [app]. rewrite Htail by by left. rewrite IH; [done|done|done].
Qed.

(** The repair pass turns a loose object of words into the strict one. *)
Lemma cleanJson_loose fields :
  words fields -> cleanJson (looseObject fields) = strictObject fields.
Proof.
  intros Hw. unfold cleanJson. rewrite dropLineBreaks_loose by done.
  cbn [app]. rewrite (replace_all_skip trailingComma) by done.
  rewrite trailingComma_loose by done.
  destruct fields as [|f fields]; [by vm_compute|].
  rewrite bareKey_loose; [|by left|done|done].
  rewrite (replace_all_skip bareValue) by done.
  by rewrite bareValue_loose.
Qed.

(** **** The extraction *)

Lemma drop_while_found {A} (p : A -> bool) pre x s :
  Forall (fun c => p c = true) pre -> p x = false ->
  drop_while p (pre ++ x :: s) = x :: s.
Proof.
  intros Hpre Hx. induction Hpre as [|c pre Hc _ IH]; simpl.
  - by rewrite Hx.
  - by rewrite Hc.
Qed.

Lemma drop_while_split {A} (p : A -> bool) l x s :
  drop_while p l = x :: s ->
  exists pre, l = pre ++ x :: s /\ Forall (fun c => p c = true) pre /\ p x = false.
Proof.
  induction l as [|c l IH]; simpl; [done|].
  destruct (p c) eqn:Hc.
  - intros Hd. destruct (IH Hd) as (pre & -> & Hpre & Hx).
    exists (c :: pre). split; [done|]. split; [by constructor|done].
  - intros [= -> ->]. by exists [].
Qed.

Lemma not_elem_of_code (c : N) (s : jsstring) :
  c ∉ s -> Forall (fun d => negb (d =? c)%N = true) s.
Proof.
  intros Hc. apply Forall_forall. intros d Hd.
  apply negb_true_iff, N.eqb_neq. intros ->. done.
Qed.

(** The match runs from the first opening brace to the last closing one. *)
Lemma matchBraces_found pre mid post :
  123%N ∉ pre -> 125%N ∉ post ->
  matchBraces (pre ++ [123%N] ++ mid ++ [125%N] ++ post)
  = Some ([123%N] ++ mid ++ [125%N]).
Proof.
  intros Hpre Hpost. unfold matchBraces. cbn [app].
  rewrite (drop_while_found _ pre 123%N); [|by apply not_elem_of_code|done].
  rewrite reverse_app, reverse_cons, <- app_assoc. cbn [app].
  rewrite (drop_while_found _ (reverse post) 125%N); [| |done].
  2: { apply not_elem_of_code. by rewrite elem_of_reverse. }
  by rewrite reverse_cons, reverse_involutive.
Qed.

(** There is no match when no closing brace follows an opening one. *)
Lemma matchBraces_none s :
  (forall pre mid post, s <> pre ++ [123%N] ++ mid ++ [125%N] ++ post) ->
  matchBraces s = None.
Proof.
  intros Hno. unfold matchBraces.
  destruct (drop_while _ s) as [|c body] eqn:Hopen; [done|].
  destruct (drop_while _ (reverse body)) as [|d rb] eqn:Hclose; [done|].
  exfalso. apply drop_while_split in Hopen as (pre & -> & _ & Hc).
  apply drop_while_split in Hclose as (rpost & Hbody & _ & Hd).
  apply negb_false_iff, N.eqb_eq in Hc, Hd. subst c d.
  apply (Hno pre (reverse rb) (reverse rpost)). f_equal. cbn [app]. f_equal.
  rewrite <- (reverse_involutive body), Hbody.
  by rewrite reverse_app, reverse_cons, <- app_assoc.
Qed.

(** C7. [analyzeFlowchartRelationship] never rejects, and there is one
    repair of texts, the same for every parser, such that: without a
    flowchart, without an answer or without a text in it, and for a text
    in which no closing brace follows an opening one, the result is the
    empty one, a null branch point and no shared node. Otherwise the
    text from the first opening brace to the last closing one is
    parsed; when that fails its repair is parsed, once; when that fails
    too the result is the empty one. The repair writes a text without
    line break, and it turns an object spelled with a line for every
    field, bare words as keys and values and a comma after the last
    field into the JSON text of that object. *)
Theorem analyzeFlowchartRelationship_repairs_or_empty :
  exists repair : jsstring -> jsstring,
    (forall jsonText, no_line_break (repair jsonText)) /\
    (forall fields, words fields ->
       repair (looseObject fields) = strictObject fields) /\
    forall (JSON_parse : jsstring -> option Json.value)
           (flowchart1 flowchart2 : option Flowchart.t)
           (text1 text2 : jsstring) (r : reply),
    exists result,
      analyzeFlowchartRelationship JSON_parse flowchart1 flowchart2 text1 text2 r
        = Resolved result /\
      (flowchart1 = None \/ flowchart2 = None \/ r = NetworkError \/ r = Body None ->
       result = {| RelationshipResult.branchPoint := Json.Null;
                   RelationshipResult.sharedNodes := [] |}) /\
      forall responseText,
        is_Some flowchart1 -> is_Some flowchart2 -> r = Body (Some responseText) ->
        ((forall pre mid post,
            responseText <> pre ++ [123%N] ++ mid ++ [125%N] ++ post) ->
         result = {| RelationshipResult.branchPoint := Json.Null;
                     RelationshipResult.sharedNodes := [] |}) /\
        (forall pre mid post,
           responseText = pre ++ [123%N] ++ mid ++ [125%N] ++ post ->
           123%N ∉ pre -> 125%N ∉ post ->
           result =
             match JSON_parse ([123%N] ++ mid ++ [125%N]) with
             | Some parsedResult => resultOf parsedResult
             | None =>
                 match JSON_parse (repair ([123%N] ++ mid ++ [125%N])) with
                 | Some parsedResult => resultOf parsedResult
                 | None =>
                     {| RelationshipResult.branchPoint := Json.Null;
                        RelationshipResult.sharedNodes := [] |}
                 end
             end).
Proof.
  exists cleanJson. split; [apply cleanJson_no_line_break|].
  split; [apply cleanJson_loose|].
  intros JSON_parse flowchart1 flowchart2 text1 text2 r. eexists.
  split; [apply analyzeFlowchartRelationship_cases|]. split.
  - intros [-> |[-> |[-> | ->]]]; try done.
    + by destruct flowchart1.
    + by destruct flowchart1, flowchart2.
    + by destruct flowchart1, flowchart2.
  - intros responseText [f1 ->] [f2 ->] ->. split.
    + intros Hno. by rewrite matchBraces_none.
    + intros pre mid post -> Hpre Hpost. by rewrite matchBraces_found.
Qed.

Definition looseFields : list (jsstring * jsstring) :=
  [ (utf16 "branchPoint", utf16 "B"); (utf16 "sharedNodes", utf16 "none") ].

Definition looseReply : jsstring :=
  utf16 "Sure: " ++ looseObject looseFields ++ utf16 " Done.".

(** A parser that reads the JSON text of this one object only. *)
Definition parseStrict (s : jsstring) : option Json.value :=
  if decide (s = strictObject looseFields) then
    Some (Json.Obj [ (utf16 "branchPoint", Json.Str (utf16 "B"));
                     (utf16 "sharedNodes", Json.Str (utf16 "none")) ])
  else None.

Lemma analyzeFlowchartRelationship_repairs_or_empty_witness :
  analyzeFlowchartRelationship parseStrict
    (Some (Flowchart.mk [] [])) (Some (Flowchart.mk [] [])) [] []
    (Body (Some looseReply))
  = Resolved {| RelationshipResult.branchPoint := Json.Str (utf16 "B");
                RelationshipResult.sharedNodes := [] |}.
Proof.
  destruct analyzeFlowchartRelationship_repairs_or_empty
    as (repair & _ & Hloose & Hrun).
  destruct (Hrun parseStrict (Some (Flowchart.mk [] [])) (Some (Flowchart.mk [] []))
              [] [] (Body (Some looseReply))) as (result & -> & _ & Hreply).
  f_equal.
  destruct (Hreply looseReply) as [_ Hfound]; [by eexists|by eexists|done|].
  rewrite (Hfound (utf16 "Sure: ") (concat (looseField <$> looseFields) ++ [10%N])
             (utf16 " Done.")).
  - change ([123%N] ++ (concat (looseField <$> looseFields) ++ [10%N]) ++ [125%N])
      with (looseObject looseFields).
    rewrite Hloose.
    + by vm_compute.
    + repeat constructor; try done; simpl; by repeat constructor.
  - by vm_compute.
  - apply (bool_decide_unpack _). by vm_compute.
  - apply (bool_decide_unpack _). by vm_compute.
Defined.

Section GenerateAudio.

Variables QueryJson ArrayBuffer : Type.
Variable audio_query : jsstring -> Z -> option QueryJson.
Variable withSpeedScale : QueryJson -> QueryJson.
Variable synthesis : QueryJson -> Z -> option ArrayBuffer.

(** The two requests to the speech service for the text [readable]. *)
Definition synthesize (readable : jsstring) (speakerId : Z) : promise ArrayBuffer :=
  match audio_query (Voicevox.preprocessText readable) speakerId with
  | Some queryJson =>
      match synthesis
              (if decide (speakerId = 13) then withSpeedScale queryJson
               else queryJson) speakerId with
      | Some audio => Resolved audio
      | None => Rejected
      end
  | None => Rejected
  end.

(** C10. [convertToReadableText] always resolves: with the trimmed answer,
    and with the input text when the request fails or its answer holds no
    text. [generateAudio] then goes on with that text, so it settles as
    the two requests to the speech service do. *)
Theorem convertToReadableText_falls_back (text : jsstring) (speakerId : Z) (r : reply) :
  convertToReadableText text r =
    Resolved match r with
             | Body (Some result) => Regex.trim result
             | _ => text
             end /\
  Voicevox.generateAudio QueryJson ArrayBuffer audio_query withSpeedScale synthesis
    text speakerId r =
    synthesize match r with
               | Body (Some result) => Regex.trim result
               | _ => text
               end speakerId.
Proof.
  unfold Voicevox.generateAudio, convertToReadableText, synthesize. split.
  - by destruct r as [|[result|]].
  - destruct r as [|[result|]]; simpl;
      (destruct (audio_query _ speakerId) as [q|]; simpl; [|done];
       by destruct (synthesis _ speakerId)).
Qed.

End GenerateAudio.

End AnalyzerFacts.

(** ** The audio controls *)

Module AudioFacts.
Import Voicevox TextEditor.

Section PlayAudio.

Variable ArrayBuffer : Type.
Variable decodeAudioData : ArrayBuffer -> option Z.

(** What the play action asks of the outside. *)
Definition requests (e : effect) : option jsstring :=
  match e with
  | GenerateAudio text _ => Some text
  | _ => None
  end.

(** C9. Audio is enabled exactly for a text of 1 to 500 code units. For
    any other text, the empty text and a text of 501 code units or more,
    the play action changes nothing, asks for no audio and plays
    nothing. For a text of 1 to 500 code units it does something: it
    pauses, plays, or asks for the audio of this very text. *)
Theorem play_needs_enabled_text (st : t) (text : jsstring) (versionIndex : Z)
    (generated : option ArrayBuffer) (currentTime : Z) :
  (isAudioEnabled text = true <-> 1 <= len text <= 500) /\
  (len text = 0 \/ 501 <= len text ->
   handlePlayAudio ArrayBuffer decodeAudioData st text versionIndex generated
     currentTime = (st, [])) /\
  (1 <= len text <= 500 ->
   let effects :=
     (handlePlayAudio ArrayBuffer decodeAudioData st text versionIndex generated
        currentTime).2 in
   effects <> [] /\
   forall e requested, e ∈ effects -> requests e = Some requested ->
     requested = text).
Proof.
  assert (Hen : isAudioEnabled text = true <-> 1 <= len text <= 500).
  { unfold isAudioEnabled, MAX_TEXT_LENGTH.
    rewrite andb_true_iff, !bool_decide_eq_true. lia. }
  split; [done|]. split.
  - intros Hout. unfold handlePlayAudio.
    assert (isAudioEnabled text = false) as ->; [|done].
    apply not_true_is_false. rewrite Hen. lia.
  - intros Hin. unfold handlePlayAudio.
    rewrite (proj2 Hen Hin). simpl.
    destruct (getCurrentAudioState st versionIndex) as [cur st1].
    assert (Hreq : forall l : list effect,
              Forall (fun e => forall requested,
                                 requests e = Some requested -> requested = text) l ->
              forall e requested, e ∈ l -> requests e = Some requested ->
                requested = text).
    { intros l Hl e requested He. rewrite Forall_forall in Hl. by apply Hl. }
    destruct (state cur);
      try (split; [done|]; apply Hreq; by repeat constructor);
      (case_decide; [lia|]; case_decide;
       [|split; [done|]; apply Hreq; by repeat constructor];
       destruct generated as [a|];
       [destruct (decodeAudioData a)|];
       (split; [done|]; apply Hreq; repeat constructor; try done;
        by intros requested [= <-])).
Qed.

End PlayAudio.

(** The two sides of the limit: 501 code units, and 500. *)
Lemma play_needs_enabled_text_witness :
  handlePlayAudio unit (fun _ => Some 10) (mount 0) (repeat 97%N 501) 0 (Some tt) 0
    = (mount 0, []) /\
  (handlePlayAudio unit (fun _ => Some 10) (mount 0) (repeat 97%N 500) 0 (Some tt) 0).2
    <> [].
Proof.
  split.
  - apply (play_needs_enabled_text unit (fun _ => Some 10) (mount 0)
             (repeat 97%N 501) 0 (Some tt) 0).
    right. unfold len. rewrite repeat_length. lia.
  - apply (play_needs_enabled_text unit (fun _ => Some 10) (mount 0)
             (repeat 97%N 500) 0 (Some tt) 0).
    unfold len. rewrite repeat_length. lia.
Defined.

Lemma some_streq (versions : list jsstring) (key : jsstring) :
  JS.some (fun v => streq v key) versions = true <-> key ∈ versions.
Proof.
  unfold JS.some, streq. rewrite existsb_exists. split.
  - intros (v & Hin & Heq). apply bool_decide_eq_true in Heq as ->.
    by apply list_elem_of_In.
  - intros Hin. exists key. split; [by apply list_elem_of_In|].
    by apply bool_decide_eq_true.
Qed.

(** The first version is played from tick 0 and paused at tick 5. *)
Definition paused_at_5 : t :=
  (handlePlayAudio unit (fun _ => Some 10)
     (handlePlayAudio unit (fun _ => Some 10) (mount 0) (utf16 "abc") 0 (Some tt) 0).1
     (utf16 "abc") 0 (Some tt) 5).1.

(** C8 as the specification words it: after the switch the audio state
    of the previous version, when that version is still in the list, has
    its buffer and its offset. *)
Definition switch_keeps_offset (st : t) (versionIndex : Z) (versions : list jsstring)
  : Prop :=
  forall a p,
    versionKey (previousVersionIndex st) ∈ versions ->
    audioStates st !! versionKey (previousVersionIndex st) = Some a ->
    players st !! audioPlayer a = Some p ->
    exists p',
      players (versionSwitchEffect st versionIndex versions) !! audioPlayer a
        = Some p' /\
      AudioPlayer.audioBuffer p' = AudioPlayer.audioBuffer p /\
      AudioPlayer.offset p' = AudioPlayer.offset p.

(** C8, as stated, fails: the switch calls [reset], which sets the
    offset of the paused player back to 0. *)
Lemma switch_resets_offset :
  (AudioPlayer.offset <$> players paused_at_5 !! 0%nat) = Some 5 /\
  (AudioPlayer.offset <$>
     players (versionSwitchEffect paused_at_5 1 [utf16 "v1"; utf16 "v2"]) !! 0%nat)
    = Some 0 /\
  ~ switch_keeps_offset paused_at_5 1 [utf16 "v1"; utf16 "v2"].
Proof.
  split; [vm_compute; reflexivity|]. split; [vm_compute; reflexivity|].
  intros Hkeep.
  destruct (Hkeep {| audioPlayer := 0; state := paused; isGenerating := false |}
              {| AudioPlayer.audioContext := true; AudioPlayer.audioBuffer := Some 10;
                 AudioPlayer.sourceNode := Some false; AudioPlayer.startTime := 0;
                 AudioPlayer.offset := 5; AudioPlayer.isPlaying := false |})
    as (p' & Hp' & _ & Hoff).
  - vm_compute. apply list_elem_of_here.
  - vm_compute. reflexivity.
  - vm_compute. reflexivity.
  - vm_compute in Hp'. injection Hp' as <-. discriminate Hoff.
Qed.

(** C8, amended. When the version is switched, the audio state kept
    under the key of the previous position is looked at. If a version of
    the list has that key as its id, the state stays, marked initial: its
    player keeps the decoded buffer, is stopped and has its offset back
    at 0. If no version has it, the state is removed. Every other audio
    state is left as it is. *)
Theorem switch_resets_or_releases (st : t) (versionIndex : Z) (versions : list jsstring) :
  previousVersionIndex st <> versionIndex ->
  let key := versionKey (previousVersionIndex st) in
  let st' := versionSwitchEffect st versionIndex versions in
  previousVersionIndex st' = versionIndex /\
  (forall k, k <> key -> audioStates st' !! k = audioStates st !! k) /\
  (key ∈ versions ->
   forall a p,
     audioStates st !! key = Some a ->
     players st !! audioPlayer a = Some p ->
     audioStates st' !! key = Some (withState initial a) /\
     exists p',
       players st' !! audioPlayer a = Some p' /\
       AudioPlayer.audioBuffer p' = AudioPlayer.audioBuffer p /\
       AudioPlayer.sourceNode p' = AudioPlayer.stopSource (AudioPlayer.sourceNode p) /\
       AudioPlayer.isPlaying p' = false /\
       AudioPlayer.offset p' = 0) /\
  (key ∉ versions ->
   audioStates st' !! key = None /\ players st' = players st).
Proof.
  intros Hne. simpl. unfold versionSwitchEffect. rewrite decide_True by done.
  destruct (JS.some _ versions) eqn:Hsome; simpl.
  - apply some_streq in Hsome.
    split; [done|]. split; [|split; [|done]].
    + intros k Hk.
      destruct (audioStates st !! versionKey (previousVersionIndex st)); simpl;
        [by rewrite lookup_insert_ne|done].
    + intros _ a p Ha Hp. rewrite Ha. simpl. split; [by rewrite lookup_insert_eq|].
      exists (AudioPlayer.reset p). split; [|done].
      by rewrite list_lookup_alter_eq, Hp.
  - assert (versionKey (previousVersionIndex st) ∉ versions) as Hni.
    { intros Hin. apply some_streq in Hin. congruence. }
    split; [done|]. split; [|split; [done|]].
    + intros k Hk. by rewrite lookup_delete_ne.
    + intros _. by rewrite lookup_delete_eq.
Qed.

Lemma switch_resets_or_releases_witness :
  let st' := versionSwitchEffect paused_at_5 1 [utf16 "v1"; utf16 "v2"] in
  previousVersionIndex st' = 1 /\
  audioStates st' !! utf16 "v1" =
    Some {| audioPlayer := 0; state := initial; isGenerating := false |}.
Proof.
  destruct (switch_resets_or_releases paused_at_5 1 [utf16 "v1"; utf16 "v2"])
    as (Hprev & _ & Hkept & _); [vm_compute; discriminate|].
  split; [exact Hprev|].
  refine (proj1 (Hkept _ {| audioPlayer := 0; state := paused; isGenerating := false |}
                   {| AudioPlayer.audioContext := true;
                      AudioPlayer.audioBuffer := Some 10;
                      AudioPlayer.sourceNode := Some false;
                      AudioPlayer.startTime := 0;
                      AudioPlayer.offset := 5;
                      AudioPlayer.isPlaying := false |} _ _)).
  - vm_compute. apply list_elem_of_here.
  - vm_compute. reflexivity.
  - vm_compute. reflexivity.
Defined.

End AudioFacts.

(** ** Who is compared with whom *)

Module RelationshipFacts.
Import Control GeminiService Relationships.

Definition callOf (original branched : StoryVersion.t) : call :=
  {| flowchart1 := StoryVersion.flowchartData original;
     flowchart2 := StoryVersion.flowchartData branched;
     text1 := StoryVersion.text original;
     text2 := StoryVersion.text branched |}.

(** The versions that are neighbours in the list, with the position of
    the later one. *)
Fixpoint neighbours_from (i : Z) (prev : StoryVersion.t) (rest : list StoryVersion.t)
  : list (Z * StoryVersion.t * StoryVersion.t) :=
  match rest with
  | [] => []
  | cur :: rest' => (i, prev, cur) :: neighbours_from (i + 1) cur rest'
  end.

Definition neighbours (versions : list StoryVersion.t)
  : list (Z * StoryVersion.t * StoryVersion.t) :=
  match versions with
  | [] => []
  | first :: rest => neighbours_from 1 first rest
  end.

(** What the Version Map view analyses: neighbours that both have a
    flowchart, under the key of their positions. *)
Definition neighbourTask (n : Z * StoryVersion.t * StoryVersion.t)
  : option (jsstring * call) :=
  let '(i, prev, cur) := n in
  match StoryVersion.flowchartData cur, StoryVersion.flowchartData prev with
  | Some _, Some _ => Some (positionKey i, callOf prev cur)
  | _, _ => None
  end.

Definition neighbourTasks (versions : list StoryVersion.t) : list (jsstring * call) :=
  omap neighbourTask (neighbours versions).

(** The parent of a version: the first version of the list whose id is
    the non-empty parent id of the version. *)
Definition parentOf (versions : list StoryVersion.t) (version : StoryVersion.t)
  : option StoryVersion.t :=
  match StoryVersion.parentVersionId version with
  | Some parentId =>
      if decide (parentId = []) then None
      else JS.find (fun v => streq (StoryVersion.id v) parentId) versions
  | None => None
  end.

(** What [App] analyses: the parent edges, under the key of the two ids. *)
Definition parentTasks (versions : list StoryVersion.t) : list (jsstring * call) :=
  omap (fun version =>
          (fun parentVersion =>
             (idKey version parentVersion, callOf parentVersion version))
            <$> parentOf versions version)
       versions.

Lemma positionKey_inj i j :
  1 <= i -> 1 <= j -> positionKey i = positionKey j -> i = j.
Proof.
  intros Hi Hj. unfold positionKey.
  change (utf16 "-") with [45%N]. cbn [app]. intros Heq.
  apply BasicFacts.split_at_dash in Heq as [Heq _];
    [|apply BasicFacts.of_int_digits; lia..].
  by apply BasicFacts.of_int_inj in Heq.
Qed.

(** The keys of the Version Map view are the keys of increasing
    positions, so no two tasks share one. *)
Lemma neighbour_keys_from i prev rest :
  exists positions,
    (omap neighbourTask (neighbours_from i prev rest)).*1 = positionKey <$> positions /\
    NoDup positions /\ Forall (fun k => i <= k) positions.
Proof.
  revert i prev. induction rest as [|cur rest IH]; intros i prev.
  - exists []. repeat split; constructor.
  - cbn [neighbours_from]. rewrite BasicFacts.omap_cons.
    destruct (IH (i + 1) cur) as (positions & Hkeys & Hsorted & Hall).
    unfold neighbourTask at 1.
    destruct (StoryVersion.flowchartData cur), (StoryVersion.flowchartData prev).
    + exists (i :: positions). split; [by rewrite fmap_cons, Hkeys|]. split.
      * constructor; [|done]. intros Hin. rewrite Forall_forall in Hall.
        specialize (Hall i Hin). simpl in Hall. lia.
      * constructor; [lia|]. eapply Forall_impl; [exact Hall|].
        intros k Hk. simpl in Hk. lia.
    + exists positions. repeat split; try done.
      eapply Forall_impl; [exact Hall|]. intros k Hk. simpl in Hk. lia.
    + exists positions. repeat split; try done.
      eapply Forall_impl; [exact Hall|]. intros k Hk. simpl in Hk. lia.
    + exists positions. repeat split; try done.
      eapply Forall_impl; [exact Hall|]. intros k Hk. simpl in Hk. lia.
Qed.

Lemma neighbour_keys_distinct versions :
  NoDup (neighbourTasks versions).*1.
Proof.
  unfold neighbourTasks, neighbours. destruct versions as [|first rest].
  - constructor.
  - destruct (neighbour_keys_from 1 first rest) as (positions & -> & Hsorted & Hall).
    apply NoDup_fmap_2_strong.
    + intros a b Ha Hb. rewrite Forall_forall in Hall.
      apply positionKey_inj; by apply Hall.
    + done.
Qed.

Section Analyzer.

Variable JSON_parse : jsstring -> option Json.value.
Variable replies : nat -> reply.

(** The value the [n]-th invocation resolves with. *)
Definition resultFor (n : nat) (c : call) : RelationshipResult.t :=
  try_catch
    (analyzeBody JSON_parse (flowchart1 c) (flowchart2 c) (text1 c) (text2 c)
       (replies n))
    RelationshipResult.empty.

(** The tasks are run in order, one invocation each; a later result
    replaces an earlier one that has the same key. *)
Definition runTask (acc : progress) (task : jsstring * call) : progress :=
  (acc.1 ++ [task.2], <[task.1 := resultFor (length acc.1) task.2]> acc.2).

Definition runTasks (tasks : list (jsstring * call)) : progress :=
  foldl runTask ([], ∅) tasks.

Lemma analyzeInto_runTask key c acc :
  analyzeInto JSON_parse replies key c acc = Ok (runTask acc (key, c)).
Proof. reflexivity. Qed.

Lemma runTasks_calls_from acc tasks :
  (foldl runTask acc tasks).1 = acc.1 ++ tasks.*2.
Proof.
  revert acc. induction tasks as [|task tasks IH]; intros acc; simpl.
  - by rewrite app_nil_r.
  - rewrite IH. simpl. by rewrite <- app_assoc.
Qed.

Lemma runTasks_snoc tasks task :
  runTasks (tasks ++ [task]) = runTask (runTasks tasks) task.
Proof. unfold runTasks. by rewrite foldl_app. Qed.

Lemma runTasks_length tasks : length (runTasks tasks).1 = length tasks.
Proof.
  unfold runTasks. rewrite runTasks_calls_from. simpl. by rewrite length_fmap.
Qed.

(** With keys that differ, the result of every invocation is found
    under the key of its task. *)
Lemma runTasks_lookup tasks n key c :
  NoDup tasks.*1 ->
  tasks !! n = Some (key, c) ->
  (runTasks tasks).2 !! key = Some (resultFor n c).
Proof.
  revert n. induction tasks as [|task tasks IH] using rev_ind; intros n Hnd Hn.
  - done.
  - rewrite fmap_app in Hnd. apply NoDup_app in Hnd as (Hnd & Hfresh & _).
    rewrite runTasks_snoc. unfold runTask. cbn [snd].
    destruct (decide (n < length tasks)%nat) as [Hlt|Hge].
    + rewrite lookup_app_l in Hn by done.
      rewrite lookup_insert_ne; [by apply IH|].
      intros <-. apply (Hfresh task.1).
      * apply (list_elem_of_fmap_2 fst tasks (task.1, c)).
        by eapply list_elem_of_lookup_2.
      * apply list_elem_of_here.
    + rewrite lookup_app_r in Hn by lia.
      destruct (n - length tasks)%nat as [|m] eqn:Hm; [|by destruct m].
      injection Hn as ->. simpl. rewrite lookup_insert_eq.
      rewrite runTasks_length. do 2 f_equal. lia.
Qed.

Lemma versionMap_loop pre prev rest acc :
  forEach (versionMapBody JSON_parse replies (pre ++ prev :: rest)) acc
    (Z.of_nat <$> seq (S (length pre)) (length rest)) =
  Ok (foldl runTask acc
        (omap neighbourTask
           (neighbours_from (Z.of_nat (S (length pre))) prev rest))).
Proof.
  revert pre prev acc. induction rest as [|cur rest IH]; intros pre prev acc.
  - reflexivity.
  - cbn [length seq fmap list_fmap forEach neighbours_from].
    rewrite BasicFacts.omap_cons. unfold versionMapBody at 1.
    assert (Hcur : at_index (pre ++ prev :: cur :: rest) (Z.of_nat (S (length pre)))
                   = Some cur).
    { unfold at_index. rewrite decide_True by lia. rewrite Nat2Z.id.
      rewrite (lookup_app_r pre) by lia.
      replace (S (length pre) - length pre)%nat with 1%nat by lia. done. }
    assert (Hprev : at_index (pre ++ prev :: cur :: rest)
                      (Z.of_nat (S (length pre)) - 1) = Some prev).
    { unfold at_index. rewrite decide_True by lia.
      replace (Z.to_nat (Z.of_nat (S (length pre)) - 1)) with (length pre) by lia.
      rewrite (lookup_app_r pre) by lia. by rewrite Nat.sub_diag. }
    rewrite Hcur, Hprev. cbn [await bind].
    specialize (IH (pre ++ [prev]) cur). rewrite <- app_assoc in IH.
    rewrite length_app in IH. cbn [length app] in IH.
    replace (length pre + 1)%nat with (S (length pre)) in IH by lia.
    replace (Z.of_nat (S (length pre)) + 1) with (Z.of_nat (S (S (length pre))))
      by lia.
    unfold neighbourTask at 1.
    destruct (StoryVersion.flowchartData cur) eqn:Hc,
             (StoryVersion.flowchartData prev) eqn:Hp;
      cbn [bind foldl]; try apply IH.
    rewrite <- Hc, <- Hp. rewrite analyzeInto_runTask. cbn [bind]. apply IH.
Qed.

Lemma app_loop versions rest acc :
  forEach (appBody JSON_parse replies versions) acc rest =
  Ok (foldl runTask acc
        (omap (fun version =>
                 (fun parentVersion =>
                    (idKey version parentVersion, callOf parentVersion version))
                   <$> parentOf versions version) rest)).
Proof.
  revert acc. induction rest as [|version rest IH]; intros acc; [done|].
  cbn [forEach]. rewrite BasicFacts.omap_cons. unfold appBody at 1, parentOf at 1.
  destruct (StoryVersion.parentVersionId version) as [parentId|];
    cbn [bind fmap option_fmap option_map foldl]; [|apply IH].
  case_decide; cbn [bind fmap option_fmap option_map foldl]; [apply IH|].
  destruct (JS.find _ versions) as [parentVersion|];
    cbn [bind fmap option_fmap option_map foldl]; [|apply IH].
  rewrite analyzeInto_runTask. cbn [bind]. apply IH.
Qed.

(** C4, amended. The Version Map view invokes the analyzer once for each
    pair of versions that are neighbours in the list and both have a
    flowchart, and stores the result under a key built from the two
    positions. It is [analyzeVersionRelationships] of [App] that invokes
    it once for each version whose parent id is the id of a version of
    the list, with a key built from the two ids. Both compute all their
    entries anew on every run. *)
Theorem relationship_analysis_pairs (versions : list StoryVersion.t) :
  analyzeRelationships JSON_parse replies versions
    = Ok (runTasks (neighbourTasks versions)) /\
  (runTasks (neighbourTasks versions)).1 = (neighbourTasks versions).*2 /\
  (forall n key c,
     neighbourTasks versions !! n = Some (key, c) ->
     (runTasks (neighbourTasks versions)).2 !! key = Some (resultFor n c)) /\
  analyzeVersionRelationships JSON_parse replies versions
    = Ok (runTasks (parentTasks versions)) /\
  (runTasks (parentTasks versions)).1 = (parentTasks versions).*2.
Proof.
  split; [|split; [apply runTasks_calls_from|split; [|split;
    [apply app_loop|apply runTasks_calls_from]]]].
  2: { intros n key c. apply runTasks_lookup, neighbour_keys_distinct. }
  unfold analyzeRelationships, runTasks, neighbourTasks, neighbours.
  destruct versions as [|first rest]; [done|].
  replace (length (first :: rest) - 1)%nat with (length rest) by (simpl; lia).
  apply (versionMap_loop [] first rest).
Qed.

End Analyzer.

Import App.

Definition analysis_with_flowchart : GeminiResponse.t :=
  {| GeminiResponse.text := [];
     GeminiResponse.flowchart := Some {| Flowchart.nodes := []; Flowchart.edges := [] |};
     GeminiResponse.characters := []; GeminiResponse.plot := [] |}.

Definition text_a : jsstring := repeat 97%N 50.
Definition text_b : jsstring := repeat 98%N 50.
Definition text_c : jsstring := repeat 99%N 50.

(** Write the root, rewrite it, go back to the root and rewrite it
    again: v2 and v3 are both children of v1. *)
Definition two_branches : list action :=
  [ TextChange text_a (Some analysis_with_flowchart) 0;
    ModifyEntireText StoreFacts.sample_prompt (Some text_b)
      (Some analysis_with_flowchart) (Some analysis_with_flowchart) 1;
    VersionChange 0;
    ModifyEntireText StoreFacts.sample_prompt (Some text_c)
      (Some analysis_with_flowchart) (Some analysis_with_flowchart) 2 ].

Definition fc0 : option Flowchart.t :=
  Some {| Flowchart.nodes := []; Flowchart.edges := [] |}.

(** The store that [two_branches] leads to. *)
Definition two_branches_store : list StoryVersion.t :=
  match execs init two_branches with
  | Some s => versions s
  | None => []
  end.

Lemma relationship_analysis_pairs_witness :
  let JSON_parse := fun _ : jsstring => @None Json.value in
  let replies := fun _ : nat => NetworkError in
  analyzeRelationships JSON_parse replies two_branches_store
    = Ok (runTasks JSON_parse replies (neighbourTasks two_branches_store)) /\
  (runTasks JSON_parse replies (neighbourTasks two_branches_store)).2 !! utf16 "2-1"
    = Some (resultFor JSON_parse replies 1 (mkCall fc0 fc0 text_b text_c)).
Proof.
  intros JSON_parse replies.
  destruct (relationship_analysis_pairs JSON_parse replies two_branches_store)
    as (Hrun & _ & Hlookup & _).
  split; [exact Hrun|]. apply Hlookup. vm_compute. reflexivity.
Defined.

(** C4, as stated, fails: with v2 and v3 both children of v1, the
    Version Map view compares v1 with v2 and v2 with v3, under the keys
    1-0 and 2-1; the parent edge from v1 to v3 is not analysed. *)
Lemma version_map_compares_neighbours :
  exists s, execs init two_branches = Some s /\
    StoreFacts.parents (versions s) = [None; Some (utf16 "v1"); Some (utf16 "v1")] /\
    (parentTasks (versions s)).*2 =
      [ mkCall fc0 fc0 text_a text_b; mkCall fc0 fc0 text_a text_c ] /\
    (parentTasks (versions s)).*1 = [utf16 "v2-v1"; utf16 "v3-v1"] /\
    (exists calls cache,
       analyzeRelationships (fun _ => None) (fun _ => NetworkError) (versions s)
         = Ok (calls, cache) /\
       calls = [ mkCall fc0 fc0 text_a text_b; mkCall fc0 fc0 text_b text_c ] /\
       cache !! utf16 "1-0" = Some RelationshipResult.empty /\
       cache !! utf16 "2-1" = Some RelationshipResult.empty /\
       cache !! utf16 "v3-v1" = None /\
       calls <> (parentTasks (versions s)).*2).
Proof.
  eexists. split; [vm_compute; reflexivity|].
  split; [reflexivity|]. split; [vm_compute; reflexivity|].
  split; [vm_compute; reflexivity|].
  eexists _, _. split; [vm_compute; reflexivity|].
  split; [reflexivity|]. split; [vm_compute; reflexivity|].
  split; [vm_compute; reflexivity|]. split; [vm_compute; reflexivity|].
  vm_compute. discriminate.
Qed.

End RelationshipFacts.

(** ** More on the version store *)

Module StoreExtras.
Import App BasicFacts StoreFacts.

(** The first version is the root as [handleTextChange] made it, and the
    rename dialog is never open for it. *)
Definition root_fixed (s : t) : Prop :=
  match versions s with
  | [] => True
  | root :: _ =>
      StoryVersion.id root = utf16 "v1" /\
      StoryVersion.name root = initialName /\
      StoryVersion.description root = [] /\
      StoryVersion.parentVersionId root = None
  end /\
  match editVersionDialog s with
  | Some d => dlg_index d <> 0
  | None => True
  end.

Lemma root_fixed_ext s s' :
  versions s' = versions s -> editVersionDialog s' = editVersionDialog s ->
  root_fixed s -> root_fixed s'.
Proof. unfold root_fixed. by intros -> ->. Qed.

Lemma appendVersion_root_fixed s newText description a a' now :
  root_fixed s -> root_fixed (appendVersion s newText description a a' now).
Proof.
  intros Hr. unfold appendVersion. destruct a as [a|]; [|done].
  destruct (at_index _ _) as [active|] eqn:Hact; [|done].
  destruct a' as [a'|]; simpl; [|done].
  apply at_index_Some in Hact as [_ Hact]. unfold root_fixed in *. simpl.
  destruct (versions s) as [|root rest]; [done|]. exact Hr.
Qed.

Lemma deleteCompare_dialog s s' d :
  editVersionDialog (deleteCompare s s' d) = editVersionDialog s'.
Proof.
  unfold deleteCompare. destruct (_ && _); [done|].
  destruct (compareVersionIndex s); [|done]. by case_decide.
Qed.

Lemma handleVersionDelete_dialog s d :
  editVersionDialog (state_of (handleVersionDelete s d)) = editVersionDialog s.
Proof.
  unfold handleVersionDelete. case_decide; [done|]. case_decide.
  - unfold handleVersionChange. destruct (at_index _ _); simpl; [|done].
    by rewrite deleteCompare_dialog.
  - case_decide; simpl; by rewrite deleteCompare_dialog.
Qed.

Lemma exec_root_fixed s a s' :
  root_fixed s -> exec s a = Some s' -> root_fixed s'.
Proof.
  intros Hr. destruct a; simpl.
  - intros [= <-]. unfold handleTextChange.
    case_decide; [by eapply root_fixed_ext|].
    destruct analysis; [|by eapply root_fixed_ext].
    case_decide as Hlen; [|by eapply root_fixed_ext].
    unfold root_fixed in *. simpl. split; [done|]. apply Hr.
  - intros [= <-]. unfold handleModifyText.
    destruct continuation; [by apply appendVersion_root_fixed|done].
  - intros [= <-]. unfold handleModifyEntireText.
    destruct rewritten; [by apply appendVersion_root_fixed|done].
  - intros [= <-]. unfold handleCharactersEdit.
    destruct rewritten; [by apply appendVersion_root_fixed|done].
  - intros [= <-]. unfold handleGenerateStoryFromFlowchart.
    destruct rewritten; [by apply appendVersion_root_fixed|done].
  - intros [= <-]. unfold handleReanalyze. destruct analysis; [|done].
    destruct (at_index _ _) as [v|] eqn:Hv; [|done].
    apply at_index_Some in Hv as [_ Hv]. unfold root_fixed in *. simpl.
    split; [|apply Hr]. destruct Hr as [Hr _].
    destruct (versions s) as [|root rest]; [done|].
    destruct (Z.to_nat (currentVersionIndex s)) as [|k]; simpl; [|done].
    simpl in Hv. by injection Hv as <-.
  - destruct (tab_exists _ _); [|done]. intros [= <-].
    unfold handleVersionChange. destruct (at_index _ _); by eapply root_fixed_ext.
  - case_decide; [|done]. intros [= <-]. unfold toggleCompareMode.
    destruct (isCompareMode s); by eapply root_fixed_ext.
  - destruct (tab_exists _ _) eqn:Htab; [|done]. intros [= <-].
    apply bool_decide_eq_true in Htab.
    assert (Hd : editVersionDialog (state_of (handleVersionDelete s index))
                 = editVersionDialog s).
    { apply handleVersionDelete_dialog. }
    unfold root_fixed. rewrite Hd, handleVersionDelete_versions.
    split; [|apply Hr]. case_decide; [apply Hr|].
    rewrite filteri_delete by lia. destruct Hr as [Hr _].
    destruct (versions s) as [|root rest]; [done|].
    destruct (Z.to_nat index) as [|k] eqn:Hk; [lia|done].
  - destruct (tab_exists _ _); [|done].
    destruct (at_index _ _); [|done]. intros [= <-].
    unfold handleVersionNameEditStart. case_decide; [done|].
    unfold root_fixed in *. simpl. split; [apply Hr|done].
  - intros [= <-]. unfold handleVersionNameInput.
    destruct (editVersionDialog s) as [d|] eqn:Hd; [|done].
    unfold root_fixed in *. simpl. rewrite Hd in Hr. split; apply Hr.
  - unfold handleVersionNameSave.
    destruct (editVersionDialog s) as [d|] eqn:Hd; [|by intros [= <-]].
    destruct (at_index _ _) as [v|] eqn:Hv; [|done]. intros [= <-].
    apply at_index_Some in Hv as [Hrange Hv].
    unfold root_fixed in *. rewrite Hd in Hr. simpl. split; [|done].
    destruct Hr as [Hr Hne].
    destruct (versions s) as [|root rest]; [done|].
    destruct (Z.to_nat (dlg_index d)) as [|k] eqn:Hk; [lia|done].
  - intros [= <-]. unfold handleVersionNameCancel, root_fixed in *. simpl.
    split; [apply Hr|done].
Qed.

(** X1. In every state the application reaches, the first version of a
    non-empty store is the root: its id is v1, it has the initial name,
    an empty description and no parent. No rename, deletion, rewrite or
    re-analysis changes that. *)
Theorem root_never_changes (tr : list action) (s : t) (root : StoryVersion.t)
    (rest : list StoryVersion.t) :
  execs init tr = Some s ->
  versions s = root :: rest ->
  StoryVersion.id root = utf16 "v1" /\
  StoryVersion.name root = initialName /\
  StoryVersion.description root = [] /\
  StoryVersion.parentVersionId root = None.
Proof.
  intros Hex Hv.
  assert (root_fixed s) as [Hr _].
  { revert Hex. apply (execs_inv root_fixed (fun _ => True)).
    - intros s0 a s1 _. apply exec_root_fixed.
    - by apply Forall_true.
    - by split. }
  by rewrite Hv in Hr.
Qed.

(** A trace that tries everything on the root: open the rename dialog on
    it, type a name, save, delete it, re-analyse. *)
Definition attack_on_root : list action :=
  chain_of_three ++
  [ VersionNameEditStart 0; VersionNameInput (utf16 "mine"); VersionNameSave;
    VersionDelete 0; VersionChange 0; Reanalyze (Some sample_analysis) 9 ].

Lemma root_never_changes_witness :
  exists s root rest,
    execs init attack_on_root = Some s /\ versions s = root :: rest /\
    length rest = 2%nat /\
    StoryVersion.id root = utf16 "v1" /\ StoryVersion.name root = initialName.
Proof.
  eexists _, _, _. split; [vm_compute; reflexivity|]. split; [reflexivity|].
  split; [reflexivity|].
  edestruct (root_never_changes attack_on_root) as (Hid & Hname & _);
    [vm_compute; reflexivity|reflexivity|].
  split; [exact Hid|exact Hname].
Defined.

(** A rewrite whose three requests all succeed. *)
Definition successful_rewrite (a : action) : Prop :=
  match a with
  | ModifyText _ _ (Some _) (Some _) (Some _) _
  | ModifyEntireText _ (Some _) (Some _) (Some _) _
  | CharactersEdit (Some _) (Some _) (Some _) _
  | GenerateStoryFromFlowchart (Some _) (Some _) (Some _) _ => True
  | _ => False
  end.

(** A store that is one chain v1 <- v2 <- ... with the last version
    active. *)
Definition is_chain (k : nat) (s : t) : Prop :=
  ids (versions s) = versionId <$> seq 1 (S k) /\
  parents (versions s) = None :: ((fun i => Some (versionId i)) <$> seq 1 k) /\
  currentVersionIndex s = Z.of_nat k.

Lemma is_chain_length k s : is_chain k s -> length (versions s) = S k.
Proof.
  intros [Hids _]. apply (f_equal length) in Hids.
  unfold ids in Hids. by rewrite !length_fmap, length_seq in Hids.
Qed.

Lemma appendVersion_chain k s newText description a a' now :
  is_chain k s ->
  is_chain (S k) (appendVersion s newText description (Some a) (Some a') now).
Proof.
  intros Hc. pose proof (is_chain_length k s Hc) as Hlen.
  destruct Hc as (Hids & Hpar & Hcur). unfold appendVersion.
  destruct (at_index_in_range (versions s) (currentVersionIndex s)) as [active Hact].
  { unfold len. lia. }
  rewrite Hact. apply at_index_Some in Hact as [_ Hact].
  assert (Hid : StoryVersion.id active = versionId (S k)).
  { apply (f_equal (fun l => l !! k)) in Hids. unfold ids in Hids.
    rewrite list_lookup_fmap, Hcur, Nat2Z.id in *. rewrite Hact in Hids.
    rewrite list_lookup_fmap, lookup_seq_lt in Hids by lia. simpl in Hids.
    by injection Hids. }
  unfold is_chain, ids, parents in *.
  cbn [createNewVersion versions currentVersionIndex set_display set_current
       set_versions].
  rewrite !fmap_app, Hids, Hpar.
  cbn [fmap list_fmap StoryVersion.id StoryVersion.parentVersionId].
  split; [|split].
  - rewrite (seq_S (S k)), fmap_app. f_equal.
    cbn [fmap list_fmap]. f_equal.
    unfold versionId, len. rewrite Hlen. do 2 f_equal. lia.
  - rewrite (seq_S k), fmap_app, app_comm_cons. f_equal.
    cbn [fmap list_fmap]. by rewrite Hid.
  - unfold len. lia.
Qed.

Lemma successful_rewrite_chain k s a s' :
  successful_rewrite a -> is_chain k s -> exec s a = Some s' -> is_chain (S k) s'.
Proof.
  intros Ha Hc.
  destruct a as [| ? ? [c|] [a1|] [a2|] ? | ? [c|] [a1|] [a2|] ?
                 | [c|] [a1|] [a2|] ? | [c|] [a1|] [a2|] ? | | | | | | | |];
    try done; simpl; intros [= <-]; by apply appendVersion_chain.
Qed.

(** X2. Writing the root and then rewriting [n] times in a row, by any
    of the four rewrite actions and with every request answered, gives
    the chain v1 <- v2 <- ... <- v(n+1): the ids count up, every version
    but the root has the version before it as its parent, and the last
    version is the active one. *)
Theorem rewrites_build_chain (rootText : jsstring) (a0 : GeminiResponse.t) (now0 : Z)
    (rewrites : list action) (s : t) :
  50 <= len rootText ->
  Forall successful_rewrite rewrites ->
  execs init (TextChange rootText (Some a0) now0 :: rewrites) = Some s ->
  ids (versions s) = versionId <$> seq 1 (S (length rewrites)) /\
  parents (versions s) =
    None :: ((fun i => Some (versionId i)) <$> seq 1 (length rewrites)) /\
  currentVersionIndex s = Z.of_nat (length rewrites).
Proof.
  intros Hlen Hall. cbn [execs exec].
  assert (Hroot : is_chain 0 (handleTextChange init rootText (Some a0) now0)).
  { unfold handleTextChange. rewrite decide_False by lia.
    rewrite decide_True by done. by repeat split. }
  revert Hroot. generalize (handleTextChange init rootText (Some a0) now0) as s0.
  assert (Hgen : forall k s0, is_chain k s0 -> execs s0 rewrites = Some s ->
                              is_chain (k + length rewrites) s).
  { induction Hall as [|a rewrites Ha _ IH]; intros k s0 Hc; simpl.
    - intros [= <-]. by rewrite Nat.add_0_r.
    - destruct (exec s0 a) as [s1|] eqn:Hex; [|done]. intros Hrest.
      replace (k + S (length rewrites))%nat with (S k + length rewrites)%nat by lia.
      eapply IH; [|done]. by eapply successful_rewrite_chain. }
  intros s0 Hc Hex. exact (Hgen 0%nat s0 Hc Hex).
Qed.

Lemma rewrites_build_chain_witness :
  exists s, execs init chain_of_three = Some s /\
    parents (versions s) = [None; Some (utf16 "v1"); Some (utf16 "v2")] /\
    currentVersionIndex s = 2.
Proof.
  eexists. split; [vm_compute; reflexivity|].
  edestruct (rewrites_build_chain sample_text sample_analysis 0
               (tail chain_of_three)) as (_ & Hp & Hc).
  - vm_compute. discriminate.
  - repeat constructor.
  - vm_compute. reflexivity.
  - split; [exact Hp|exact Hc].
Defined.

Definition same_identity (v v' : StoryVersion.t) : Prop :=
  StoryVersion.id v' = StoryVersion.id v /\
  StoryVersion.name v' = StoryVersion.name v /\
  StoryVersion.text v' = StoryVersion.text v /\
  StoryVersion.description v' = StoryVersion.description v /\
  StoryVersion.parentVersionId v' = StoryVersion.parentVersionId v.

(** X3. A manual re-analysis replaces the derived data of the active
    version and nothing else: the store keeps its length, every other
    version is untouched, the active version keeps its id, name, text,
    description and parent and gets the new flowchart, characters, plot
    and time stamp; the selection does not move. *)
Theorem reanalyze_touches_derived_data_only (s : t) (a : GeminiResponse.t) (now : Z) :
  let s' := handleReanalyze s (Some a) now in
  length (versions s') = length (versions s) /\
  currentVersionIndex s' = currentVersionIndex s /\
  compareVersionIndex s' = compareVersionIndex s /\
  text s' = text s /\
  (forall i, Z.of_nat i <> currentVersionIndex s ->
     versions s' !! i = versions s !! i) /\
  (forall v, at_index (versions s) (currentVersionIndex s) = Some v ->
     exists v',
       at_index (versions s') (currentVersionIndex s) = Some v' /\
       same_identity v v' /\
       StoryVersion.flowchartData v' = GeminiResponse.flowchart a /\
       StoryVersion.characters v' = GeminiResponse.characters a /\
       StoryVersion.plot v' = GeminiResponse.plot a /\
       StoryVersion.timestamp v' = now).
Proof.
  simpl. unfold handleReanalyze.
  destruct (at_index (versions s) (currentVersionIndex s)) as [v|] eqn:Hv.
  - pose proof Hv as Hv'. apply at_index_Some in Hv' as [Hr Hl].
    cbn [versions currentVersionIndex compareVersionIndex text set_display set_versions].
    split; [by rewrite length_insert|]. do 3 (split; [done|]). split.
    + intros i Hi. apply list_lookup_insert_ne. lia.
    + intros v0 [= <-]. eexists. split.
      * unfold at_index. rewrite decide_True by lia.
        apply list_lookup_insert_eq. by eapply lookup_lt_Some.
      * by repeat split.
  - do 5 (split; [done|]). by intros v [=].
Qed.

End StoreExtras.

(** ** More on the audio player and the audio controls *)

Module AudioExtras.
Import Voicevox TextEditor.

(** The methods of [AudioPlayer] and the [onended] event of a node of
    the player: of the node it holds, or of an earlier one. *)
Inductive playerCall :=
| LoadAudio (decoded : option Z)
| CallPlay (currentTime : Z)
| CallPause (currentTime : Z)
| CallStop
| CallReset
| Ended (current : bool) (currentTime : Z).

Definition call (p : AudioPlayer.t) (c : playerCall) : AudioPlayer.t :=
  match c with
  | LoadAudio decoded => (AudioPlayer.loadAudio p decoded).1
  | CallPlay currentTime => AudioPlayer.play p currentTime
  | CallPause currentTime => AudioPlayer.pause p currentTime
  | CallStop => AudioPlayer.stop p
  | CallReset => AudioPlayer.reset p
  | Ended current currentTime => AudioPlayer.onended p current currentTime
  end.

Definition player_ok (p : AudioPlayer.t) : Prop :=
  (AudioPlayer.isPlaying p = true ->
   AudioPlayer.audioContext p = true /\ is_Some (AudioPlayer.audioBuffer p) /\
   is_Some (AudioPlayer.sourceNode p)) /\
  (is_Some (AudioPlayer.audioBuffer p) -> AudioPlayer.audioContext p = true) /\
  (is_Some (AudioPlayer.sourceNode p) -> is_Some (AudioPlayer.audioBuffer p)).

Lemma is_Some_stopSource n :
  is_Some (AudioPlayer.stopSource n) <-> is_Some n.
Proof. destruct n; simpl; split; intros [? ?]; by eexists. Qed.

Lemma call_player_ok p c : player_ok p -> player_ok (call p c).
Proof.
  intros Hok. pose proof Hok as (Hplay & Hbuf & Hsrc).
  destruct c as [[d|]|t|t| | |current t]; simpl.
  - unfold player_ok. simpl. split; [|split; [done|by eexists]].
    intros Hp. destruct (Hplay Hp) as (_ & _ & Hs).
    split; [done|]. split; [by eexists|done].
  - unfold player_ok. simpl. split; [|split; [done|done]].
    intros Hp. destruct (Hplay Hp) as (_ & Hb & Hs). done.
  - unfold AudioPlayer.play.
    destruct (AudioPlayer.audioContext p) eqn:Hc; simpl; [|exact Hok].
    case_bool_decide as Hb; simpl; [|exact Hok].
    unfold player_ok. simpl. split; [|done]. intros _.
    split; [done|]. split; [done|by eexists].
  - unfold AudioPlayer.pause.
    destruct (AudioPlayer.isPlaying p) eqn:Hp; simpl; [|exact Hok].
    unfold player_ok. simpl. split; [done|]. split; [done|].
    intros Hs. apply Hsrc. by destruct (AudioPlayer.sourceNode p).
  - unfold player_ok. simpl. split; [done|]. split; [done|].
    intros Hs. apply Hsrc. by destruct (AudioPlayer.sourceNode p).
  - unfold player_ok. simpl. split; [done|]. split; [done|].
    intros Hs. apply Hsrc. by destruct (AudioPlayer.sourceNode p).
  - assert (Hnode : is_Some (if current
                              then AudioPlayer.stopSource (AudioPlayer.sourceNode p)
                              else AudioPlayer.sourceNode p)
                     <-> is_Some (AudioPlayer.sourceNode p)).
    { destruct current; [apply is_Some_stopSource|done]. }
    unfold AudioPlayer.onended. cbv zeta. case_decide.
    + unfold player_ok. simpl. split; [done|]. split; [done|].
      intros Hs. by apply Hsrc, Hnode.
    + unfold player_ok. simpl. split; [|split; [done|]].
      * intros Hp. destruct (Hplay Hp) as (Hc & Hb & Hs).
        split; [done|]. split; [done|]. by apply Hnode.
      * intros Hs. by apply Hsrc, Hnode.
Qed.

(** X4. Whatever methods are called on a new [AudioPlayer] and whatever
    nodes of it end, in whatever order: a player that says it is playing
    has an audio context, a decoded buffer and a source node, and a
    player with a source node has a decoded buffer; a paused or stopped
    player reports a position that does not move with the clock, and
    pausing keeps the position that was reported. The source node of a
    playing player need not sound: see [playing_with_ended_node]. *)
Theorem player_stays_consistent (calls : list playerCall) (t1 t2 : Z) :
  let p := foldl call AudioPlayer.new calls in
  (AudioPlayer.getIsPlaying p = true ->
   AudioPlayer.audioContext p = true /\ is_Some (AudioPlayer.audioBuffer p) /\
   is_Some (AudioPlayer.sourceNode p)) /\
  (is_Some (AudioPlayer.sourceNode p) ->
   AudioPlayer.audioContext p = true /\ is_Some (AudioPlayer.audioBuffer p)) /\
  (AudioPlayer.getIsPlaying p = false ->
   AudioPlayer.getCurrentTime p t1 = AudioPlayer.getCurrentTime p t2) /\
  AudioPlayer.getCurrentTime (AudioPlayer.pause p t1) t2 = AudioPlayer.getCurrentTime p t1.
Proof.
  simpl. assert (Hok : player_ok (foldl call AudioPlayer.new calls)).
  { induction calls as [|c calls IH] using rev_ind.
    - unfold player_ok. simpl. split; [done|]. split; by intros [? ?].
    - rewrite foldl_app. simpl. by apply call_player_ok. }
  set (p := foldl call AudioPlayer.new calls) in *.
  split; [apply Hok|]. split; [|split].
  - destruct Hok as (_ & Hbuf & Hsrc). intros Hs. split; [|by apply Hsrc].
    by apply Hbuf, Hsrc.
  - unfold AudioPlayer.getIsPlaying, AudioPlayer.getCurrentTime. intros ->.
    by rewrite orb_true_r.
  - unfold AudioPlayer.pause, AudioPlayer.getCurrentTime.
    destruct (AudioPlayer.isPlaying p) eqn:Hp; simpl.
    + by rewrite orb_true_r.
    + rewrite ?Hp. simpl. by rewrite !orb_true_r.
Qed.

(** A player can say that it is playing while nothing sounds: when the
    buffer is replaced during playback by a longer one, the end of the
    node that plays the shorter one does not clear [isPlaying]. *)
Example playing_with_ended_node :
  let p := foldl call AudioPlayer.new
             [LoadAudio (Some 10); CallPlay 0; LoadAudio (Some 20); Ended true 10] in
  AudioPlayer.getIsPlaying p = true /\ AudioPlayer.sourceNode p = Some false.
Proof. by vm_compute. Qed.

(** Every audio state refers to a player that exists, and no two audio
    states share a player. *)
Definition players_ok (st : t) : Prop :=
  (forall k a, audioStates st !! k = Some a ->
     (audioPlayer a < length (players st))%nat) /\
  (forall k1 k2 a1 a2,
     audioStates st !! k1 = Some a1 -> audioStates st !! k2 = Some a2 ->
     audioPlayer a1 = audioPlayer a2 -> k1 = k2).

Lemma updatePlayer_ok r f st : players_ok st -> players_ok (updatePlayer r f st).
Proof.
  intros [Hr Ha]. split; simpl; [|done].
  intros k a Hk. rewrite length_alter. by eapply Hr.
Qed.

Lemma setAudioState_ok key a a' st :
  audioStates st !! key = Some a -> audioPlayer a' = audioPlayer a ->
  players_ok st -> players_ok (setAudioState key a' st).
Proof.
  intros Hkey Hsame [Hr Ha]. split; simpl.
  - intros k b. rewrite lookup_insert. case_decide as Hk.
    + intros [= <-]. rewrite Hsame. by eapply Hr.
    + by apply Hr.
  - intros k1 k2 a1 a2. rewrite !lookup_insert.
    destruct (decide (key = k1)) as [<-|?], (decide (key = k2)) as [<-|?];
      try done.
    + intros [= <-] H2 Heq. rewrite Hsame in Heq. by eapply Ha.
    + intros H1 [= <-] Heq. rewrite Hsame in Heq. symmetry. by eapply Ha.
    + apply Ha.
Qed.

Lemma setAudioState_lookup key a st :
  audioStates (setAudioState key a st) !! key = Some a.
Proof. simpl. apply lookup_insert_eq. Qed.

Lemma getCurrentAudioState_ok st versionIndex :
  players_ok st ->
  let '(a, st1) := getCurrentAudioState st versionIndex in
  players_ok st1 /\ audioStates st1 !! versionKey versionIndex = Some a.
Proof.
  intros [Hr Ha]. unfold getCurrentAudioState.
  destruct (audioStates st !! versionKey versionIndex) as [a|] eqn:Hk.
  - by split.
  - split; [|simpl; apply lookup_insert_eq]. split; simpl.
    + intros k a. rewrite length_app, lookup_insert. simpl. case_decide.
      * intros [= <-]. simpl. lia.
      * intros Hl. apply Hr in Hl. lia.
    + intros k1 k2 a1 a2. rewrite !lookup_insert.
      destruct (decide (versionKey versionIndex = k1)) as [<-|?],
               (decide (versionKey versionIndex = k2)) as [<-|?]; try done.
      * intros [= <-] H2 Heq. simpl in Heq. apply Hr in H2. lia.
      * intros H1 [= <-] Heq. simpl in Heq. apply Hr in H1. lia.
      * apply Ha.
Qed.

Section Controls.

Variable ArrayBuffer : Type.
Variable decodeAudioData : ArrayBuffer -> option Z.

(** What happens to the audio part of the component. *)
Inductive event :=
| PlayClicked (text : jsstring) (versionIndex : Z) (generated : option ArrayBuffer)
    (currentTime : Z)
| ResetClicked (versionIndex : Z)
| VersionSwitched (versionIndex : Z) (versions : list jsstring)
| TextChanged (versionIndex : Z).

Definition handle (st : t) (e : event) : t :=
  match e with
  | PlayClicked text versionIndex generated currentTime =>
      (handlePlayAudio ArrayBuffer decodeAudioData st text versionIndex generated
         currentTime).1
  | ResetClicked versionIndex => handleResetAudio st versionIndex
  | VersionSwitched versionIndex versions =>
      versionSwitchEffect st versionIndex versions
  | TextChanged versionIndex => textChangeEffect st versionIndex
  end.

(** The state is in order and [key] has the player [r]. *)
Definition owned (key : jsstring) (r : nat) (st : t) : Prop :=
  players_ok st /\
  exists b, audioStates st !! key = Some b /\ audioPlayer b = r.

Lemma owned_set key r b' st :
  audioPlayer b' = r -> owned key r st -> owned key r (setAudioState key b' st).
Proof.
  intros Hb' (Hok & b & Hb & Hr). split.
  - eapply setAudioState_ok; [done| |done]. congruence.
  - exists b'. split; [apply setAudioState_lookup|done].
Qed.

Lemma owned_update key r r' f st :
  owned key r st -> owned key r (updatePlayer r' f st).
Proof. intros (Hok & Hb). split; [by apply updatePlayer_ok|done]. Qed.

Lemma handlePlayAudio_ok st text versionIndex generated currentTime :
  players_ok st ->
  players_ok
    (handlePlayAudio ArrayBuffer decodeAudioData st text versionIndex generated
       currentTime).1.
Proof.
  intros Hok. unfold handlePlayAudio.
  destruct (isAudioEnabled text); simpl; [|done].
  pose proof (getCurrentAudioState_ok st versionIndex Hok) as Hcur.
  destruct (getCurrentAudioState st versionIndex) as [a st1].
  destruct Hcur as [Hok1 Hkey].
  assert (Hown : owned (versionKey versionIndex) (audioPlayer a) st1).
  { split; [done|]. by exists a. }
  assert (Hdone : forall st', owned (versionKey versionIndex) (audioPlayer a) st' ->
                              players_ok st') by (by intros st' [? _]).
  destruct (state a); simpl;
    repeat case_decide;
    try destruct generated as [audio|]; simpl;
    try destruct (decodeAudioData audio); simpl;
    apply Hdone;
    repeat first [ exact Hown
                 | apply owned_update
                 | apply owned_set; [reflexivity|] ].
Qed.

Lemma handle_ok st e : players_ok st -> players_ok (handle st e).
Proof.
  intros Hok. destruct e as [text vi g now|vi|vi versions|vi]; simpl.
  - by apply handlePlayAudio_ok.
  - unfold handleResetAudio.
    pose proof (getCurrentAudioState_ok st vi Hok) as Hcur.
    destruct (getCurrentAudioState st vi) as [a st1]. destruct Hcur as [Hok1 Hkey].
    eapply setAudioState_ok; [done|done|]. by apply updatePlayer_ok.
  - unfold versionSwitchEffect. case_decide; [|done].
    assert (Hprev : forall st1, players_ok st1 ->
              players_ok {| audioStates := audioStates st1;
                            previousVersionIndex := vi;
                            players := players st1 |}).
    { by intros st1 [? ?]. }
    apply Hprev. destruct (negb _).
    + destruct Hok as [Hr Ha]. split; simpl.
      * intros k a Hk. apply lookup_delete_Some in Hk as [_ Hk]. by eapply Hr.
      * intros k1 k2 a1 a2 H1 H2. apply lookup_delete_Some in H1 as [_ H1].
        apply lookup_delete_Some in H2 as [_ H2]. by eapply Ha.
    + destruct (audioStates st !! _) as [a|] eqn:Hk; [|done].
      eapply setAudioState_ok; [done|done|]. by apply updatePlayer_ok.
  - unfold textChangeEffect.
    destruct (audioStates st !! _) as [a|] eqn:Hk; [|done].
    eapply setAudioState_ok; [done|done|]. by apply updatePlayer_ok.
Qed.

(** X5. Whatever the user does with the audio controls, in whatever
    order: every audio state refers to a player object that exists, and
    no player belongs to two version keys, so that playing, pausing or
    resetting the audio of one version never touches that of another. *)
Theorem audio_states_own_their_players (versionIndex : Z) (events : list event) :
  let st := foldl handle (mount versionIndex) events in
  (forall k a, audioStates st !! k = Some a -> is_Some (players st !! audioPlayer a)) /\
  (forall k1 k2 a1 a2,
     audioStates st !! k1 = Some a1 -> audioStates st !! k2 = Some a2 ->
     k1 <> k2 -> audioPlayer a1 <> audioPlayer a2).
Proof.
  simpl. assert (Hok : players_ok (foldl handle (mount versionIndex) events)).
  { induction events as [|e events IH] using rev_ind.
    - split; simpl; [intros k a|intros k1 k2 a1 a2]; by rewrite lookup_empty.
    - rewrite foldl_app. simpl. by apply handle_ok. }
  destruct Hok as [Hr Ha]. split.
  - intros k a Hk. apply lookup_lt_is_Some. by eapply Hr.
  - intros k1 k2 a1 a2 H1 H2 Hne Heq. apply Hne. by eapply Ha.
Qed.

(** X6. A text edit resets the player of the current version but keeps
    its decoded buffer. So when audio of non-zero duration has been
    decoded for the version, the play action after the edit starts that
    buffer again and asks for no audio of the new text. *)
Theorem edited_text_replays_old_audio (st : t) (versionIndex : Z) (newText : jsstring)
    (generated : option ArrayBuffer) (currentTime : Z)
    (a : AudioState) (p : AudioPlayer.t) :
  audioStates st !! versionKey versionIndex = Some a ->
  players st !! audioPlayer a = Some p ->
  AudioPlayer.getDuration p <> 0 ->
  isAudioEnabled newText = true ->
  let st1 := textChangeEffect st versionIndex in
  (AudioPlayer.audioBuffer <$> players st1 !! audioPlayer a)
    = Some (AudioPlayer.audioBuffer p) /\
  (handlePlayAudio ArrayBuffer decodeAudioData st1 newText versionIndex generated
     currentTime).2 = [Play (audioPlayer a)].
Proof.
  intros Hk Hp Hdur Hen. simpl. unfold textChangeEffect. rewrite Hk. split.
  - simpl. by rewrite list_lookup_alter_eq, Hp.
  - unfold handlePlayAudio. rewrite Hen. simpl.
    unfold getCurrentAudioState. simpl. rewrite lookup_insert_eq. simpl.
    rewrite decide_False.
    2: { unfold isAudioEnabled in Hen. apply andb_prop in Hen as [Hen _].
         apply bool_decide_eq_true in Hen. lia. }
    rewrite decide_False; [done|].
    unfold playerDuration. simpl. by rewrite list_lookup_alter_eq, Hp.
Qed.

End Controls.

(** Play the first version, then edit the text and play again. *)
Definition played_once : t :=
  (handlePlayAudio unit (fun _ => Some 10) (mount 0) (utf16 "abc") 0 (Some tt) 0).1.

Lemma edited_text_replays_old_audio_witness :
  (handlePlayAudio unit (fun _ => Some 10) (textChangeEffect played_once 0)
     (utf16 "something else") 0 (Some tt) 7).2 = [Play 0%nat].
Proof.
  refine (proj2 (edited_text_replays_old_audio unit (fun _ => Some 10) played_once 0
                   (utf16 "something else") (Some tt) 7
                   {| audioPlayer := 0; state := playing; isGenerating := false |}
                   {| AudioPlayer.audioContext := true;
                      AudioPlayer.audioBuffer := Some 10;
                      AudioPlayer.sourceNode := Some true;
                      AudioPlayer.startTime := 0;
                      AudioPlayer.offset := 0;
                      AudioPlayer.isPlaying := true |} _ _ _ _)).
  - vm_compute. reflexivity.
  - vm_compute. reflexivity.
  - vm_compute. discriminate.
  - vm_compute. reflexivity.
Defined.

End AudioExtras.

(** ** The text sent to the speech service *)

Module VoicevoxExtras.
Import Regex Voicevox FlowchartFacts.

Lemma drop_while_length {A} (p : A -> bool) (l : list A) :
  (length (drop_while p l) <= length l)%nat.
Proof. induction l as [|x l IH]; simpl; [done|]. destruct (p x); simpl; lia. Qed.

Lemma drop_while_suffix {A} (p : A -> bool) (l : list A) :
  drop_while p l `suffix_of` l.
Proof.
  induction l as [|x l IH]; simpl; [done|].
  destruct (p x); [by apply suffix_cons_r|done].
Qed.

(** What a replacement keeps true of every character of the result. *)
Lemma replace_all_Forall (P : N -> Prop) m :
  (forall s out rest, m s = Some (out, rest) -> Forall P out) ->
  (forall c s', m (c :: s') = None -> P c) ->
  (forall s out rest, m s = Some (out, rest) -> (length rest < length s)%nat) ->
  forall s, Forall P (replace_all m s).
Proof.
  intros Hout Hskip Hlen s. unfold replace_all.
  remember (length s) as n eqn:Hn. revert s Hn.
  induction (lt_wf n) as [n _ IH]. intros s ->.
  destruct s as [|c s']; [simp global; constructor|].
  rewrite global_cons. destruct (m (c :: s')) as [[out rest]|] eqn:Hm.
  - pose proof (Hlen _ _ _ Hm) as Hlt. rewrite decide_True by done.
    rewrite fmap_cons. simpl. apply Forall_app. split; [by eapply Hout|].
    by apply (IH (length rest)).
  - rewrite fmap_cons. simpl. constructor; [by eapply Hskip|].
    apply (IH (length s')); [simpl; lia|done].
Qed.

Definition ends_with_mark (s : jsstring) : Prop :=
  exists pre c, s = pre ++ [c] /\ is_punct c = true.

Lemma ends_with_mark_app s1 s2 : ends_with_mark s2 -> ends_with_mark (s1 ++ s2).
Proof.
  intros (pre & c & -> & Hc). exists (s1 ++ pre), c. by rewrite app_assoc.
Qed.

Lemma ends_with_mark_suffix s1 s2 :
  s1 `suffix_of` s2 -> s1 <> [] -> ends_with_mark s2 -> ends_with_mark s1.
Proof.
  intros [k ->] Hne (pre & c & Heq & Hc).
  destruct (exists_last Hne) as (pre1 & c1 & ->).
  rewrite app_assoc in Heq. apply app_inj_tail in Heq as [_ ->].
  by exists pre1, c.
Qed.

(** A replacement whose last match, when it reaches the end of the text,
    writes a mark last keeps a text that ends with a mark that way. *)
Lemma replace_all_ends_with_mark m :
  (forall s out rest, m s = Some (out, rest) ->
     rest `suffix_of` s /\ (rest = [] -> ends_with_mark out)) ->
  forall s, ends_with_mark s -> ends_with_mark (replace_all m s).
Proof.
  intros Hm s. unfold replace_all.
  remember (length s) as n eqn:Hn. revert s Hn.
  induction (lt_wf n) as [n _ IH]. intros s -> Hs.
  destruct s as [|c s'].
  { destruct Hs as (pre & c & Heq & _). by destruct pre. }
  assert (Hskip : ends_with_mark
            (concat ((fun p => match p with Matched x => x | Skipped c0 => [c0] end)
                       <$> (Skipped c :: global m s')))).
  { rewrite fmap_cons. simpl. destruct s' as [|d s''].
    - simp global. simpl. destruct Hs as (pre & c' & Heq & Hc).
      destruct pre as [|? [|? ?]]; [|done..]. injection Heq as ->.
      by exists [], c'.
    - apply (ends_with_mark_app [c]). apply (IH (length (d :: s''))); [simpl; lia|done|].
      eapply ends_with_mark_suffix; [|done|exact Hs]. by apply suffix_cons_r. }
  rewrite global_cons. destruct (m (c :: s')) as [[out rest]|] eqn:Hmatch; [|done].
  destruct (decide _) as [Hlt|_]; [|done].
  destruct (Hm _ _ _ Hmatch) as [Hsuf Hend].
  rewrite fmap_cons. simpl. destruct rest as [|d rest'].
  - simp global. simpl. rewrite app_nil_r. by apply Hend.
  - apply ends_with_mark_app. apply (IH (length (d :: rest'))); [done|done|].
    by eapply ends_with_mark_suffix.
Qed.

Lemma replace_all_nonempty m s : s <> [] ->
  (forall t out rest, m t = Some (out, rest) -> out <> []) ->
  replace_all m s <> [].
Proof.
  intros Hne Hout. destruct s as [|c s']; [done|]. unfold replace_all.
  rewrite global_cons. destruct (m (c :: s')) as [[out rest]|] eqn:Hm.
  - destruct (decide _); rewrite fmap_cons; simpl; [|done].
    apply Hout in Hm. by destruct out.
  - by rewrite fmap_cons.
Qed.

Lemma missingStop_ends s : s <> [] -> ends_with_mark (replace_all missingStop s).
Proof.
  unfold replace_all. induction s as [|c s' IH]; [done|]. intros _.
  rewrite global_cons. unfold missingStop at 1.
  destruct (negb (is_punct c) && forallb is_space s') eqn:Hcond.
  - rewrite decide_True by (simpl; lia). rewrite fmap_cons. simp global. simpl.
    by exists [c], 12290%N.
  - rewrite fmap_cons. simpl. destruct s' as [|d s''].
    + simp global. simpl. exists [], c. split; [done|].
      simpl in Hcond. rewrite andb_true_r in Hcond. by apply negb_false_iff.
    + apply (ends_with_mark_app [c]). by apply IH.
Qed.

(** X7. The text handed to the speech service holds no white space and
    no line break, and, unless the input was empty, it ends with one of
    the four marks 、。！？. *)
Theorem preprocessText_shape (text : jsstring) :
  Forall (fun c => is_space c = false) (preprocessText text) /\
  (text <> [] ->
   exists pre c, preprocessText text = pre ++ [c] /\ is_punct c = true).
Proof.
  unfold preprocessText. split.
  - apply replace_all_Forall.
    + intros [|c r] out rest; [done|]. simpl.
      destruct (is_space c); [|done]. intros [= <- _]. by repeat constructor.
    + intros c s'. simpl. by destruct (is_space c).
    + intros [|c r] out rest; [done|]. simpl.
      destruct (is_space c); [|done]. intros [= _ <-].
      pose proof (drop_while_length is_space r). simpl. lia.
  - intros Hne.
    apply replace_all_ends_with_mark.
    { intros [|c r] out rest; [done|]. simpl.
      destruct (is_space c); [|done]. intros [= <- <-]. split.
      - apply suffix_cons_r, drop_while_suffix.
      - intros _. by exists [], 12289%N. }
    apply replace_all_ends_with_mark.
    { intros [|c [|d r]] out rest; [done..|]. simpl.
      destruct (is_punct c && is_space d) eqn:Hc; [|done]. intros [= <- <-]. split.
      - do 2 apply suffix_cons_r. apply drop_while_suffix.
      - intros _. exists [], c. split; [done|]. by apply andb_prop in Hc as [? _]. }
    apply replace_all_ends_with_mark.
    { intros [|c r] out rest; [done|]. simpl.
      destruct (is_punct c) eqn:Hc; [|done]. intros [= <- <-]. split.
      - apply suffix_cons_r, drop_while_suffix.
      - intros _. by exists [], c. }
    apply missingStop_ends. apply replace_all_nonempty; [done|].
    intros [|c r] out rest; [done|]. simpl.
    destruct (c =? 10)%N; [|done]. by intros [= <- _].
Qed.

Example preprocessText_sample :
  preprocessText (utf16 "Hello  world" ++ [10; 10]%N ++ utf16 "bye ")
  = utf16 "Hello" ++ [12289%N] ++ utf16 "world" ++ [12290%N] ++ utf16 "bye" ++ [12290%N].
Proof. vm_compute. reflexivity. Qed.

End VoicevoxExtras.

(** ** More on the flowchart extractor *)

Module FlowchartExtras.
Import Regex GeminiService BasicFacts FlowchartFacts.

(** The first pass stacks the nodes: the node at position [i] sits at
    (100, 100 + 100 i). *)
Definition stacked (nodes : list FlowNode.t) : Prop :=
  forall i n, nodes !! i = Some n ->
    FlowNode.x n = 100 /\ FlowNode.y n = 100 + Z.of_nat i * 100.

Lemma foldl_addNode_stacked toks : stacked (foldl addNode [] toks).
Proof.
  induction toks as [|t toks IH] using rev_ind.
  - intros i n Hn. by destruct i.
  - rewrite foldl_app. simpl. set (nodes := foldl addNode [] toks) in *.
    unfold addNode. destruct (JS.find _ nodes); [done|].
    intros i n Hn. apply lookup_app_Some in Hn as [Hn|[Hi Hn]]; [by apply IH|].
    destruct (i - length nodes)%nat as [|k] eqn:Hk; [|by destruct k].
    injection Hn as <-. simpl. split; [done|]. unfold len. lia.
Qed.

Definition letters : list jsstring :=
  (fun k => [N.of_nat k]) <$> seq 65 26.

Lemma upper_letter x : is_upper x = true -> [x] ∈ letters.
Proof.
  unfold is_upper. rewrite andb_true_iff, !N.leb_le. intros [Hlo Hhi].
  unfold letters. apply list_elem_of_fmap. exists (N.to_nat x).
  split; [by rewrite N2Nat.id|]. apply elem_of_seq. lia.
Qed.

(** X8. The nodes of an extracted flowchart are stacked in the order in
    which their ids first occur: the node at position i sits at x = 100,
    y = 100 + 100 i. Their ids are single upper-case letters, so there
    are at most 26 of them. *)
Theorem extractFlowchart_stacks_nodes (text : jsstring) (fc : Flowchart.t) :
  extractFlowchart text = Some fc ->
  (forall i n, Flowchart.nodes fc !! i = Some n ->
     FlowNode.x n = 100 /\ FlowNode.y n = 100 + Z.of_nat i * 100 /\
     exists x, FlowNode.id n = [x] /\ is_upper x = true) /\
  (length (Flowchart.nodes fc) <= 26)%nat.
Proof.
  unfold extractFlowchart. destruct (flowchartSection text) as [block|]; [|done].
  intros [= <-]. simpl. rewrite firstPass_tokens.
  set (toks := blockTokens (diagramLines block)).
  destruct (foldl_addNode_nodes_of toks) as [Hnd Hcov Hlab].
  assert (Hup : forall n, n ∈ foldl addNode [] toks ->
                 exists x, FlowNode.id n = [x] /\ is_upper x = true).
  { intros n Hn. destruct (Hlab n Hn) as (x & Hx & Hfl). exists x. split; [done|].
    destruct (decide (x ∈ toks.*1)) as [Hin|Hni].
    - apply list_elem_of_fmap in Hin as ([x' l] & -> & Hin).
      pose proof (blockTokens_upper (diagramLines block)) as Hall.
      rewrite Forall_forall in Hall. by apply (Hall (x', l)).
    - apply first_label_None in Hni. congruence. }
  split.
  - intros i n Hn. destruct (foldl_addNode_stacked toks i n Hn) as [Hx Hy].
    split; [done|]. split; [done|]. apply Hup. by eapply list_elem_of_lookup_2.
  - change 26%nat with (length letters).
    replace (length (foldl addNode [] toks))
      with (length (node_ids (foldl addNode [] toks)))
      by (unfold node_ids; apply length_fmap).
    apply submseteq_length, NoDup_submseteq; [done|].
    intros i Hi. unfold node_ids in Hi.
    apply list_elem_of_fmap in Hi as (n & -> & Hn).
    destruct (Hup n Hn) as (x & -> & Hx). by apply upper_letter.
Qed.

Lemma extractFlowchart_stacks_nodes_witness :
  exists fc n,
    extractFlowchart sample_reply = Some fc /\
    Flowchart.nodes fc !! 2%nat = Some n /\ FlowNode.y n = 300.
Proof.
  destruct (extractFlowchart sample_reply) as [fc|] eqn:Hfc; [|by vm_compute in Hfc].
  destruct (Flowchart.nodes fc !! 2%nat) as [n|] eqn:Hn.
  - exists fc, n. split; [done|]. split; [done|].
    by destruct (proj1 (extractFlowchart_stacks_nodes sample_reply fc Hfc) 2%nat n Hn)
      as (_ & Hy & _).
  - vm_compute in Hfc. injection Hfc as <-. by vm_compute in Hn.
Defined.

Definition edgeId (i : nat) : jsstring := utf16 "e" ++ of_int (Z.of_nat i).

Lemma edgeId_inj : Inj (=) (=) edgeId.
Proof.
  intros a b Hab. unfold edgeId in Hab. apply app_inv_head in Hab.
  apply of_int_inj in Hab. lia.
Qed.

Lemma lineEdge_shape i line e :
  lineEdge i line = Some e ->
  FlowEdge.id e = edgeId i /\
  (exists a b, FlowEdge.source e = [a] /\ FlowEdge.target e = [b] /\
               is_upper a = true /\ is_upper b = true) /\
  includes arrow line = true.
Proof.
  unfold lineEdge. destruct (includes arrow line); [|done].
  destruct (trim <$> split arrow line) as [|fromPart [|toPart parts]]; [done..|].
  unfold leadingUpper.
  destruct fromPart as [|a ?]; [done|]. destruct (is_upper a) eqn:Ha; [|done].
  destruct toPart as [|b ?]; [done|]. destruct (is_upper b) eqn:Hb; [|done].
  intros [= <-]. simpl. split; [done|]. split; [|done]. by exists a, b.
Qed.

Lemma secondPass_ids_from (f : nat -> nat) lines :
  (forall i j, f i = f j -> i = j) ->
  exists idxs,
    FlowEdge.id <$> omap (fun e => e) (imap (fun i => lineEdge (f i)) lines)
      = edgeId <$> idxs /\
    NoDup idxs /\ Forall (fun k => exists i, k = f i) idxs.
Proof.
  revert f. induction lines as [|line lines IH]; intros f Hf.
  - exists []. repeat split; constructor.
  - rewrite imap_cons, omap_cons.
    destruct (IH (f ∘ S)) as (idxs & Hids & Hnd & Hall).
    { intros i j Hij. apply Hf in Hij. lia. }
    destruct (lineEdge (f 0%nat) line) as [e|] eqn:He.
    + apply lineEdge_shape in He as [Hid _].
      exists (f 0%nat :: idxs). split; [by rewrite !fmap_cons, Hid, <- Hids|]. split.
      * constructor; [|done]. intros Hin. rewrite Forall_forall in Hall.
        destruct (Hall _ Hin) as [i Hi]. simpl in Hi. apply Hf in Hi. lia.
      * constructor; [by exists 0%nat|]. eapply Forall_impl; [exact Hall|].
        intros k [i ->]. by exists (S i).
    + exists idxs. split; [done|]. split; [done|].
      eapply Forall_impl; [exact Hall|]. intros k [i ->]. by exists (S i).
Qed.

(** X9. Every edge of an extracted flowchart comes from a line that
    holds an arrow, joins two single upper-case letters, is of type
    smoothstep and not animated; and no two edges have the same id. *)
Theorem extractFlowchart_edges (text : jsstring) (fc : Flowchart.t) :
  extractFlowchart text = Some fc ->
  NoDup (FlowEdge.id <$> Flowchart.edges fc) /\
  (forall e, e ∈ Flowchart.edges fc ->
     (exists a b, FlowEdge.source e = [a] /\ FlowEdge.target e = [b] /\
                  is_upper a = true /\ is_upper b = true) /\
     FlowEdge.type e = utf16 "smoothstep" /\ FlowEdge.animated e = false).
Proof.
  unfold extractFlowchart. destruct (flowchartSection text) as [block|]; [|done].
  intros [= <-]. simpl. unfold secondPass. split.
  - destruct (secondPass_ids_from (fun i => i) (diagramLines block))
      as (idxs & Hids & Hnd & _); [done|].
    assert (Hids' : FlowEdge.id <$> omap (fun e => e) (imap lineEdge (diagramLines block))
                    = edgeId <$> idxs) by exact Hids.
    rewrite Hids'. by apply (NoDup_fmap_2 edgeId (Inj0 := edgeId_inj)).
  - intros e He. apply list_elem_of_omap in He as (oe & Hin & ->).
    apply list_elem_of_lookup in Hin as [i Hi].
    rewrite list_lookup_imap in Hi.
    destruct (diagramLines block !! i) as [line|]; [|done]. simpl in Hi.
    injection Hi as Hi. pose proof Hi as Hshape.
    apply lineEdge_shape in Hshape as (_ & Hends & _). split; [done|].
    unfold lineEdge in Hi. destruct (includes arrow line); [|done].
    destruct (trim <$> split arrow line) as [|fromPart [|toPart parts]]; [done..|].
    destruct (leadingUpper fromPart), (leadingUpper toPart); try done.
    by injection Hi as <-.
Qed.

Lemma extractFlowchart_edges_witness :
  exists fc, extractFlowchart sample_reply = Some fc /\
    NoDup (FlowEdge.id <$> Flowchart.edges fc) /\
    length (Flowchart.edges fc) = 3%nat.
Proof.
  destruct (extractFlowchart sample_reply) as [fc|] eqn:Hfc; [|by vm_compute in Hfc].
  exists fc. split; [done|]. split.
  - apply (extractFlowchart_edges sample_reply fc Hfc).
  - vm_compute in Hfc. by injection Hfc as <-.
Defined.

End FlowchartExtras.

(** ** The characters and the plot of a reply *)

Module AnalysisExtras.
Import Regex GeminiService Analysis BasicFacts CharacterFacts.

(** No white space at either end. *)
Definition trimmed (s : jsstring) : Prop :=
  (forall c, head s = Some c -> is_space c = false) /\
  (forall c, last s = Some c -> is_space c = false).

Lemma drop_while_head {A} (p : A -> bool) (l : list A) c :
  head (drop_while p l) = Some c -> p c = false.
Proof.
  induction l as [|x l IH]; simpl; [done|].
  destruct (p x) eqn:Hx; [done|]. simpl. by intros [= <-].
Qed.

Lemma trim_trimmed s : trimmed (trim s).
Proof.
  unfold trim. set (t := drop_while is_space s).
  set (u := drop_while is_space (reverse t)). split; intros c Hc.
  - rewrite head_reverse in Hc.
    destruct (VoicevoxExtras.drop_while_suffix is_space (reverse t)) as [w Hw].
    fold u in Hw.
    assert (last (reverse t) = Some c) as Hl.
    { rewrite Hw, last_app, Hc. done. }
    rewrite last_reverse in Hl. by apply drop_while_head in Hl.
  - rewrite last_reverse in Hc. by apply drop_while_head in Hc.
Qed.

(** What [forEach((x, index) => ...)] pushes carries keys of distinct
    indices. *)
Lemma indexed_keys_from {A B K} (f : nat -> A -> option B) (key : B -> K)
    (g : nat -> K) (h : nat -> nat) (l : list A) :
  (forall i a b, f i a = Some b -> key b = g i) ->
  (forall i j, h i = h j -> i = j) ->
  exists idxs,
    key <$> omap (fun x => x) (imap (fun i => f (h i)) l) = g <$> idxs /\
    NoDup idxs /\ Forall (fun k => exists i, k = h i) idxs.
Proof.
  intros Hkey. revert h. induction l as [|a l IH]; intros h Hh.
  - exists []. repeat split; constructor.
  - rewrite imap_cons, omap_cons.
    destruct (IH (h ∘ S)) as (idxs & Hids & Hnd & Hall).
    { intros i j Hij. apply Hh in Hij. lia. }
    destruct (f (h 0%nat) a) as [b|] eqn:Hb.
    + apply Hkey in Hb.
      exists (h 0%nat :: idxs). split; [by rewrite !fmap_cons, Hb, <- Hids|]. split.
      * constructor; [|done]. intros Hin. rewrite Forall_forall in Hall.
        destruct (Hall _ Hin) as [i Hi]. simpl in Hi. apply Hh in Hi. lia.
      * constructor; [by exists 0%nat|]. eapply Forall_impl; [exact Hall|].
        intros k [i ->]. by exists (S i).
    + exists idxs. split; [done|]. split; [done|].
      eapply Forall_impl; [exact Hall|]. intros k [i ->]. by exists (S i).
Qed.

Lemma indexed_keys_NoDup {A B K} (f : nat -> A -> option B) (key : B -> K)
    (g : nat -> K) (l : list A) :
  Inj (=) (=) g ->
  (forall i a b, f i a = Some b -> key b = g i) ->
  NoDup (key <$> omap (fun x => x) (imap f l)).
Proof.
  intros Hg Hkey.
  destruct (indexed_keys_from f key g (fun i => i) l Hkey) as (idxs & Hids & Hnd & _);
    [done|].
  assert (Hids' : key <$> omap (fun x => x) (imap f l) = g <$> idxs) by exact Hids.
  rewrite Hids'. by apply (NoDup_fmap_2 g).
Qed.

Definition characterId (index : nat) : jsstring :=
  utf16 "char-" ++ of_int (Z.of_nat index).

Lemma characterId_inj : Inj (=) (=) characterId.
Proof.
  intros a b Hab. unfold characterId in Hab. apply app_inv_head in Hab.
  apply of_int_inj in Hab. lia.
Qed.

Lemma characterOfBlock_shape index block c :
  characterOfBlock index block = Some c ->
  Character.id c = characterId index /\
  trimmed (Character.name c) /\ trimmed (Character.description c) /\
  Character.relationships c = [].
Proof.
  unfold characterOfBlock. destruct (nameMatch block) as [[name description]|]; [|done].
  intros [= <-]. simpl. split; [done|]. split; [apply trim_trimmed|].
  split; [apply trim_trimmed|done].
Qed.

(** A clock value never reads like the id of an extracted character. *)
Lemma of_int_not_characterId now index : of_int now <> characterId index.
Proof.
  unfold characterId. intros Heq. destruct now as [|p|p].
  - by vm_compute in Heq.
  - pose proof (of_int_digits (Z.pos p)) as Hd. rewrite Heq in Hd.
    specialize (Hd ltac:(lia)). apply Forall_inv in Hd. by vm_compute in Hd.
  - unfold of_int at 1, pretty, pretty_Z in Heq.
    change (utf16 ("-" +:+ pretty p)) with (45%N :: utf16 (pretty p)) in Heq.
    discriminate Heq.
Qed.

Definition extracted (c : Character.t) : Prop :=
  (exists index : nat,
     Character.id c = utf16 "char-" ++ of_int (Z.of_nat index)) /\
  trimmed (Character.name c) /\ trimmed (Character.description c) /\
  Character.relationships c = [].

Lemma extractCharacters_NoDup text : NoDup (char_ids (extractCharacters text)).
Proof.
  unfold extractCharacters. destruct (charactersSection text) as [section|];
    [|constructor].
  apply (indexed_keys_NoDup characterOfBlock Character.id characterId);
    [apply characterId_inj|].
  intros i a b Hb. by apply characterOfBlock_shape in Hb as [? _].
Qed.

Lemma extractCharacters_extracted text :
  Forall extracted (extractCharacters text).
Proof.
  unfold extractCharacters. destruct (charactersSection text) as [section|];
    [|constructor].
  apply Forall_forall. intros c Hc.
  apply list_elem_of_omap in Hc as (oc & Hin & ->).
  apply list_elem_of_lookup in Hin as [i Hi]. rewrite list_lookup_imap in Hi.
  destruct (characterBlocks section !! i) as [block|]; [|done].
  injection Hi as Hi. apply characterOfBlock_shape in Hi as (Hid & Hrest).
  split; [by exists i|done].
Qed.

(** X10. The characters extracted from a reply have pairwise distinct
    ids of the form char-<index>, names and descriptions without white
    space at either end, and no relationships. *)
Theorem extractCharacters_shape (text : jsstring) :
  NoDup (Character.id <$> extractCharacters text) /\
  Forall (fun c =>
            (exists index : nat,
               Character.id c = utf16 "char-" ++ of_int (Z.of_nat index)) /\
            trimmed (Character.name c) /\ trimmed (Character.description c) /\
            Character.relationships c = [])
         (extractCharacters text).
Proof.
  split; [apply extractCharacters_NoDup|apply extractCharacters_extracted].
Qed.

Definition sample_analysis_reply : jsstring :=
  utf16 "[CHARACTERS]" ++ [10%N] ++
  utf16 "- **Ann**: a pilot" ++ [10%N] ++
  utf16 "- **Bob**:   a cook  " ++ [10%N; 10%N] ++
  utf16 "[PLOT]" ++ [10%N] ++
  utf16 "- one" ++ [10%N] ++ utf16 "- two " ++ [10%N; 10%N] ++ utf16 "[END]".

Example extractCharacters_sample :
  extractCharacters sample_analysis_reply =
  [ {| Character.id := utf16 "char-0"; Character.name := utf16 "Ann";
       Character.description := utf16 "a pilot"; Character.relationships := [] |};
    {| Character.id := utf16 "char-1"; Character.name := utf16 "Bob";
       Character.description := utf16 "a cook"; Character.relationships := [] |} ].
Proof. by vm_compute. Qed.

(** X11. Every plot point extracted from a reply is non-empty and has no
    white space at either end. *)
Theorem extractPlot_shape (text : jsstring) :
  Forall (fun point => point <> [] /\ trimmed point) (extractPlot text).
Proof.
  unfold extractPlot. destruct (plotSection text) as [section|]; [|constructor].
  apply Forall_forall. intros point Hp.
  apply list_elem_of_In, filter_In in Hp as [Hin Hlen].
  apply list_elem_of_In, list_elem_of_fmap in Hin as (raw & -> & _). split.
  - intros Hnil. rewrite Hnil in Hlen. done.
  - apply trim_trimmed.
Qed.

Example extractPlot_sample :
  extractPlot sample_analysis_reply = [utf16 "one"; utf16 "two"].
Proof. by vm_compute. Qed.

End AnalysisExtras.

(** ** The character editor *)

Module CharacterMapExtras.
Import Regex GeminiService Analysis CharacterMap BasicFacts CharacterFacts AnalysisExtras.

(** A session of the editor with the prop [characters] fixed. *)
Definition run (characters : list Character.t) (evs : list event) : t :=
  foldl (handle characters) mount evs.

(** Where a character of the edited list comes from: a character of the
    prop with the same id and the same relationships, or an addition
    whose id is a clock value and which has no relationships. *)
Definition kept (characters : list Character.t) (nows : list Z) (m : Character.t)
  : Prop :=
  (exists o, o ∈ characters /\ Character.id m = Character.id o /\
             Character.relationships m = Character.relationships o) \/
  (exists now, now ∈ nows /\ Character.id m = of_int now /\
               Character.relationships m = []).

Lemma kept_mono characters nows nows' m :
  nows ⊆ nows' -> kept characters nows m -> kept characters nows' m.
Proof.
  intros Hsub [Ho|(now & Hin & Hm)]; [by left|]. right. exists now.
  split; [by apply Hsub|done].
Qed.

Lemma kept_props characters nows :
  Forall (kept characters nows) characters.
Proof. apply Forall_forall. intros o Ho. left. by exists o. Qed.

Lemma handle_kept characters nows s e :
  Forall (kept characters nows) (editingCharacters s) ->
  Forall (kept characters (nows ++ clocks [e]))
         (editingCharacters (handle characters s e)).
Proof.
  intros Hs.
  assert (Hs' : Forall (kept characters (nows ++ clocks [e])) (editingCharacters s)).
  { eapply Forall_impl; [exact Hs|]. intros m. apply kept_mono.
    intros x Hx. apply elem_of_app. by left. }
  destruct e; simpl; try exact Hs'.
  - apply kept_props.
  - unfold handleSaveClick.
    destruct onCharactersEdit as [callback|]; simpl; [|exact Hs'].
    by destruct (callback (editingCharacters s)).
  - apply kept_props.
  - apply Forall_forall. intros m Hm.
    apply list_elem_of_In, filter_In in Hm as [Hm _]. apply list_elem_of_In in Hm.
    rewrite Forall_forall in Hs'. by apply Hs'.
  - unfold handleDialogSave. case_bool_decide; [exact Hs'|].
    destruct (isNewCharacter s); simpl.
    + apply Forall_app. split; [exact Hs'|]. constructor; [|constructor].
      right. exists now. split; [|done].
      apply elem_of_app. right. apply list_elem_of_here.
    + destruct (selectedCharacter s) as [selected|]; simpl; [|exact Hs'].
      apply Forall_fmap. eapply Forall_impl; [exact Hs'|]. intros m Hm. simpl.
      destruct (streq (Character.id m) (Character.id selected)); [|done].
      destruct Hm as [(o & Ho & Hid & Hrel)|(now' & Hin & Hid & Hrel)].
      * left. by exists o.
      * right. by exists now'.
Qed.

Lemma foldl_handle_kept characters evs : forall nows s,
  Forall (kept characters nows) (editingCharacters s) ->
  Forall (kept characters (nows ++ clocks evs))
         (editingCharacters (foldl (handle characters) s evs)).
Proof.
  induction evs as [|e evs IH]; intros nows s Hs.
  - unfold clocks. simpl. by rewrite app_nil_r.
  - apply (handle_kept _ _ _ e) in Hs. apply IH in Hs.
    replace (nows ++ clocks (e :: evs)) with ((nows ++ clocks [e]) ++ clocks evs);
      [exact Hs|].
    rewrite <- app_assoc. f_equal. unfold clocks. simpl. by destruct e.
Qed.

(** X12. Whatever the user does in the character editor, every character
    of the edited list is either a character that was displayed, with
    its id and its relationships unchanged, or an addition whose id is
    the clock value of its creation and which has no relationships. *)
Theorem editor_keeps_ids_and_relationships
    (characters : list Character.t) (evs : list event) :
  Forall (kept characters (clocks evs)) (editingCharacters (run characters evs)).
Proof.
  unfold run.
  apply (foldl_handle_kept characters evs [] mount). constructor.
Qed.

Lemma same_id_same_character (cs : list Character.t) o o' :
  NoDup (char_ids cs) -> o ∈ cs -> o' ∈ cs ->
  Character.id o = Character.id o' -> o = o'.
Proof.
  intros Hnd Ho Ho' Hid.
  apply list_elem_of_lookup in Ho as [i Hi]. apply list_elem_of_lookup in Ho' as [j Hj].
  assert (i = j) as ->.
  { apply (NoDup_lookup (char_ids cs) i j (Character.id o)); [done|..];
      unfold char_ids; rewrite list_lookup_fmap.
    - by rewrite Hi.
    - by rewrite Hj, Hid. }
  congruence.
Qed.

(** X13. When the displayed characters come from an analysis, no session
    of the editor makes the diff of the rewriter flag a change of
    relationships: every change it reports as modified has the
    relationships flag off. *)
Theorem editor_never_flags_relationships (text : jsstring) (evs : list event) :
  let characters := extractCharacters text in
  Forall (fun e =>
            match CharacterChange.changes e with
            | Some f => CharacterChange.relationships f = false
            | None => True
            end)
         (allChanges characters (editingCharacters (run characters evs))).
Proof.
  intros characters.
  pose proof (extractCharacters_NoDup text) as Hnd.
  pose proof (extractCharacters_extracted text) as Hshape.
  fold characters in Hnd, Hshape.
  assert (Hkept : Forall (kept characters (clocks evs))
                    (editingCharacters (run characters evs))).
  { apply (foldl_handle_kept characters evs [] mount). constructor. }
  unfold allChanges. apply Forall_app. split.
  - unfold characterChanges. apply Forall_fmap, Forall_forall. intros m Hm. simpl.
    destruct (JS.find _ characters) as [o|] eqn:Hfind; simpl; [|done].
    apply find_by_id_Some in Hfind as [Ho Hid].
    rewrite Forall_forall in Hkept.
    destruct (Hkept m Hm) as [(o' & Ho' & Hid' & Hrel)|(now & _ & Hnow & _)].
    + assert (o = o') as <-.
      { apply (same_id_same_character characters); [done..|congruence]. }
      rewrite Hrel. unfold streq. by rewrite bool_decide_eq_true_2.
    + rewrite Forall_forall in Hshape. destruct (Hshape o Ho) as [[index Hindex] _].
      exfalso. apply (of_int_not_characterId now index). unfold characterId. congruence.
  - unfold deletedCharacters. apply Forall_fmap, Forall_forall. by intros o _.
Qed.

Definition sample_session : list event :=
  [ EditClick;
    CharacterClick
      {| Character.id := utf16 "char-0"; Character.name := utf16 "Ann";
         Character.description := utf16 "a pilot"; Character.relationships := [] |};
    NameInput (utf16 " Anna "); DialogSave 1700000000000;
    AddCharacter; NameInput (utf16 "Cy"); DescriptionInput (utf16 "a spy");
    DialogSave 1700000000500;
    DeleteCharacter (utf16 "char-1") ].

Example sample_session_changes :
  let characters := extractCharacters sample_analysis_reply in
  (fun e => (CharacterChange.type e, CharacterChange.changes e)) <$>
    allChanges characters (editingCharacters (run characters sample_session)) =
  [ (CharacterChange.Modified,
     Some {| CharacterChange.name := true; CharacterChange.description := false;
             CharacterChange.relationships := false |});
    (CharacterChange.Added, None);
    (CharacterChange.Deleted, None) ].
Proof. by vm_compute. Qed.

End CharacterMapExtras.

(** ** Replies in the format the analysis prompt asks for *)

Module FormatExtras.
Import Regex GeminiService Analysis BasicFacts FlowchartFacts AnalysisExtras.

Lemma strip_prefix_app pat rest : strip_prefix pat (pat ++ rest) = Some rest.
Proof. induction pat as [|p pat IH]; simpl; [done|]. by rewrite N.eqb_refl. Qed.

Lemma strip_prefix_Some pat s rest :
  strip_prefix pat s = Some rest -> s = pat ++ rest.
Proof.
  revert s. induction pat as [|p pat IH]; intros s; simpl; [by intros [= ->]|].
  destruct s as [|c s]; [done|]. destruct (N.eqb_spec p c) as [->|]; [|done].
  intros Hs. by rewrite (IH _ Hs).
Qed.

Lemma strip_prefix_head p pat c s :
  p <> c -> strip_prefix (p :: pat) (c :: s) = None.
Proof. intros Hne. simpl. by destruct (N.eqb_spec p c). Qed.

Lemma after_first_eq pat s :
  after_first pat s =
  match strip_prefix pat s with
  | Some rest => Some rest
  | None => match s with [] => None | _ :: s' => after_first pat s' end
  end.
Proof. by destruct s. Qed.

(** A marker whose first character occurs only once in it is found where
    it first stands. *)
Lemma after_first_app a pat before rest :
  a ∉ pat ->
  after_first (a :: pat) before = None ->
  after_first (a :: pat) (before ++ (a :: pat) ++ rest) = Some rest.
Proof.
  intros Ha. induction before as [|c b IH]; intros Hnone.
  - change ([] ++ (a :: pat) ++ rest) with ((a :: pat) ++ rest).
    rewrite after_first_eq. by rewrite strip_prefix_app.
  - rewrite after_first_eq in Hnone.
    destruct (strip_prefix (a :: pat) (c :: b)) as [|] eqn:Hs; [done|].
    rewrite after_first_eq.
    destruct (strip_prefix (a :: pat) ((c :: b) ++ (a :: pat) ++ rest)) as [r|] eqn:Hs'.
    + exfalso. apply strip_prefix_Some in Hs'. simpl in Hs'.
      injection Hs' as -> Hb.
      apply app_eq_inv in Hb as [(k & Hb & Hr)|(k & Hp & Hk)].
      * rewrite Hb in Hs. change (a :: pat ++ k) with ((a :: pat) ++ k) in Hs.
        by rewrite strip_prefix_app in Hs.
      * destruct k as [|x k].
        { rewrite app_nil_r in Hp. subst pat.
          pose proof (strip_prefix_app (a :: b) []) as Hself.
          rewrite app_nil_r in Hself. congruence. }
        simpl in Hk. injection Hk as -> _. apply Ha. rewrite Hp.
        apply elem_of_app. right. apply list_elem_of_here.
    + simpl. by apply IH.
Qed.

Lemma includes_false pat s : includes pat s = false -> after_first pat s = None.
Proof.
  unfold includes. intros Hb. apply bool_decide_eq_false in Hb.
  destruct (after_first pat s); [|done]. exfalso. apply Hb. by eexists.
Qed.

(** The lazy section runs to the first place where the lookahead holds. *)
Lemma lazy_lookahead_app look s t :
  (forall s1 c s2, s = s1 ++ c :: s2 -> look (c :: s2 ++ t) = false) ->
  look t = true ->
  lazy_lookahead look (s ++ t) = Some s.
Proof.
  intros Hs Ht. induction s as [|c s IH].
  - simpl. destruct t; simpl; by rewrite Ht.
  - simpl. rewrite (Hs [] c s eq_refl). rewrite IH; [done|].
    intros s1 c' s2 ->. by apply (Hs (c :: s1) c' s2).
Qed.

(** Trimming gives back a text that has no white space at its ends. *)
Lemma drop_while_spaces ws s :
  Forall (fun c => is_space c = true) ws ->
  drop_while is_space (ws ++ s) = drop_while is_space s.
Proof. induction 1 as [|c ws Hc _ IH]; simpl; [done|]. by rewrite Hc. Qed.

Lemma drop_while_trimmed_head s :
  (forall c, head s = Some c -> is_space c = false) -> drop_while is_space s = s.
Proof. destruct s as [|c s]; simpl; [done|]. intros Hc. by rewrite (Hc c eq_refl). Qed.

Lemma trim_padded ws1 p ws2 :
  trimmed p -> p <> [] ->
  Forall (fun c => is_space c = true) ws1 ->
  Forall (fun c => is_space c = true) ws2 ->
  trim (ws1 ++ p ++ ws2) = p.
Proof.
  intros [Hhead Hlast] Hne Hws1 Hws2. unfold trim.
  rewrite (drop_while_spaces ws1) by done.
  assert (drop_while is_space (p ++ ws2) = p ++ ws2) as ->.
  { apply drop_while_trimmed_head. destruct p as [|c p]; [done|]. simpl.
    intros c' [= <-]. by apply Hhead. }
  rewrite reverse_app, (drop_while_spaces (reverse ws2)).
  2: { apply Forall_forall. intros c Hc. rewrite elem_of_reverse in Hc.
       rewrite Forall_forall in Hws2. by apply Hws2. }
  rewrite drop_while_trimmed_head; [by rewrite reverse_involutive|].
  intros c Hc. rewrite head_reverse in Hc. by apply Hlast.
Qed.

Lemma trim_spaces ws :
  Forall (fun c => is_space c = true) ws -> trim ws = [].
Proof.
  intros Hws. unfold trim.
  rewrite <- (app_nil_r ws), (drop_while_spaces ws) by done. done.
Qed.

(** [s.split(sep)], piece by piece. *)
Definition sepMatch (sep t : jsstring) : option (unit * jsstring) :=
  match strip_prefix sep t with
  | Some rest => Some (tt, rest)
  | None => None
  end.

Lemma split_eq sep s : split sep s = split_pieces [] (global (sepMatch sep) s).
Proof. done. Qed.

Lemma pieces_end sep cur :
  split_pieces cur (global (sepMatch sep) []) = [reverse cur].
Proof. by simp global. Qed.

Lemma pieces_skip sep p : forall cur s,
  (forall s1 c s2, p = s1 ++ c :: s2 -> strip_prefix sep (c :: s2 ++ s) = None) ->
  split_pieces cur (global (sepMatch sep) (p ++ s)) =
  split_pieces (reverse p ++ cur) (global (sepMatch sep) s).
Proof.
  induction p as [|c p IH]; intros cur s Hp; [done|].
  change ((c :: p) ++ s) with (c :: p ++ s). rewrite global_cons.
  unfold sepMatch at 1. rewrite (Hp [] c p eq_refl). simpl.
  rewrite IH.
  - by rewrite reverse_cons, <- app_assoc.
  - intros s1 c' s2 ->. by apply (Hp (c :: s1) c' s2).
Qed.

Lemma pieces_sep a sep cur s :
  split_pieces cur (global (sepMatch (a :: sep)) ((a :: sep) ++ s)) =
  reverse cur :: split_pieces [] (global (sepMatch (a :: sep)) s).
Proof.
  change ((a :: sep) ++ s) with (a :: sep ++ s). rewrite global_cons.
  change (a :: sep ++ s) with ((a :: sep) ++ s).
  unfold sepMatch at 1. rewrite strip_prefix_app.
  rewrite decide_True; [done|]. rewrite length_app. simpl. lia.
Qed.

(** No occurrence of the two characters [a], [b] in a row. *)
Fixpoint free (a b : N) (s : jsstring) : Prop :=
  match s with
  | c :: s' =>
      match s' with
      | d :: _ => ~ (c = a /\ d = b)
      | [] => True
      end /\ free a b s'
  | [] => True
  end.

Lemma free_suffix a b s : forall s1 c s2,
  free a b s -> s = s1 ++ c :: s2 -> strip_prefix [a; b] (c :: s2) = None.
Proof.
  intros s1. revert s. induction s1 as [|x s1 IH]; intros s c s2 Hfree ->.
  - simpl in Hfree. destruct Hfree as [Hc _]. simpl.
    destruct (N.eqb_spec a c) as [->|]; [|done].
    destruct s2 as [|d s2]; [done|]. destruct (N.eqb_spec b d) as [->|]; [|done].
    by destruct Hc.
  - apply (IH (s1 ++ c :: s2)); [|done]. by destruct Hfree as [_ Hfree].
Qed.

Lemma free_without_first a b p s :
  a ∉ p -> free a b s -> free a b (p ++ s).
Proof.
  induction p as [|c p IH]; intros Hp Hs; [done|].
  apply not_elem_of_cons in Hp as [Hc Hp]. simpl. split; [|by apply IH].
  destruct (p ++ s); [done|]. intros [-> _]. done.
Qed.

Lemma free_without_second a b s : b ∉ s -> free a b s.
Proof.
  induction s as [|c s IH]; intros Hs; [done|].
  apply not_elem_of_cons in Hs as [Hc Hs]. simpl. split; [|by apply IH].
  destruct s as [|d s]; [done|]. apply not_elem_of_cons in Hs as [Hd _].
  intros [_ ->]. done.
Qed.

Lemma spaces_without c tail :
  is_space c = false -> Forall (fun x => is_space x = true) tail -> c ∉ tail.
Proof.
  intros Hc Htail Hin. rewrite Forall_forall in Htail. apply Htail in Hin. congruence.
Qed.

(** *** The plot *)

(** A plot point as the prompt asks for it: a line feed, a dash, a
    space and the point. *)
Definition plotLine (point : jsstring) : jsstring := 10%N :: utf16 "- " ++ point.

(** A point that can stand on a line of its own. *)
Definition plain (point : jsstring) : Prop :=
  point <> [] /\ trimmed point /\ 10%N ∉ point.

Lemma plotLine_eq point : plotLine point = [10%N; 45%N] ++ 32%N :: point.
Proof. done. Qed.

Lemma plotLines_free points tail :
  Forall plain points -> 91%N ∉ tail ->
  free 10 91 (concat (plotLine <$> points) ++ tail).
Proof.
  intros Hpoints Htail. induction Hpoints as [|p ps (_ & _ & Hp) _ IH]; simpl.
  - by apply free_without_second.
  - split; [by intros [_ [=]]|]. split; [by intros [[=] _]|].
    rewrite <- app_assoc. apply (free_without_first 10 91 (32%N :: p)); [|done].
    apply not_elem_of_cons. by split.
Qed.

Lemma plot_points_from points : forall q tail,
  q = [] \/ (exists p, q = 32%N :: p /\ plain p) ->
  Forall plain points ->
  Forall (fun c => is_space c = true) tail ->
  List.filter (fun point => (0 <? len point)%Z)
    (trim <$> split_pieces (reverse q)
       (global (sepMatch [10%N; 45%N]) (concat (plotLine <$> points) ++ tail))) =
  match q with [] => [] | _ :: p => [p] end ++ points.
Proof.
  assert (Hkeep : forall p, plain p ->
            List.filter (fun point => (0 <? len point)%Z) [p] = [p]).
  { intros p (Hne & _). simpl. destruct p; [done|]. unfold len. simpl length.
    by rewrite (proj2 (Z.ltb_lt _ _)) by lia. }
  induction points as [|p0 ps IH]; intros q tail Hq Hps Htail.
  - change (concat (plotLine <$> []) ++ tail) with tail.
    rewrite <- (app_nil_r tail), (pieces_skip _ tail _ []), pieces_end.
    2: { intros s1 c s2 Heq. rewrite app_nil_r.
         apply (free_suffix 10 45 tail s1); [|done].
         apply free_without_second. by apply spaces_without. }
    rewrite reverse_app, !reverse_involutive, app_nil_r.
    destruct Hq as [->|(p & -> & Hp)].
    + simpl. by rewrite trim_spaces.
    + destruct Hp as (Hne & Htr & Hlf).
      change ((32%N :: p) ++ tail) with ([32%N] ++ p ++ tail).
      rewrite fmap_cons, trim_padded; [|done..|by repeat constructor|done].
      by rewrite Hkeep.
  - apply Forall_cons in Hps as [Hp0 Hps].
    change (concat (plotLine <$> p0 :: ps) ++ tail)
      with ((plotLine p0 ++ concat (plotLine <$> ps)) ++ tail).
    rewrite <- app_assoc, plotLine_eq, <- (app_assoc [10%N; 45%N]).
    rewrite pieces_sep, reverse_involutive.
    rewrite pieces_skip.
    2: { intros s1 c s2 Heq. apply strip_prefix_head. intros <-.
         assert (10%N ∈ 32%N :: p0) as Hin.
         { rewrite Heq. apply elem_of_app. right. apply list_elem_of_here. }
         apply elem_of_cons in Hin as [[=]|Hin]. by destruct Hp0 as (_ & _ & Hlf). }
    rewrite app_nil_r, fmap_cons. cbn [List.filter].
    rewrite (IH (32%N :: p0) tail); [|right; by exists p0|done|done].
    destruct Hq as [->|(p & -> & Hp)].
    + by rewrite (trim_spaces []).
    + destruct Hp as (Hne & Htr & Hlf).
      rewrite <- (app_nil_r (32%N :: p)).
      change ((32%N :: p) ++ []) with ([32%N] ++ p ++ []).
      rewrite trim_padded; [|done..|by repeat constructor|constructor].
      destruct p; [done|]. done.
Qed.

(** X14. A reply whose plot section is written as the prompt asks, each
    point on a line of its own behind a dash and a space, is read back
    exactly: the extracted plot is the list of the points. The section
    may be followed by white space; the text before the marker must not
    hold the marker. *)
Theorem extractPlot_round_trip (before : jsstring) (points : list jsstring)
    (tail : jsstring) :
  includes (utf16 "[PLOT]") before = false ->
  Forall (fun point => point <> [] /\ trimmed point /\ 10%N ∉ point) points ->
  Forall (fun c => is_space c = true) tail ->
  extractPlot
    (before ++ utf16 "[PLOT]" ++
     concat ((fun point => 10%N :: utf16 "- " ++ point) <$> points) ++ tail)
  = points.
Proof.
  intros Hbefore Hpoints Htail. unfold extractPlot, plotSection.
  change (utf16 "[PLOT]") with (91%N :: utf16 "PLOT]").
  rewrite after_first_app.
  2: { apply (bool_decide_unpack _). by vm_compute. }
  2: { by apply includes_false. }
  change (fun point : list N => 10%N :: utf16 "- " ++ point) with plotLine.
  set (section := concat _ ++ tail).
  assert (Hsection : section = concat (plotLine <$> points) ++ tail) by done.
  rewrite <- (app_nil_r section), lazy_lookahead_app.
  - rewrite Hsection. clear Hsection section.
    set (section := concat _ ++ tail).
    change (split (10%N :: utf16 "-") section)
      with (split_pieces (reverse []) (global (sepMatch [10%N; 45%N]) section)).
    apply (plot_points_from points [] tail); [by left|done..].
  - intros s1 c s2 Heq. rewrite app_nil_r. unfold plotEnd.
    change (10%N :: utf16 "[") with [10%N; 91%N].
    rewrite (free_suffix 10 91 section s1 c s2); [done| |done].
    rewrite Hsection. apply plotLines_free; [done|]. by apply spaces_without.
  - done.
Qed.

Lemma extractPlot_round_trip_witness :
  extractPlot
    (utf16 "[CHARACTERS]" ++ utf16 "[PLOT]" ++
     concat ((fun point => 10%N :: utf16 "- " ++ point) <$>
               [utf16 "a storm"; utf16 "the wreck - and after"]) ++ [10%N])
  = [utf16 "a storm"; utf16 "the wreck - and after"].
Proof.
  apply (extractPlot_round_trip (utf16 "[CHARACTERS]")
           [utf16 "a storm"; utf16 "the wreck - and after"] [10%N]).
  - by vm_compute.
  - repeat constructor; try (by vm_compute); try (by intros c [= <-]);
      apply (bool_decide_unpack _); by vm_compute.
  - by repeat constructor.
Defined.

(** *** The characters *)

Lemma trim_trimmed_id p : trimmed p -> trim p = p.
Proof.
  intros Hp. destruct p as [|c p]; [done|].
  transitivity (trim ([] ++ (c :: p) ++ [])).
  - by rewrite app_nil_r.
  - by apply trim_padded; [| |constructor|constructor].
Qed.

Lemma not_terminator_not_lf c : is_line_terminator c = false -> c <> 10%N.
Proof. by intros Hc ->. Qed.

(** The description of an entry: a space, the text, and then the end of
    the block or a last line feed. *)
Lemma restOfLine_plain d suffix :
  Forall (fun c => is_line_terminator c = false) d ->
  suffix = [] \/ suffix = [10%N] ->
  restOfLine (d ++ suffix) = Some d.
Proof.
  intros Hd Hsuffix. induction Hd as [|c d Hc _ IH]; simpl.
  - by destruct Hsuffix as [->| ->].
  - destruct (N.eqb_spec c 10) as [->|_]; [done|]. by rewrite Hc, IH.
Qed.

Lemma descriptionAt_entry d suffix :
  trimmed d -> Forall (fun c => is_line_terminator c = false) d ->
  suffix = [] \/ suffix = [10%N] ->
  descriptionAt (32%N :: d ++ suffix) = Some d.
Proof.
  intros [Hhead _] Hd Hsuffix. unfold descriptionAt.
  change (drop_while is_space (32%N :: d ++ suffix))
    with (drop_while is_space (d ++ suffix)).
  destruct d as [|c d].
  - by destruct Hsuffix as [->| ->].
  - change (drop_while is_space ((c :: d) ++ suffix))
      with (if is_space c then drop_while is_space (d ++ suffix)
            else (c :: d) ++ suffix).
    rewrite (Hhead c eq_refl). by rewrite restOfLine_plain.
Qed.

Lemma nameAt_eq s :
  nameAt s =
  match
    match strip_prefix (utf16 "**:") s with
    | Some rest => descriptionAt rest
    | None => None
    end
  with
  | Some description => Some ([], description)
  | None =>
      match s with
      | [] => None
      | c :: s' =>
          if is_line_terminator c then None
          else
            match nameAt s' with
            | Some (name, description) => Some (c :: name, description)
            | None => None
            end
      end
  end.
Proof. by destruct s. Qed.

Lemma nameAt_entry name rest description :
  Forall (fun c => c <> 42%N /\ is_line_terminator c = false) name ->
  descriptionAt rest = Some description ->
  nameAt (name ++ utf16 "**:" ++ rest) = Some (name, description).
Proof.
  intros Hname Hrest. induction Hname as [|c name [Hstar Hc] _ IH].
  - change ([] ++ utf16 "**:" ++ rest) with (utf16 "**:" ++ rest).
    by rewrite nameAt_eq, strip_prefix_app, Hrest.
  - change ((c :: name) ++ utf16 "**:" ++ rest)
      with (c :: name ++ utf16 "**:" ++ rest).
    rewrite nameAt_eq. change (utf16 "**:") with (42%N :: utf16 "*:") at 1.
    rewrite strip_prefix_head by done. by rewrite Hc, IH.
Qed.

Lemma leftmost_eq {M} (m : jsstring -> option M) s :
  leftmost m s =
  match m s with
  | Some x => Some x
  | None => match s with [] => None | _ :: s' => leftmost m s' end
  end.
Proof. by destruct s. Qed.

Lemma leftmost_skip {M} (m : jsstring -> option M) pre s :
  (forall c r, c ∈ pre -> m (c :: r) = None) ->
  leftmost m (pre ++ s) = leftmost m s.
Proof.
  intros Hpre. induction pre as [|c pre IH]; [done|]. simpl.
  rewrite Hpre by apply list_elem_of_here. apply IH.
  intros c' r Hc'. apply Hpre. by apply list_elem_of_further.
Qed.

(** An entry without its dash: two stars, the name, two stars, a colon,
    a space and the description. *)
Definition entryText (e : jsstring * jsstring) : jsstring :=
  utf16 "**" ++ e.1 ++ utf16 "**: " ++ e.2.

Definition entryLine (e : jsstring * jsstring) : jsstring :=
  utf16 "- **" ++ e.1 ++ utf16 "**: " ++ e.2 ++ [10%N].

(** A name and a description that can stand in an entry. *)
Definition entry_ok (e : jsstring * jsstring) : Prop :=
  trimmed e.1 /\
  Forall (fun c => c <> 42%N /\ is_line_terminator c = false) e.1 /\
  trimmed e.2 /\
  Forall (fun c => is_line_terminator c = false) e.2.

Lemma entryLine_eq e : entryLine e = [45%N; 32%N] ++ entryText e ++ [10%N].
Proof.
  unfold entryLine, entryText. destruct e as [n d]. simpl fst. simpl snd.
  change (utf16 "- **") with ([45%N; 32%N] ++ utf16 "**").
  by rewrite <- !app_assoc.
Qed.

Lemma entryText_no_lf e : entry_ok e -> 10%N ∉ entryText e.
Proof.
  intros (_ & Hn & _ & Hd). unfold entryText.
  rewrite !not_elem_of_app. repeat split.
  - apply (bool_decide_unpack _). by vm_compute.
  - intros Hin. rewrite Forall_forall in Hn. by destruct (Hn _ Hin) as [_ Hc].
  - apply (bool_decide_unpack _). by vm_compute.
  - intros Hin. rewrite Forall_forall in Hd. by pose proof (Hd _ Hin).
Qed.

Lemma nameMatch_entry pre e suffix :
  entry_ok e -> pre = [45%N; 32%N] \/ pre = [32%N] ->
  suffix = [] \/ suffix = [10%N] ->
  nameMatch (pre ++ entryText e ++ suffix) = Some e.
Proof.
  intros (Hn1 & Hn2 & Hd1 & Hd2) Hpre Hsuffix. unfold nameMatch.
  rewrite leftmost_skip.
  2: { intros c r Hc. change (utf16 "**") with (42%N :: utf16 "*").
       rewrite strip_prefix_head; [done|]. intros <-.
       destruct Hpre as [->| ->];
         repeat (apply elem_of_cons in Hc as [Hc|Hc]; [done|]);
         by apply elem_of_nil in Hc. }
  unfold entryText. destruct e as [n d]. simpl fst in *. simpl snd in *.
  rewrite <- !app_assoc.
  assert (Hm : strip_prefix (utf16 "**")
                 (utf16 "**" ++ n ++ utf16 "**: " ++ d ++ suffix)
               = Some (n ++ utf16 "**:" ++ 32%N :: d ++ suffix)).
  { by rewrite strip_prefix_app. }
  rewrite leftmost_eq, Hm.
  by rewrite (nameAt_entry n _ d); [| |apply descriptionAt_entry].
Qed.

(** The lookahead fails at every place of [s] when [t] follows. *)
Definition never (look : jsstring -> bool) (t s : jsstring) : Prop :=
  forall s1 c s2, s = s1 ++ c :: s2 -> look (c :: s2 ++ t) = false.

Lemma never_app look t s s' :
  never look (s' ++ t) s -> never look t s' -> never look t (s ++ s').
Proof.
  intros Hs Hs' s1 c s2 Heq.
  apply app_eq_inv in Heq as [(k & -> & Hk)|(k & -> & ->)].
  - destruct k as [|c' k].
    + simpl in Hk. by apply (Hs' [] c s2).
    + injection Hk as <- ->. rewrite <- app_assoc. by apply (Hs s1 c k).
  - by apply (Hs' k).
Qed.

Lemma never_plain look t s :
  (forall c r, c ∈ s -> look (c :: r) = false) -> never look t s.
Proof.
  intros Hs s1 c s2 ->. apply Hs, elem_of_app. right. apply list_elem_of_here.
Qed.

Lemma never_one look t c : look (c :: t) = false -> never look t [c].
Proof.
  intros Hc s1 c' s2 Heq. destruct s1 as [|x s1].
  - by injection Heq as <- <-.
  - injection Heq as _ Heq. by destruct s1.
Qed.

Lemma charactersEnd_head c r : c <> 10%N -> charactersEnd (c :: r) = false.
Proof.
  intros Hc. unfold charactersEnd. rewrite strip_prefix_head by done.
  by destruct (N.eqb_spec c 10).
Qed.

Lemma entries_never after entries :
  Forall entry_ok entries ->
  never charactersEnd (10%N :: utf16 "[PLOT]" ++ after)
        (concat (entryLine <$> entries)).
Proof.
  induction 1 as [|e es He Hes IH].
  - intros s1 c s2 Heq. by destruct s1.
  - rewrite fmap_cons. change (concat (entryLine e :: (entryLine <$> es)))
      with (entryLine e ++ concat (entryLine <$> es)).
    apply never_app; [|exact IH].
    rewrite entryLine_eq, app_assoc. apply never_app.
    + apply never_plain. intros c r Hc. apply charactersEnd_head. intros ->.
      apply elem_of_app in Hc as [Hc|Hc].
      * repeat (apply elem_of_cons in Hc as [Hc|Hc]; [done|]).
        by apply elem_of_nil in Hc.
      * by apply entryText_no_lf in Hc.
    + apply never_one. destruct es as [|e' es]; [by vm_compute|].
      rewrite fmap_cons. change (concat (entryLine e' :: (entryLine <$> es)))
        with (entryLine e' ++ concat (entryLine <$> es)).
      rewrite entryLine_eq. by vm_compute.
Qed.

(** The blocks of a section of entries. *)
Fixpoint blocksOf (pre : jsstring) (e : jsstring * jsstring)
    (es : list (jsstring * jsstring)) : list jsstring :=
  match es with
  | [] => [pre ++ entryText e ++ [10%N]]
  | e' :: es' => (pre ++ entryText e) :: blocksOf [32%N] e' es'
  end.

Lemma split_entries es : forall pre e,
  10%N ∉ pre -> entry_ok e -> Forall entry_ok es ->
  split_pieces []
    (global (sepMatch [10%N; 45%N])
       (pre ++ entryText e ++ 10%N :: concat (entryLine <$> es))) =
  blocksOf pre e es.
Proof.
  induction es as [|e' es IH]; intros pre e Hpre He Hes.
  - change (concat (entryLine <$> [])) with (@nil N).
    set (block := pre ++ entryText e ++ [10%N]).
    rewrite <- (app_nil_r block), (pieces_skip _ block _ []), pieces_end.
    + by rewrite app_nil_r, reverse_involutive.
    + intros s1 c s2 Heq. rewrite app_nil_r.
      apply (free_suffix 10 45 block s1); [|done]. unfold block.
      rewrite app_assoc. apply free_without_first; [|done].
      apply not_elem_of_app. split; [done|by apply entryText_no_lf].
  - apply Forall_cons in Hes as [He' Hes].
    assert (pre ++ entryText e ++ 10%N :: concat (entryLine <$> e' :: es) =
            (pre ++ entryText e) ++ [10%N; 45%N] ++
            ([32%N] ++ entryText e' ++ 10%N :: concat (entryLine <$> es))) as ->.
    { rewrite fmap_cons. change (concat (entryLine e' :: (entryLine <$> es)))
        with (entryLine e' ++ concat (entryLine <$> es)).
      rewrite entryLine_eq, <- !app_assoc. done. }
    rewrite pieces_skip.
    2: { intros s1 c s2 Heq. apply strip_prefix_head. intros <-.
         assert (10%N ∈ pre ++ entryText e) as Hin.
         { rewrite Heq. apply elem_of_app. right. apply list_elem_of_here. }
         apply elem_of_app in Hin as [Hin|Hin]; [done|].
         by apply entryText_no_lf in Hin. }
    rewrite pieces_sep, app_nil_r, reverse_involutive.
    simpl blocksOf. f_equal. apply IH; [|done..].
    apply not_elem_of_cons. split; [done|apply not_elem_of_nil].
Qed.

Lemma blocksOf_nonempty pre e es :
  pre <> [] -> Forall (fun b => b <> []) (blocksOf pre e es).
Proof.
  revert pre e. induction es as [|e' es IH]; intros pre e Hpre; simpl.
  - constructor; [|constructor]. by destruct pre.
  - constructor; [by destruct pre|]. by apply IH.
Qed.

Lemma filter_all {A} (P : A -> Prop) `{!forall x, Decision (P x)} (l : list A) :
  Forall P l -> filter P l = l.
Proof.
  induction 1 as [|x l Hx _ IH]; [done|]. by rewrite filter_cons_True, IH.
Qed.

Definition characterOfEntry (index : nat) (e : jsstring * jsstring) : Character.t :=
  {| Character.id := utf16 "char-" ++ of_int (Z.of_nat index);
     Character.name := e.1; Character.description := e.2;
     Character.relationships := [] |}.

Lemma characterOfBlock_entry index pre e suffix :
  entry_ok e -> pre = [45%N; 32%N] \/ pre = [32%N] ->
  suffix = [] \/ suffix = [10%N] ->
  characterOfBlock index (pre ++ entryText e ++ suffix) =
  Some (characterOfEntry index e).
Proof.
  intros He Hpre Hsuffix. unfold characterOfBlock.
  rewrite nameMatch_entry by done. destruct e as [n d].
  destruct He as (Hn & _ & Hd & _). simpl in Hn, Hd.
  unfold characterOfEntry. simpl. by rewrite !trim_trimmed_id.
Qed.

Lemma characters_from es : forall k pre e,
  entry_ok e -> Forall entry_ok es ->
  pre = [45%N; 32%N] \/ pre = [32%N] ->
  omap (fun c => c) (imap (fun i => characterOfBlock (k + i)) (blocksOf pre e es)) =
  imap (fun i => characterOfEntry (k + i)) (e :: es).
Proof.
  induction es as [|e' es IH]; intros k pre e He Hes Hpre.
  - cbn [blocksOf]. rewrite !imap_cons, omap_cons.
    by rewrite characterOfBlock_entry; [|done..|by right].
  - apply Forall_cons in Hes as [He' Hes].
    cbn [blocksOf].
    rewrite (imap_cons (fun i => characterOfBlock (k + i))),
      (imap_cons (fun i => characterOfEntry (k + i)) e), omap_cons.
    rewrite <- (app_nil_r (entryText e)) at 1.
    rewrite characterOfBlock_entry; [|done..|by left]. f_equal.
    rewrite (imap_ext _ (fun i => characterOfBlock (S k + i))).
    2: { intros i x _. simpl. f_equal. lia. }
    rewrite (IH (S k) [32%N] e'); [|done..|by right].
    apply imap_ext. intros i x _. simpl. f_equal. lia.
Qed.

(** X15. A reply whose characters section is written as the prompt asks,
    each character on a line of its own as a dash, the name between
    double stars, a colon and the description, is read back exactly: the
    extracted characters are the entries in order, with the ids char-0,
    char-1 and so on. The section ends at the line feed and plot marker
    that follow it; the text before the marker must not hold the
    marker. *)
Theorem extractCharacters_round_trip (before : jsstring)
    (entries : list (jsstring * jsstring)) (after : jsstring) :
  includes (utf16 "[CHARACTERS]" ++ [10%N]) before = false ->
  Forall (fun e =>
            trimmed e.1 /\
            Forall (fun c => c <> 42%N /\ is_line_terminator c = false) e.1 /\
            trimmed e.2 /\
            Forall (fun c => is_line_terminator c = false) e.2)
         entries ->
  extractCharacters
    (before ++ (utf16 "[CHARACTERS]" ++ [10%N]) ++
     concat ((fun e => utf16 "- **" ++ e.1 ++ utf16 "**: " ++ e.2 ++ [10%N])
               <$> entries) ++
     10%N :: utf16 "[PLOT]" ++ after) =
  imap (fun index e =>
          {| Character.id := utf16 "char-" ++ of_int (Z.of_nat index);
             Character.name := e.1; Character.description := e.2;
             Character.relationships := [] |})
       entries.
Proof.
  intros Hbefore Hentries. unfold extractCharacters, charactersSection.
  change (utf16 "[CHARACTERS]" ++ [10%N])
    with (91%N :: (utf16 "CHARACTERS]" ++ [10%N])).
  rewrite after_first_app.
  2: { apply (bool_decide_unpack _). by vm_compute. }
  2: { by apply includes_false. }
  change (fun e : jsstring * jsstring =>
            utf16 "- **" ++ e.1 ++ utf16 "**: " ++ e.2 ++ [10%N]) with entryLine.
  rewrite lazy_lookahead_app.
  2: { by apply entries_never. }
  2: { unfold charactersEnd.
       change (10%N :: utf16 "[PLOT]" ++ after)
         with ((10%N :: utf16 "[PLOT]") ++ after).
       by rewrite strip_prefix_app. }
  destruct entries as [|e es]; [done|].
  apply Forall_cons in Hentries as [He Hes].
  unfold characterBlocks. rewrite split_eq.
  change (concat _) with (concat (entryLine <$> e :: es)).
  assert (concat (entryLine <$> e :: es) =
          [45%N; 32%N] ++ entryText e ++ 10%N :: concat (entryLine <$> es)) as ->.
  { rewrite fmap_cons. change (concat (entryLine e :: (entryLine <$> es)))
      with (entryLine e ++ concat (entryLine <$> es)).
    rewrite entryLine_eq, <- !app_assoc. done. }
  change (sepMatch (10%N :: utf16 "-")) with (sepMatch [10%N; 45%N]).
  rewrite split_entries; [|apply (bool_decide_unpack _); by vm_compute|done..].
  rewrite filter_all by (by apply blocksOf_nonempty).
  apply (characters_from es 0 [45%N; 32%N] e); [done..|by left].
Qed.

Lemma extractCharacters_round_trip_witness :
  extractCharacters
    (utf16 "[FLOWCHART]" ++ (utf16 "[CHARACTERS]" ++ [10%N]) ++
     concat ((fun e => utf16 "- **" ++ e.1 ++ utf16 "**: " ++ e.2 ++ [10%N])
               <$> [(utf16 "Ann", utf16 "a pilot - the best"); (utf16 "Bob", [])]) ++
     10%N :: utf16 "[PLOT]" ++ [10%N]) =
  [ {| Character.id := utf16 "char-0"; Character.name := utf16 "Ann";
       Character.description := utf16 "a pilot - the best";
       Character.relationships := [] |};
    {| Character.id := utf16 "char-1"; Character.name := utf16 "Bob";
       Character.description := []; Character.relationships := [] |} ].
Proof.
  apply (extractCharacters_round_trip (utf16 "[FLOWCHART]")
           [(utf16 "Ann", utf16 "a pilot - the best"); (utf16 "Bob", [])] [10%N]).
  - by vm_compute.
  - repeat constructor; try (by vm_compute); by intros c [= <-].
Defined.

End FormatExtras.

(** ** The rewriters and the partial rewrite *)

Module RewriteExtras.
Import Regex GeminiService Rewriters Selecting App.
Import BasicFacts StoreFacts FlowchartFacts AnalysisExtras FormatExtras.

Lemma drop_while_weaker (p : N -> bool) s :
  (forall c, p c = true -> is_space c = true) ->
  drop_while is_space (drop_while p s) = drop_while is_space s.
Proof.
  intros Hp. induction s as [|c s IH]; simpl; [done|].
  destruct (p c) eqn:Hc; [|done]. by rewrite (Hp c Hc).
Qed.

Lemma trim_line_feeds s :
  trim (drop_while (fun c => (c =? 10)%N) s) = trim s.
Proof.
  unfold trim. rewrite drop_while_weaker; [done|].
  intros c Hc. apply N.eqb_eq in Hc. by subst c.
Qed.

Lemma stripEcho_echo echo tail story :
  Forall (fun c => c <> 93%N /\ is_line_terminator c = false) tail ->
  trim (stripEcho echo (91%N :: echo ++ tail ++ 93%N :: story)) = trim story.
Proof.
  intros Htail. unfold stripEcho.
  change (91%N :: echo ++ tail ++ 93%N :: story)
    with ((91%N :: echo) ++ tail ++ 93%N :: story).
  rewrite strip_prefix_app, lazy_until_complete; [apply trim_line_feeds|done|].
  eapply Forall_impl; [exact Htail|]. intros c [Hc Hlt]. split; [|done].
  by destruct (N.eqb_spec c 93).
Qed.

Lemma stripLine_line line story :
  trim (stripLine line (91%N :: line ++ 93%N :: story)) = trim story.
Proof.
  unfold stripLine.
  change (91%N :: line ++ 93%N :: story) with ((91%N :: line) ++ [93%N] ++ story).
  rewrite app_assoc.
  change ((91%N :: line) ++ [93%N]) with (91%N :: line ++ [93%N]).
  rewrite strip_prefix_app. apply trim_line_feeds.
Qed.

(** X16. A reply that starts with the echo of the format line of the
    prompt, an opening bracket, the words of the pattern, any rest of
    the line without a closing bracket, and a closing bracket, is
    returned without the echo and trimmed, by each of the four
    rewriters. *)
Theorem rewriters_drop_the_echo (tail story : jsstring) :
  Forall (fun c => c <> 93%N /\ is_line_terminator c = false) tail ->
  generateContinuation
    (Body (Some (91%N :: continuationEcho ++ tail ++ 93%N :: story)))
    = Control.Resolved (trim story) /\
  modifyEntireText (Body (Some (91%N :: rewriteEcho ++ tail ++ 93%N :: story)))
    = Control.Resolved (trim story) /\
  modifyStoryWithCharacters
    (Body (Some (91%N :: rewriteEcho ++ tail ++ 93%N :: story)))
    = Control.Resolved (trim story) /\
  generateStoryFromFlowchart (Body (Some (91%N :: storyLine ++ 93%N :: story)))
    = Control.Resolved (trim story).
Proof.
  intros Htail.
  unfold generateContinuation, modifyEntireText, modifyStoryWithCharacters,
    generateStoryFromFlowchart.
  cbn [replyText Control.await Control.bind Control.settle].
  by rewrite !stripEcho_echo, stripLine_line.
Qed.

(** The format lines of the prompts are such echoes. *)
Lemma rewriters_drop_the_echo_witness :
  let story := [10%N; 10%N] ++ utf16 "Once upon a time " in
  generateContinuation (Body (Some (continuationFormat ++ story)))
    = Control.Resolved (utf16 "Once upon a time") /\
  modifyEntireText (Body (Some (rewriteFormat ++ story)))
    = Control.Resolved (utf16 "Once upon a time").
Proof.
  split.
  - apply (rewriters_drop_the_echo
             [12290; 22793; 26356; 38283; 22987; 20301; 32622; 12363; 12425;
              29289; 35486; 12398; 26368; 24460; 12414; 12391; 12434; 29983;
              25104; 12375; 12390; 12367; 12384; 12373; 12356; 12290]%N
             ([10%N; 10%N] ++ utf16 "Once upon a time ")).
    repeat constructor; by vm_compute.
  - apply (rewriters_drop_the_echo
             [12375; 12390; 12367; 12384; 12373; 12356; 12290]%N
             ([10%N; 10%N] ++ utf16 "Once upon a time ")).
    repeat constructor; by vm_compute.
Defined.

(** *** The selection *)

Lemma substring_ordered value a b :
  0 <= a <= b -> b <= len value ->
  substring value a b = take (Z.to_nat (b - a)) (drop (Z.to_nat a) value).
Proof.
  intros Hab Hb. unfold substring. cbv zeta.
  f_equal; [f_equal; lia|f_equal; f_equal; lia].
Qed.

Lemma selection_partition value a b :
  0 <= a <= b -> b <= len value ->
  substring value 0 a ++ substring value a b ++ substring value b (len value)
  = value.
Proof.
  intros Hab Hb. unfold len in Hb.
  rewrite !substring_ordered by (unfold len; lia).
  rewrite Z.sub_0_r. change (Z.to_nat 0) with 0%nat. rewrite drop_0.
  rewrite (take_ge (drop (Z.to_nat b) value)).
  2: { rewrite length_drop. unfold len. lia. }
  replace (Z.to_nat b) with (Z.to_nat a + Z.to_nat (b - a))%nat by lia.
  rewrite <- drop_drop, take_drop. apply take_drop.
Qed.

(** X17. A partial rewrite keeps the text in front of the selection and
    nothing else: with a selection taken from the text area and a
    continuation that the rewriter resolved with, the text shown after
    the rewrite, which is also the text of the new last version, is the
    text area's value up to the start of the selection followed by the
    continuation. The selection record splits the value into the text
    before, the selected text and the text after; the trimmed selection
    is not empty and the continuation is trimmed. *)
Theorem partial_rewrite_keeps_prefix
    (s : App.t) (ta : textarea) (previous : option TextSelection.t)
    (selection : TextSelection.t) (modificationPrompt : jsstring) (r : reply)
    (continuation : jsstring) (a a' : GeminiResponse.t) (now : Z)
    (active : StoryVersion.t) :
  0 <= selectionStart ta <= selectionEnd ta ->
  selectionEnd ta <= len (value ta) ->
  handleTextSelection (Some ta) previous = Some selection ->
  generateContinuation r = Control.Resolved continuation ->
  at_index (versions s) (currentVersionIndex s) = Some active ->
  let s' := handleModifyText s selection modificationPrompt (Some continuation)
              (Some a) (Some a') now in
  TextSelection.before selection ++
    substring (value ta) (selectionStart ta) (selectionEnd ta) ++
    TextSelection.after selection = value ta /\
  TextSelection.text selection <> [] /\
  trimmed continuation /\
  text s' = take (Z.to_nat (selectionStart ta)) (value ta) ++ continuation /\
  StoryVersion.text <$> last (versions s') = Some (text s').
Proof.
  intros Horder Hend Hsel Hcont Hactive s'.
  unfold handleTextSelection in Hsel.
  destruct (selectionStart ta =? selectionEnd ta); [done|].
  case_bool_decide as Hempty; [done|]. injection Hsel as <-. simpl.
  split; [by apply selection_partition|]. split; [done|]. split.
  { unfold generateContinuation in Hcont. destruct (replyText r); [|done].
    simpl in Hcont. injection Hcont as <-. apply trim_trimmed. }
  subst s'. unfold handleModifyText, appendVersion. rewrite Hactive. simpl.
  rewrite substring_ordered by lia. rewrite Z.sub_0_r, drop_0.
  split; [done|]. by rewrite last_snoc.
Qed.

Definition sample_textarea : textarea :=
  {| value := utf16 "The ship left port. A storm rose. All was lost.";
     selectionStart := 20; selectionEnd := 33 |}.

Lemma partial_rewrite_keeps_prefix_witness :
  exists s',
    text s' = utf16 "The ship left port. The sea stayed calm." /\
    StoryVersion.text <$> last (versions s') = Some (text s').
Proof.
  destruct (execs init [TextChange sample_text (Some sample_analysis) 0])
    as [s|] eqn:Hs; [|by vm_compute in Hs].
  destruct (handleTextSelection (Some sample_textarea) None)
    as [selection|] eqn:Hsel; [|by vm_compute in Hsel].
  destruct (at_index (versions s) (currentVersionIndex s)) as [active|] eqn:Hactive.
  2: { vm_compute in Hs. injection Hs as <-. by vm_compute in Hactive. }
  exists (handleModifyText s selection sample_prompt
            (Some (utf16 "The sea stayed calm."))
            (Some sample_analysis) (Some sample_analysis) 1).
  destruct (partial_rewrite_keeps_prefix s sample_textarea None selection
              sample_prompt
              (Body (Some (continuationFormat ++ [10%N] ++
                           utf16 "The sea stayed calm." ++ [10%N])))
              (utf16 "The sea stayed calm.") sample_analysis sample_analysis 1
              active)
    as (_ & _ & _ & Htext & Hlast).
  - by vm_compute.
  - by vm_compute.
  - exact Hsel.
  - by vm_compute.
  - exact Hactive.
  - split; [|exact Hlast]. rewrite Htext. by vm_compute.
Defined.

End RewriteExtras.

(** ** The layout of a flowchart in the version map *)

Module LayoutExtras.
Import Layout.

(** *** The dependency sets *)

Definition node_ids (nodes : list FlowNode.t) : list jsstring :=
  FlowNode.id <$> nodes.

Lemma initDependencies_lookup nodes k :
  initDependencies nodes !! k = if decide (k ∈ node_ids nodes) then Some [] else None.
Proof.
  unfold initDependencies. induction nodes as [|n nodes IH] using rev_ind.
  - rewrite decide_False by apply not_elem_of_nil. apply lookup_empty.
  - rewrite foldl_app. simpl. unfold node_ids. rewrite fmap_app. simpl.
    destruct (decide (FlowNode.id n = k)) as [->|Hne].
    + rewrite lookup_insert_eq. rewrite decide_True; [done|].
      apply elem_of_app. right. apply list_elem_of_here.
    + rewrite lookup_insert_ne by done. rewrite IH. unfold node_ids.
      destruct (decide (k ∈ FlowNode.id <$> nodes)) as [Hin|Hni].
      * rewrite decide_True; [done|]. apply elem_of_app. by left.
      * rewrite decide_False; [done|]. rewrite elem_of_app. intros [?|Hk]; [done|].
        apply list_elem_of_singleton in Hk. congruence.
Qed.

Lemma elem_of_set_add x y set : x ∈ set_add y set <-> x ∈ set \/ x = y.
Proof.
  unfold set_add. case_bool_decide as Hy.
  - split; [by left|]. by intros [?| ->].
  - rewrite elem_of_app, list_elem_of_singleton. done.
Qed.

(** What the loop over the edges leaves: it throws exactly when a target
    is not a key, and else the keys are unchanged and the sets have
    grown by the sources of the edges. *)
Lemma addDependencies_spec edges : forall d,
  match addDependencies d edges with
  | Control.Ok d' =>
      Forall (fun e => is_Some (d !! FlowEdge.target e)) edges /\
      (forall k, is_Some (d' !! k) <-> is_Some (d !! k)) /\
      (forall k set' x, d' !! k = Some set' ->
         x ∈ set' <->
         (exists set, d !! k = Some set /\ x ∈ set) \/
         (exists e, e ∈ edges /\ FlowEdge.target e = k /\ FlowEdge.source e = x))
  | Control.Throw => Exists (fun e => d !! FlowEdge.target e = None) edges
  end.
Proof.
  induction edges as [|e edges IH]; intros d; simpl.
  - split; [constructor|]. split; [done|]. intros k set' x Hk. split.
    + intros Hx. left. by exists set'.
    + intros [(set & Hset & Hx)|(e & He & _)]; [congruence|].
      by apply elem_of_nil in He.
  - unfold addDependency. destruct (d !! FlowEdge.target e) as [set|] eqn:Ht; simpl.
    2: { by apply Exists_cons_hd. }
    set (d1 := <[FlowEdge.target e := set_add (FlowEdge.source e) set]> d).
    assert (Hkeys : forall k, is_Some (d1 !! k) <-> is_Some (d !! k)).
    { intros k. unfold d1. destruct (decide (FlowEdge.target e = k)) as [<-|Hne].
      - rewrite lookup_insert_eq, Ht. split; by eexists.
      - by rewrite lookup_insert_ne. }
    specialize (IH d1). destruct (addDependencies d1 edges) as [d'|].
    + destruct IH as (Hall & Hdom & Hsets). split; [|split].
      * constructor; [by rewrite Ht|]. eapply Forall_impl; [exact Hall|].
        intros e' He'. by apply Hkeys.
      * intros k. by rewrite Hdom, Hkeys.
      * intros k set' x Hk. rewrite (Hsets k set' x Hk). unfold d1.
        destruct (decide (FlowEdge.target e = k)) as [<-|Hne].
        -- rewrite lookup_insert_eq, Ht. split.
           ++ intros [(s & [= <-] & Hx)|(e' & He' & Htgt & Hsrc)].
              ** apply elem_of_set_add in Hx as [Hx| ->].
                 --- left. by exists set.
                 --- right. exists e. split; [apply list_elem_of_here|done].
              ** right. exists e'. split; [by apply list_elem_of_further|done].
           ++ intros [(s & [= <-] & Hx)|(e' & He' & Htgt & Hsrc)].
              ** left. eexists. split; [done|]. apply elem_of_set_add. by left.
              ** apply elem_of_cons in He' as [->|He'].
                 --- left. eexists. split; [done|]. apply elem_of_set_add. by right.
                 --- right. by exists e'.
        -- rewrite lookup_insert_ne by done. split.
           ++ intros [?|(e' & He' & Htgt & Hsrc)]; [by left|].
              right. exists e'. split; [by apply list_elem_of_further|done].
           ++ intros [?|(e' & He' & Htgt & Hsrc)]; [by left|].
              apply elem_of_cons in He' as [->|He']; [done|].
              right. by exists e'.
    + apply Exists_cons_tl. eapply Exists_impl; [exact IH|].
      intros e' He'. simpl in He'. destruct (d !! FlowEdge.target e') eqn:Hd; [|done].
      assert (is_Some (d1 !! FlowEdge.target e')) as [? Hs]; [|congruence].
      apply Hkeys. by eexists.
Qed.

(** *** The recursion *)

Section Levels.

Variable deps : gmap jsstring (list jsstring).

(** Every source of an edge is a key. *)
Definition closed : Prop :=
  forall k set d, deps !! k = Some set -> d ∈ set -> is_Some (deps !! d).

(** From [st] to [st'] the visited set has grown, and every id it has
    grown by is a key whose sources are visited in [st']. *)
Definition settled (st st' : state) : Prop :=
  visited st ⊆ visited st' /\
  forall m, m ∈ visited st' -> m ∉ visited st ->
    exists set, deps !! m = Some set /\ forall d, d ∈ set -> d ∈ visited st'.

Lemma settled_refl st : settled st st.
Proof. split; [done|]. by intros m Hm Hm'. Qed.

Lemma settled_trans st1 st2 st3 :
  settled st1 st2 -> settled st2 st3 -> settled st1 st3.
Proof.
  intros [Hsub12 H12] [Hsub23 H23]. split; [set_solver|].
  intros m Hm3 Hm1. destruct (decide (m ∈ visited st2)) as [Hm2|Hm2].
  - destruct (H12 m Hm2 Hm1) as (set & Hset & Hd). exists set. split; [done|].
    intros d Hin. apply Hsub23. by apply Hd.
  - by apply H23.
Qed.

(** The keys not yet visited: what bounds the depth of the recursion. *)
Definition remaining (st : state) : nat := size (dom deps ∖ visited st).

Lemma remaining_mono st st' :
  visited st ⊆ visited st' -> (remaining st' <= remaining st)%nat.
Proof.
  intros Hsub. unfold remaining. apply subseteq_size. intros x Hx.
  apply elem_of_difference in Hx as [Hd Hn]. apply elem_of_difference.
  split; [done|]. intros Hin. apply Hn. by apply Hsub.
Qed.

Lemma remaining_visit n set st l :
  deps !! n = Some set -> n ∉ visited st ->
  (remaining (mkState ({[n]} ∪ visited st) l) < remaining st)%nat.
Proof.
  intros Hn Hv. unfold remaining. apply subset_size. simpl.
  assert (n ∈ dom deps) as Hdom by (apply elem_of_dom; by eexists).
  split.
  - intros x. rewrite !elem_of_difference, elem_of_union.
    intros [Hx Hx']. split; [done|]. intros Hin. apply Hx'. by right.
  - intros Hsup. specialize (Hsup n).
    rewrite !elem_of_difference, elem_of_union, elem_of_singleton in Hsup.
    destruct Hsup as [_ Hbad]; [done|]. apply Hbad. by left.
Qed.

(** What a call of [calculateLevel] comes to. *)
Definition level_outcome (n : jsstring) (st : state)
    (r : Control.exn (option num * state)) : Prop :=
  match r with
  | Control.Ok (_, st') => settled st st' /\ n ∈ visited st'
  | Control.Throw => ((n ∉ visited st) /\ deps !! n = None) \/ ~ closed
  end.

Definition levels_outcome (dl : list jsstring) (st : state)
    (r : Control.exn (list (option num) * state)) : Prop :=
  match r with
  | Control.Ok (_, st') => settled st st' /\ forall d, d ∈ dl -> d ∈ visited st'
  | Control.Throw => (exists d, d ∈ dl /\ deps !! d = None) \/ ~ closed
  end.

Lemma mapLevels_runs (f : jsstring -> state -> result (option num)) fuel :
  (forall n st, (remaining st < fuel)%nat ->
     exists r, f n st = Some r /\ level_outcome n st r) ->
  forall dl st, (remaining st < fuel)%nat ->
    exists r, mapLevels f dl st = Some r /\ levels_outcome dl st r.
Proof.
  intros Hf. induction dl as [|d dl IH]; intros st Hfuel; simpl.
  - eexists. split; [done|]. simpl. split; [apply settled_refl|].
    intros d Hd. by apply elem_of_nil in Hd.
  - destruct (Hf d st Hfuel) as (r & -> & Hr). destruct r as [[v st1]|]; simpl in Hr.
    + destruct Hr as [Hst1 Hd].
      destruct (IH st1) as (r' & -> & Hr').
      { pose proof (remaining_mono st st1 (proj1 Hst1)). lia. }
      destruct r' as [[vs st2]|]; simpl in Hr'.
      * destruct Hr' as [Hst2 Hdl]. eexists. split; [done|]. simpl.
        split; [by eapply settled_trans|].
        intros d' Hd'. apply elem_of_cons in Hd' as [->|Hd']; [|by apply Hdl].
        by apply (proj1 Hst2).
      * eexists. split; [done|]. simpl.
        destruct Hr' as [(d' & Hd' & Hnone)|Hopen]; [|by right].
        left. exists d'. split; [by apply list_elem_of_further|done].
    + eexists. split; [done|]. simpl. destruct Hr as [[_ Hnone]|Hopen]; [|by right].
      left. exists d. split; [apply list_elem_of_here|done].
Qed.

Lemma calculateLevel_runs fuel : forall n st,
  (remaining st < fuel)%nat ->
  exists r, calculateLevel fuel deps n st = Some r /\ level_outcome n st r.
Proof.
  induction fuel as [|fuel IH]; intros n st Hfuel; [lia|]. simpl.
  case_bool_decide as Hv.
  { eexists. split; [done|]. simpl. split; [apply settled_refl|done]. }
  destruct (deps !! n) as [set|] eqn:Hn.
  2: { eexists. split; [done|]. simpl. by left. }
  pose proof (remaining_visit n set st (levels st) Hn Hv) as Hlt.
  set (st1 := mkState ({[n]} ∪ visited st) (levels st)) in *.
  destruct set as [|d set].
  { eexists. split; [done|]. simpl.
    split; [|apply elem_of_union; left; by apply elem_of_singleton].
    split; [apply union_subseteq_r|].
    intros m Hm Hm'. apply elem_of_union in Hm as [Hm|Hm]; [|done].
    apply elem_of_singleton in Hm as ->.
    exists []. split; [done|]. intros d Hd. by apply elem_of_nil in Hd. }
  destruct (mapLevels_runs (calculateLevel fuel deps) fuel IH (d :: set) st1)
    as (r & -> & Hr); [lia|].
  destruct r as [[vals st2]|]; simpl in Hr.
  - destruct Hr as [[Hsub Hnew] Hdl]. eexists. split; [done|]. simpl.
    assert (n ∈ visited st2) as Hn2.
    { apply Hsub, elem_of_union. left. by apply elem_of_singleton. }
    split; [|done]. split.
    { intros x Hx. apply Hsub, elem_of_union. by right. }
    intros m Hm Hm'. destruct (decide (m = n)) as [->|Hne].
    + by exists (d :: set).
    + apply Hnew; [done|]. intros Hin. apply elem_of_union in Hin as [Hin|Hin]; [|done].
      by apply elem_of_singleton in Hin.
  - eexists. split; [done|]. simpl. right.
    destruct Hr as [(d' & Hd' & Hnone)|Hopen]; [|done].
    intros Hclosed. destruct (Hclosed n (d :: set) d' Hn Hd') as [? Hsome]. congruence.
Qed.

Lemma visitAll_runs fuel nodes : forall st,
  (size (dom deps) < fuel)%nat ->
  exists r, visitAll fuel deps nodes st = Some r /\
    match r with
    | Control.Ok (_, st') =>
        settled st st' /\ forall n, n ∈ nodes -> FlowNode.id n ∈ visited st'
    | Control.Throw =>
        (exists n, n ∈ nodes /\ deps !! FlowNode.id n = None) \/ ~ closed
    end.
Proof.
  intros st Hfuel. revert st. induction nodes as [|n nodes IH]; intros st; simpl.
  - eexists. split; [done|]. split; [apply settled_refl|].
    intros n Hn. by apply elem_of_nil in Hn.
  - assert (Hstep : forall st1, settled st st1 -> FlowNode.id n ∈ visited st1 ->
              exists r, visitAll fuel deps nodes st1 = Some r /\
                match r with
                | Control.Ok (_, st') =>
                    settled st st' /\
                    forall n', n' ∈ n :: nodes -> FlowNode.id n' ∈ visited st'
                | Control.Throw =>
                    (exists n', n' ∈ n :: nodes /\ deps !! FlowNode.id n' = None) \/
                    ~ closed
                end).
    { intros st1 Hst1 Hn1. destruct (IH st1) as (r & -> & Hr).
      eexists. split; [done|]. destruct r as [[u st']|].
      - destruct Hr as [Hst' Hall]. split; [by eapply settled_trans|].
        intros n' Hn'. apply elem_of_cons in Hn' as [->|Hn']; [|by apply Hall].
        by apply (proj1 Hst').
      - destruct Hr as [(n' & Hn' & Hnone)|Hopen]; [|by right].
        left. exists n'. split; [by apply list_elem_of_further|done]. }
    case_bool_decide as Hv; [by apply Hstep; [apply settled_refl|]|].
    destruct (calculateLevel_runs fuel (FlowNode.id n) st) as (r & -> & Hr).
    { unfold remaining.
      assert (dom deps ∖ visited st ⊆ dom deps) as Hsub by apply subseteq_difference_l, reflexivity.
      apply subseteq_size in Hsub. lia. }
    destruct r as [[v st1]|]; simpl in Hr.
    + destruct Hr as [Hst1 Hn1]. by apply Hstep.
    + eexists. split; [done|]. destruct Hr as [[_ Hnone]|Hopen]; [|by right].
      left. exists n. split; [apply list_elem_of_here|done].
Qed.

End Levels.

(** X18. For a flowchart whose node ids and edge endpoints are ordinary
    keys (no name of a member of Object.prototype, no string of digits),
    the layout always comes to an end: it throws a TypeError exactly
    when some edge has a source or a target that is not the id of a
    node, and returns a layout otherwise, cyclic flowcharts included. *)
Theorem layout_returns_iff (nodes : list FlowNode.t) (edges : list FlowEdge.t)
    (baseX : Z) (divergencePoint : option jsstring) :
  ordinaryKeys nodes edges ->
  exists r,
    calculateFlowchartLayout nodes edges baseX divergencePoint = Some r /\
    (r = Control.Throw <->
     Exists (fun e => FlowEdge.source e ∉ node_ids nodes \/
                      FlowEdge.target e ∉ node_ids nodes) edges).
Proof.
  intros _. unfold calculateFlowchartLayout.
  pose proof (addDependencies_spec edges (initDependencies nodes)) as Hdeps.
  assert (Hinit : forall k, is_Some (initDependencies nodes !! k) <-> k ∈ node_ids nodes).
  { intros k. rewrite initDependencies_lookup. by case_decide; split. }
  destruct (addDependencies (initDependencies nodes) edges) as [deps|].
  2: { eexists. split; [done|]. split; [|done]. intros _.
       eapply Exists_impl; [exact Hdeps|]. intros e He. right.
       intros Hin. apply Hinit in Hin as [? Hsome]. simpl in He. congruence. }
  destruct Hdeps as (Htargets & Hkeys & Hsets).
  assert (Hsources : forall k set d, deps !! k = Some set -> d ∈ set ->
            exists e, e ∈ edges /\ FlowEdge.target e = k /\ FlowEdge.source e = d).
  { intros k set d Hk Hd. apply (Hsets k set d Hk) in Hd as [(s & Hs & Hd)|He]; [|done].
    rewrite initDependencies_lookup in Hs. case_decide; [|done].
    injection Hs as <-. by apply elem_of_nil in Hd. }
  destruct (visitAll_runs deps (S (size (dom deps))) nodes (mkState ∅ []))
    as (r & -> & Hr); [lia|].
  destruct r as [[u st]|].
  - eexists. split; [done|]. split; [done|]. intros Hbad. exfalso.
    destruct Hr as [[_ Hnew] Hall].
    assert (Hvisited : forall k, k ∈ visited st ->
              exists set, deps !! k = Some set /\ forall d, d ∈ set -> d ∈ visited st).
    { intros k Hk. apply Hnew; [done|]. simpl. set_solver. }
    apply Exists_exists in Hbad as (e & He & [Hsrc|Htgt]).
    + rewrite Forall_forall in Htargets. pose proof (Htargets e He) as Ht.
      apply Hinit in Ht.
      apply list_elem_of_fmap in Ht as (n & Hid & Hn).
      apply Hall in Hn. rewrite <- Hid in Hn.
      destruct (Hvisited _ Hn) as (set & Hset & Hclosed).
      assert (FlowEdge.source e ∈ set) as Hin.
      { apply (Hsets _ set _ Hset). right. by exists e. }
      apply Hclosed in Hin. destruct (Hvisited _ Hin) as (set' & Hset' & _).
      apply Hsrc, Hinit, Hkeys. by eexists.
    + rewrite Forall_forall in Htargets. apply Htgt, Hinit. by apply Htargets.
  - eexists. split; [done|]. split; [|done]. intros _.
    destruct (decide (Forall (fun e => FlowEdge.source e ∈ node_ids nodes) edges))
      as [Hall|Hnot].
    + exfalso. destruct Hr as [(n & Hn & Hnone)|Hopen].
      * assert (is_Some (deps !! FlowNode.id n)) as [? Hsome]; [|congruence].
        apply Hkeys, Hinit. apply list_elem_of_fmap. by exists n.
      * apply Hopen. intros k set d Hk Hd.
        destruct (Hsources k set d Hk Hd) as (e & He & _ & <-).
        rewrite Forall_forall in Hall. by apply Hkeys, Hinit, Hall.
    + apply not_Forall_Exists in Hnot; [|intros e; apply _].
      eapply Exists_impl; [exact Hnot|]. intros e He. by left.
Qed.

(** *** The levels of an acyclic flowchart *)

Lemma find_app {A} (p : A -> bool) (l l' : list A) :
  JS.find p (l ++ l') =
  match JS.find p l with Some x => Some x | None => JS.find p l' end.
Proof. induction l as [|x l IH]; simpl; [done|]. by destruct (p x). Qed.

Lemma read_assign_same n v l : read l n = None -> read (assign n v l) n = Some v.
Proof.
  intros Hn. unfold assign. rewrite Hn. unfold read in *. rewrite find_app.
  destruct (JS.find _ l); [done|]. simpl. unfold streq.
  by rewrite bool_decide_eq_true_2.
Qed.

Lemma read_assign_other n v l m :
  m <> n -> read l n = None -> read (assign n v l) m = read l m.
Proof.
  intros Hne Hn. unfold assign. rewrite Hn. unfold read. rewrite find_app.
  destruct (JS.find _ l); [done|]. simpl. unfold streq.
  by rewrite bool_decide_eq_false_2.
Qed.

(** [Math.max] of levels that are all numbers. *)
Lemma math_max_ints (vals : list (option num)) :
  Forall (fun v => exists ld, v = Some (Int ld) /\ 0 <= ld) vals ->
  vals <> [] ->
  exists M, math_max (of_value <$> vals) = Int M /\ 0 <= M /\
            Forall (fun v => exists ld, v = Some (Int ld) /\ ld <= M) vals.
Proof.
  induction 1 as [|v vals (ld & -> & Hld) Hvals IH]; [done|]. intros _.
  destruct vals as [|v' vals].
  - exists ld. simpl. split; [done|]. split; [done|].
    constructor; [|constructor]. exists ld. split; [done|lia].
  - destruct IH as (M & HM & HM0 & Hall); [done|].
    exists (Z.max ld M). cbn [fmap list_fmap math_max foldr] in *.
    rewrite HM. simpl. split; [done|]. split; [lia|].
    constructor; [exists ld; split; [done|lia]|].
    eapply Forall_impl; [exact Hall|]. intros v (ld' & -> & Hle).
    exists ld'. split; [done|lia].
Qed.

Section Acyclic.

Variable deps : gmap jsstring (list jsstring).
Variable rank : jsstring -> nat.
Hypothesis deps_closed : closed deps.
Hypothesis deps_ranked :
  forall k set d, deps !! k = Some set -> d ∈ set -> (rank d < rank k)%nat.

(** The level of [m] is settled in [l]: it is a number, zero when [m]
    has no source, and above the levels of its sources. *)
Definition finished (l : list (jsstring * num)) (m : jsstring) : Prop :=
  exists set lv,
    deps !! m = Some set /\ read l m = Some (Int lv) /\ 0 <= lv /\
    (set = [] -> lv = 0) /\
    forall d, d ∈ set -> exists ld, read l d = Some (Int ld) /\ 0 <= ld < lv.

(** Only visited ids have a level. *)
Definition entered (st : state) : Prop :=
  forall m, is_Some (read (levels st) m) -> m ∈ visited st.

(** The levels of the ids visited in [st] are the same in [st']. *)
Definition preserves (st st' : state) : Prop :=
  forall m, m ∈ visited st -> read (levels st') m = read (levels st) m.

Lemma finished_preserved st st' m :
  entered st -> preserves st st' ->
  finished (levels st) m -> finished (levels st') m.
Proof.
  intros Hent Hpre (set & lv & Hset & Hlv & H0 & Hnil & Hd).
  exists set, lv. split; [done|]. split.
  { rewrite Hpre; [done|]. apply Hent. by eexists. }
  split; [done|]. split; [done|]. intros d Hin.
  destruct (Hd d Hin) as (ld & Hld & Hlt). exists ld. split; [|done].
  rewrite Hpre; [done|]. apply Hent. by eexists.
Qed.

(** What a call leaves when it is entered with the levels of all
    visited ids of rank up to [rank n] settled. *)
Definition levelled (n : jsstring) (st : state) (v : option num) (st' : state)
  : Prop :=
  visited st ⊆ visited st' /\ entered st' /\ preserves st st' /\
  (forall m, m ∈ visited st' -> m ∉ visited st -> finished (levels st') m) /\
  finished (levels st') n /\ v = read (levels st') n.

Lemma mapLevels_levelled fuel n :
  (forall d st, (remaining deps st < fuel)%nat -> is_Some (deps !! d) ->
     entered st ->
     (forall m, m ∈ visited st -> (rank m <= rank d)%nat -> finished (levels st) m) ->
     exists v st', calculateLevel fuel deps d st = Some (Control.Ok (v, st')) /\
                   levelled d st v st') ->
  forall dl st,
    (remaining deps st < fuel)%nat ->
    (forall d, d ∈ dl -> is_Some (deps !! d) /\ (rank d < rank n)%nat) ->
    n ∈ visited st -> entered st ->
    (forall m, m ∈ visited st -> (rank m < rank n)%nat -> finished (levels st) m) ->
    exists vs st',
      mapLevels (calculateLevel fuel deps) dl st = Some (Control.Ok (vs, st')) /\
      visited st ⊆ visited st' /\ entered st' /\ preserves st st' /\
      (forall m, m ∈ visited st' -> m ∉ visited st -> finished (levels st') m) /\
      Forall2 (fun d v => exists ld, v = Some (Int ld) /\
                                     read (levels st') d = Some (Int ld) /\ 0 <= ld)
              dl vs.
Proof.
  intros Hcall. induction dl as [|d dl IH]; intros st Hfuel Hdl Hn Hent Hfin.
  - exists [], st. simpl. split; [done|]. split; [done|]. split; [done|].
    split; [by intros m Hm|]. split; [by intros m Hm Hm'|constructor].
  - destruct (Hdl d) as [Hkey Hrank]; [apply list_elem_of_here|].
    destruct (Hcall d st Hfuel Hkey Hent) as (v & st1 & Hcalc & Hlev).
    { intros m Hm Hle. apply Hfin; [done|lia]. }
    destruct Hlev as (Hsub1 & Hent1 & Hpre1 & Hnew1 & Hd1 & ->).
    destruct (IH st1) as (vs & st2 & Hmap & Hsub2 & Hent2 & Hpre2 & Hnew2 & Hvals).
    { pose proof (remaining_mono deps st st1 Hsub1). lia. }
    { intros d' Hd'. apply Hdl. by apply list_elem_of_further. }
    { by apply Hsub1. }
    { done. }
    { intros m Hm Hlt. destruct (decide (m ∈ visited st)) as [Hin|Hni].
      - apply (finished_preserved st st1); [done..|]. by apply Hfin.
      - by apply Hnew1. }
    exists (read (levels st1) d :: vs), st2. simpl. rewrite Hcalc, Hmap.
    split; [done|]. split; [by etrans|]. split; [done|]. split.
    { intros m Hm. rewrite Hpre2 by (by apply Hsub1). by apply Hpre1. }
    split.
    { intros m Hm Hm'. destruct (decide (m ∈ visited st1)) as [Hin|Hni].
      - apply (finished_preserved st1 st2); [done..|]. by apply Hnew1.
      - by apply Hnew2. }
    constructor; [|done].
    destruct Hd1 as (set & lv & _ & Hlv & H0 & _). exists lv.
    split; [done|]. split; [|done]. rewrite Hpre2; [done|].
    apply Hent1. by eexists.
Qed.

Lemma calculateLevel_levelled fuel : forall n st,
  (remaining deps st < fuel)%nat -> is_Some (deps !! n) -> entered st ->
  (forall m, m ∈ visited st -> (rank m <= rank n)%nat -> finished (levels st) m) ->
  exists v st', calculateLevel fuel deps n st = Some (Control.Ok (v, st')) /\
                levelled n st v st'.
Proof.
  induction fuel as [|fuel IH]; intros n st Hfuel [set Hset] Hent Hfin; [lia|].
  simpl. case_bool_decide as Hv.
  { exists (read (levels st) n), st. split; [done|].
    split; [done|]. split; [done|]. split; [by intros m Hm|].
    split; [by intros m Hm Hm'|]. split; [by apply Hfin|done]. }
  rewrite Hset.
  assert (Hnone : read (levels st) n = None).
  { destruct (read (levels st) n) eqn:Hr; [|done]. exfalso. apply Hv, Hent. by eexists. }
  pose proof (remaining_visit deps n set st (levels st) Hset Hv) as Hlt.
  set (st1 := mkState ({[n]} ∪ visited st) (levels st)) in *.
  assert (Hin1 : n ∈ visited st1).
  { apply elem_of_union. left. by apply elem_of_singleton. }
  assert (Hsub1 : visited st ⊆ visited st1) by apply union_subseteq_r.
  assert (Hent1 : entered st1).
  { intros m Hm. apply elem_of_union. right. by apply Hent. }
  assert (Hvisit : forall st2 l M,
            visited st1 ⊆ visited st2 -> entered st2 -> preserves st1 st2 ->
            (forall m, m ∈ visited st2 -> m ∉ visited st1 ->
               finished (levels st2) m) ->
            l = assign n (Int M) (levels st2) -> 0 <= M ->
            (set = [] -> M = 0) ->
            (forall d, d ∈ set ->
               exists ld, read (levels st2) d = Some (Int ld) /\ 0 <= ld < M) ->
            levelled n st (read l n) (mkState (visited st2) l)).
  { intros st2 l M Hsub2 Hent2 Hpre2 Hnew2 -> HM Hnil Hdeps.
    assert (Hnone2 : read (levels st2) n = None).
    { by rewrite (Hpre2 n Hin1). }
    assert (Hfin_n : finished (assign n (Int M) (levels st2)) n).
    { exists set, M. split; [done|]. split; [by apply read_assign_same|].
      split; [done|]. split; [done|]. intros d Hd.
      destruct (Hdeps d Hd) as (ld & Hld & Hlt'). exists ld. split; [|done].
      rewrite read_assign_other; [done| |done]. intros ->.
      pose proof (deps_ranked n set n Hset Hd). lia. }
    split; [by etrans|]. split.
    { intros m Hm. simpl in *. destruct (decide (m = n)) as [->|Hne].
      - by apply Hsub2.
      - rewrite read_assign_other in Hm by done. by apply Hent2. }
    split.
    { intros m Hm. simpl. rewrite read_assign_other; [|by intros ->|done].
      by apply (Hpre2 m), Hsub1. }
    split; [|split; [done|done]].
    intros m Hm Hm'. simpl in *. destruct (decide (m = n)) as [->|Hne]; [done|].
    assert (finished (levels st2) m) as (set' & lv & Hs & Hlv & H0 & Hnil' & Hd').
    { apply Hnew2; [done|]. intros Hin. apply elem_of_union in Hin as [Hin|Hin]; [|done].
      by apply elem_of_singleton in Hin. }
    exists set', lv. split; [done|]. split.
    { rewrite read_assign_other; done. }
    split; [done|]. split; [done|]. intros d Hd.
    destruct (Hd' d Hd) as (ld & Hld & Hlt'). exists ld. split; [|done].
    rewrite read_assign_other; [done| |done]. intros ->. congruence. }
  destruct set as [|d set].
  { eexists _, _. split; [done|].
    apply (Hvisit st1 _ 0); try done.
    intros d Hd. by apply elem_of_nil in Hd. }
  destruct (mapLevels_levelled fuel n IH (d :: set) st1)
    as (vals & st2 & -> & Hsub2 & Hent2 & Hpre2 & Hnew2 & Hvals);
    [lia| |done|done| |].
  { intros d' Hd'. split; [by eapply deps_closed|by eapply deps_ranked]. }
  { intros m Hm Hr. simpl in *. apply elem_of_union in Hm as [Hm|Hm].
    - apply elem_of_singleton in Hm as ->. lia.
    - apply Hfin; [done|lia]. }
  destruct (math_max_ints vals) as (M & -> & HM0 & HM).
  { apply Forall_forall. intros v Hv'. apply list_elem_of_lookup in Hv' as [i Hi].
    destruct (Forall2_lookup_r _ _ _ _ _ Hvals Hi) as (d' & _ & ld & -> & _ & Hld).
    by exists ld. }
  { intros ->. by apply Forall2_nil_inv_r in Hvals. }
  eexists _, _. split; [done|]. simpl add.
  apply (Hvisit st2 _ (M + 1)); try done; [lia|].
  intros d' Hd'. apply list_elem_of_lookup in Hd' as [i Hi].
  destruct (Forall2_lookup_l _ _ _ _ _ Hvals Hi) as (v & Hv' & ld & -> & Hread & Hld).
  exists ld. split; [done|]. split; [done|].
  rewrite Forall_forall in HM. destruct (HM (Some (Int ld))) as (ld' & [= <-] & Hle).
  { by eapply list_elem_of_lookup_2. }
  lia.
Qed.

Lemma visitAll_levelled fuel nodes : forall st,
  (size (dom deps) < fuel)%nat ->
  (forall n, n ∈ nodes -> is_Some (deps !! FlowNode.id n)) ->
  entered st ->
  (forall m, m ∈ visited st -> finished (levels st) m) ->
  exists st',
    visitAll fuel deps nodes st = Some (Control.Ok (tt, st')) /\
    visited st ⊆ visited st' /\ entered st' /\
    (forall n, n ∈ nodes -> FlowNode.id n ∈ visited st') /\
    (forall m, m ∈ visited st' -> finished (levels st') m).
Proof.
  intros st Hfuel. revert st.
  induction nodes as [|n nodes IH]; intros st Hkeys Hent Hfin; simpl.
  - exists st. split; [done|]. split; [done|]. split; [done|]. split; [|done].
    intros n Hn. by apply elem_of_nil in Hn.
  - assert (Hstep : forall st1,
              visited st ⊆ visited st1 -> FlowNode.id n ∈ visited st1 ->
              entered st1 ->
              (forall m, m ∈ visited st1 -> finished (levels st1) m) ->
              exists st',
                visitAll fuel deps nodes st1 = Some (Control.Ok (tt, st')) /\
                visited st ⊆ visited st' /\ entered st' /\
                (forall n', n' ∈ n :: nodes -> FlowNode.id n' ∈ visited st') /\
                (forall m, m ∈ visited st' -> finished (levels st') m)).
    { intros st1 Hsub Hn1 Hent1 Hfin1.
      destruct (IH st1) as (st' & Hrun & Hsub' & Hent' & Hall & Hfin'); [|done..|].
      { intros n' Hn'. apply Hkeys. by apply list_elem_of_further. }
      exists st'. split; [done|]. split; [by etrans|]. split; [done|].
      split; [|done].
      intros n' Hn'. apply elem_of_cons in Hn' as [->|Hn']; [|by apply Hall].
      by apply Hsub'. }
    case_bool_decide as Hv; [by apply Hstep|].
    destruct (calculateLevel_levelled fuel (FlowNode.id n) st)
      as (v & st1 & -> & Hsub & Hent1 & Hpre & Hnew & Hn1 & _).
    { unfold remaining.
      assert (dom deps ∖ visited st ⊆ dom deps) as Hsub
        by apply subseteq_difference_l, reflexivity.
      apply subseteq_size in Hsub. lia. }
    { apply Hkeys, list_elem_of_here. }
    { done. }
    { intros m Hm _. by apply Hfin. }
    apply Hstep; [done| |done|].
    + apply Hent1. destruct Hn1 as (set & lv & _ & Hlv & _). by eexists.
    + intros m Hm. destruct (decide (m ∈ visited st)) as [Hin|Hni].
      * apply (finished_preserved st st1); [done..|]. by apply Hfin.
      * by apply Hnew.
Qed.

End Acyclic.

(** *** The positions *)

Lemma indexOf_elem m group : m ∈ group -> is_Some (indexOf m group).
Proof.
  induction group as [|k group IH]; intros Hm; [by apply elem_of_nil in Hm|].
  simpl. unfold streq. case_bool_decide as Hk; [by eexists|].
  apply elem_of_cons in Hm as [->|Hm]; [done|].
  destruct (IH Hm) as [i ->]. by eexists.
Qed.

Lemma positions_lookup nodes baseX divergencePoint l0 m lv : forall l,
  (forall e, e ∈ l -> e ∈ l0) ->
  read l m = Some lv ->
  exists p,
    (list_to_map (omap (positionOf nodes baseX divergencePoint l0) l)
       : gmap jsstring position) !! m = Some p /\
    y p = mul lv 100.
Proof.
  induction l as [|e l IH]; intros Hsub Hread; [done|].
  assert (is_Some (indexOf e.1 (levelGroup l0 e.2))) as [i Hi].
  { apply indexOf_elem. unfold levelGroup. apply list_elem_of_fmap. exists e.
    split; [done|]. apply list_elem_of_filter. split; [done|].
    apply Hsub, list_elem_of_here. }
  rewrite BasicFacts.omap_cons. unfold positionOf at 1. rewrite Hi.
  cbn [list_to_map foldr]. unfold read in Hread. simpl in Hread.
  unfold streq in Hread. case_bool_decide as Hm.
  - injection Hread as <-. rewrite <- Hm, lookup_insert_eq. by eexists.
  - rewrite lookup_insert_ne by done. apply IH; [|done].
    intros e' He'. by apply Hsub, list_elem_of_further.
Qed.

(** The dependency sets of a flowchart whose edges end in nodes. *)
Lemma dependencies_of_edges nodes edges deps :
  addDependencies (initDependencies nodes) edges = Control.Ok deps ->
  (forall k, is_Some (deps !! k) <-> k ∈ node_ids nodes) /\
  (forall k set d, deps !! k = Some set ->
     d ∈ set <->
     exists e, e ∈ edges /\ FlowEdge.target e = k /\ FlowEdge.source e = d).
Proof.
  intros Hdeps.
  pose proof (addDependencies_spec edges (initDependencies nodes)) as Hspec.
  rewrite Hdeps in Hspec. destruct Hspec as (_ & Hkeys & Hsets). split.
  - intros k. rewrite Hkeys, initDependencies_lookup. by case_decide; split.
  - intros k set d Hk. rewrite (Hsets k set d Hk). split; [|by right].
    intros [(s & Hs & Hd)|He]; [|done].
    rewrite initDependencies_lookup in Hs. case_decide; [|done].
    injection Hs as <-. by apply elem_of_nil in Hd.
Qed.

(** X19. For a flowchart whose node ids are ordinary keys (no name of a
    member of Object.prototype, no string of digits), whose edges join
    its nodes and that has no cycle (the edges increase some rank of the
    ids), the layout places every node at a height of 100 times a level
    that is not negative, places the nodes without incoming edge at
    height 0, and places the target of every edge at least 100 below its
    source. *)
Theorem layout_layers (nodes : list FlowNode.t) (edges : list FlowEdge.t)
    (baseX : Z) (divergencePoint : option jsstring) (rank : jsstring -> nat) :
  ordinaryKeys nodes edges ->
  Forall (fun e => FlowEdge.source e ∈ node_ids nodes /\
                   FlowEdge.target e ∈ node_ids nodes /\
                   (rank (FlowEdge.source e) < rank (FlowEdge.target e))%nat)
         edges ->
  exists layout,
    calculateFlowchartLayout nodes edges baseX divergencePoint
      = Some (Control.Ok layout) /\
    (forall n, n ∈ nodes ->
       exists p lv,
         positions layout !! FlowNode.id n = Some p /\
         y p = Int (lv * 100) /\ 0 <= lv /\
         ((forall e, e ∈ edges -> FlowEdge.target e <> FlowNode.id n) -> lv = 0)) /\
    (forall e, e ∈ edges ->
       exists ps pt ls lt,
         positions layout !! FlowEdge.source e = Some ps /\
         positions layout !! FlowEdge.target e = Some pt /\
         y ps = Int (ls * 100) /\ y pt = Int (lt * 100) /\ 0 <= ls < lt).
Proof.
  intros _ Hedges. rewrite Forall_forall in Hedges. unfold calculateFlowchartLayout.
  pose proof (addDependencies_spec edges (initDependencies nodes)) as Hspec.
  destruct (addDependencies (initDependencies nodes) edges) as [deps|] eqn:Hdeps.
  2: { exfalso. apply Exists_exists in Hspec as (e & He & Hnone).
       destruct (Hedges e He) as (_ & Ht & _).
       rewrite initDependencies_lookup, decide_True in Hnone; done. }
  clear Hspec. destruct (dependencies_of_edges nodes edges deps Hdeps) as [Hkeys Hsets].
  assert (Hclosed : closed deps).
  { intros k set d Hk Hd. apply (Hsets k set d Hk) in Hd as (e & He & _ & <-).
    apply Hkeys. by destruct (Hedges e He). }
  assert (Hranked : forall k set d, deps !! k = Some set -> d ∈ set ->
            (rank d < rank k)%nat).
  { intros k set d Hk Hd. apply (Hsets k set d Hk) in Hd as (e & He & <- & <-).
    by destruct (Hedges e He) as (_ & _ & Hr). }
  destruct (visitAll_levelled deps rank Hclosed Hranked (S (size (dom deps))) nodes
              (mkState ∅ []))
    as (st & -> & _ & Hent & Hall & Hfin); [lia| | |by intros m Hm|].
  { intros n Hn. apply Hkeys, list_elem_of_fmap. by exists n. }
  { by intros m [? [=]]. }
  eexists. split; [done|]. cbn [positions].
  assert (Hpos : forall k, k ∈ node_ids nodes ->
            exists set lv p,
              deps !! k = Some set /\ read (levels st) k = Some (Int lv) /\
              0 <= lv /\ (set = [] -> lv = 0) /\
              (forall d, d ∈ set ->
                 exists ld, read (levels st) d = Some (Int ld) /\ 0 <= ld < lv) /\
              (list_to_map (omap (positionOf nodes baseX divergencePoint (levels st))
                                 (levels st)) : gmap jsstring position) !! k = Some p /\
              y p = Int (lv * 100)).
  { intros k Hk. apply list_elem_of_fmap in Hk as (n & -> & Hn).
    destruct (Hfin _ (Hall n Hn)) as (set & lv & Hset & Hlv & H0 & Hnil & Hd).
    destruct (positions_lookup nodes baseX divergencePoint (levels st)
                (FlowNode.id n) (Int lv) (levels st)) as (p & Hp & Hy); [done..|].
    by exists set, lv, p. }
  split.
  - intros n Hn.
    destruct (Hpos (FlowNode.id n)) as (set & lv & p & Hset & _ & H0 & Hnil & _ & Hp & Hy).
    { apply list_elem_of_fmap. by exists n. }
    exists p, lv. split; [done|]. split; [done|]. split; [done|].
    intros Hroot. apply Hnil. destruct set as [|d set]; [done|]. exfalso.
    assert (d ∈ d :: set) as Hd by apply list_elem_of_here.
    apply (Hsets _ _ d Hset) in Hd as (e & He & Ht & _). by apply (Hroot e He).
  - intros e He. destruct (Hedges e He) as (Hs & Ht & _).
    destruct (Hpos _ Ht) as (set & lt & pt & Hset & _ & _ & _ & Hd & Hpt & Hyt).
    destruct (Hpos _ Hs) as (_ & ls & ps & _ & Hls & _ & _ & _ & Hps & Hys).
    exists ps, pt, ls, lt. do 4 (split; [done|]).
    destruct (Hd (FlowEdge.source e)) as (ls' & Hls' & Hlt).
    { apply (Hsets _ _ _ Hset). by exists e. }
    rewrite Hls in Hls'. injection Hls' as <-. done.
Qed.

Definition diamond_nodes : list FlowNode.t :=
  [ FlowNode.mk (utf16 "A") (utf16 "start") 100 100;
    FlowNode.mk (utf16 "B") (utf16 "left") 100 200;
    FlowNode.mk (utf16 "C") (utf16 "right") 100 300;
    FlowNode.mk (utf16 "D") (utf16 "end") 100 400 ].

Definition diamond_edges : list FlowEdge.t :=
  [ FlowEdge.mk (utf16 "e0") (utf16 "A") (utf16 "B") (utf16 "smoothstep") false;
    FlowEdge.mk (utf16 "e1") (utf16 "A") (utf16 "C") (utf16 "smoothstep") false;
    FlowEdge.mk (utf16 "e2") (utf16 "B") (utf16 "D") (utf16 "smoothstep") false;
    FlowEdge.mk (utf16 "e3") (utf16 "C") (utf16 "D") (utf16 "smoothstep") false;
    FlowEdge.mk (utf16 "e4") (utf16 "A") (utf16 "D") (utf16 "smoothstep") false ].

Definition letter_rank (nodeId : jsstring) : nat :=
  match nodeId with
  | c :: _ => N.to_nat c
  | [] => 0%nat
  end.

Lemma layout_layers_witness :
  exists layout,
    calculateFlowchartLayout diamond_nodes diamond_edges 200 None
      = Some (Control.Ok layout) /\
    y <$> positions layout !! utf16 "D" = Some (Int 200).
Proof.
  destruct (layout_layers diamond_nodes diamond_edges 200 None letter_rank)
    as (layout & Hlayout & _ & _).
  { apply (bool_decide_unpack _). by vm_compute. }
  { apply (bool_decide_unpack _). by vm_compute. }
  exists layout. split; [done|].
  vm_compute in Hlayout. injection Hlayout as <-. by vm_compute.
Defined.

(** A cycle is laid out, and an edge from a missing node throws. *)
Definition cycle_nodes : list FlowNode.t :=
  [ FlowNode.mk (utf16 "A") (utf16 "start") 100 100;
    FlowNode.mk (utf16 "B") (utf16 "again") 100 200 ].

Definition cycle_edges : list FlowEdge.t :=
  [ FlowEdge.mk (utf16 "e0") (utf16 "A") (utf16 "B") (utf16 "smoothstep") false;
    FlowEdge.mk (utf16 "e1") (utf16 "B") (utf16 "A") (utf16 "smoothstep") false ].

Definition dangling_edges : list FlowEdge.t :=
  [ FlowEdge.mk (utf16 "e0") (utf16 "Z") (utf16 "A") (utf16 "smoothstep") false ].

Lemma layout_returns_iff_witness :
  (exists layout,
     calculateFlowchartLayout cycle_nodes cycle_edges 200 None
       = Some (Control.Ok layout)) /\
  calculateFlowchartLayout cycle_nodes dangling_edges 200 None
    = Some Control.Throw.
Proof.
  split.
  - destruct (layout_returns_iff cycle_nodes cycle_edges 200 None)
      as (r & Hr & Hthrows).
    { apply (bool_decide_unpack _). by vm_compute. }
    destruct r as [layout|]; [by exists layout|].
    exfalso. destruct Hthrows as [Hthrows _]. specialize (Hthrows eq_refl).
    revert Hthrows. apply (bool_decide_unpack _). by vm_compute.
  - destruct (layout_returns_iff cycle_nodes dangling_edges 200 None)
      as (r & Hr & Hthrows).
    { apply (bool_decide_unpack _). by vm_compute. }
    rewrite Hr. f_equal. apply Hthrows.
    apply (bool_decide_unpack _). by vm_compute.
Defined.

Lemma indexOf_lookup m group : forall i,
  indexOf m group = Some i -> 0 <= i /\ group !! Z.to_nat i = Some m.
Proof.
  induction group as [|k group IH]; intros i; simpl; [done|].
  unfold streq. case_bool_decide as Hk.
  - intros [= <-]. by subst k.
  - destruct (indexOf m group) as [j|]; [|done]. intros [= <-].
    destruct (IH j eq_refl) as [Hj Hlookup]. split; [lia|].
    replace (Z.to_nat (j + 1)) with (S (Z.to_nat j)) by lia. done.
Qed.

Lemma positions_lookup_entry nodes baseX divergencePoint l0 m : forall l,
  (forall e, e ∈ l -> e ∈ l0) ->
  (list_to_map (omap (positionOf nodes baseX divergencePoint l0) l)
     : gmap jsstring position) !! m =
  match read l m with
  | Some lv => snd <$> positionOf nodes baseX divergencePoint l0 (m, lv)
  | None => None
  end.
Proof.
  induction l as [|[k v] l IH]; intros Hsub; [done|].
  assert (is_Some (indexOf k (levelGroup l0 v))) as [i Hi].
  { apply indexOf_elem. unfold levelGroup. apply list_elem_of_fmap. exists (k, v).
    split; [done|]. apply list_elem_of_filter. split; [done|].
    apply Hsub, list_elem_of_here. }
  rewrite BasicFacts.omap_cons. unfold positionOf at 1. cbn [fst snd]. rewrite Hi.
  cbn [list_to_map foldr]. unfold read. cbn [JS.find fst]. unfold streq.
  case_bool_decide as Hm.
  - subst k. rewrite lookup_insert_eq. cbn [fmap option_fmap option_map snd].
    unfold positionOf. cbn [fst snd]. by rewrite Hi.
  - rewrite lookup_insert_ne by done. rewrite IH; [done|].
    intros e' He'. by apply Hsub, list_elem_of_further.
Qed.

Lemma mul_100_inj a b : mul a 100 = mul b 100 -> a = b.
Proof. destruct a, b; simpl; try done. intros [= H]. f_equal. lia. Qed.

(** X20. No two nodes of a flowchart are laid out at the same place:
    in a layout that the function returns, two different ids never have
    the same x and the same y. *)
Theorem layout_no_overlap (nodes : list FlowNode.t) (edges : list FlowEdge.t)
    (baseX : Z) (divergencePoint : option jsstring) (layout : Layout.t)
    (m1 m2 : jsstring) (p1 p2 : position) :
  calculateFlowchartLayout nodes edges baseX divergencePoint
    = Some (Control.Ok layout) ->
  positions layout !! m1 = Some p1 ->
  positions layout !! m2 = Some p2 ->
  m1 <> m2 ->
  (x p1, y p1) <> (x p2, y p2).
Proof.
  unfold calculateFlowchartLayout.
  destruct (addDependencies _ edges) as [deps|]; [|done].
  destruct (visitAll _ deps nodes _) as [[[u st]|]|]; [|done..].
  intros [= <-]. cbn [positions]. rewrite !positions_lookup_entry by done.
  assert (Hentry : forall m p,
            match read (levels st) m with
            | Some lv =>
                snd <$> positionOf nodes baseX divergencePoint (levels st) (m, lv)
            | None => None
            end = Some p ->
            exists lv i,
              indexOf m (levelGroup (levels st) lv) = Some i /\
              x p = baseX + (2 * i - (len (levelGroup (levels st) lv) - 1)) * 95 /\
              y p = mul lv 100).
  { intros m p Hp. destruct (read (levels st) m) as [lv|]; [|done].
    unfold positionOf in Hp. cbn [fst snd] in Hp.
    destruct (indexOf m (levelGroup (levels st) lv)) as [i|] eqn:Hi; [|done].
    injection Hp as <-. by exists lv, i. }
  intros Hp1 Hp2 Hne [= Hx Hy].
  destruct (Hentry _ _ Hp1) as (lv1 & i1 & Hi1 & Hx1 & Hy1).
  destruct (Hentry _ _ Hp2) as (lv2 & i2 & Hi2 & Hx2 & Hy2).
  rewrite Hy1, Hy2 in Hy. apply mul_100_inj in Hy. subst lv2.
  assert (i1 = i2) as -> by lia.
  apply indexOf_lookup in Hi1 as [_ Hl1]. apply indexOf_lookup in Hi2 as [_ Hl2].
  congruence.
Qed.

Lemma layout_no_overlap_witness :
  exists layout pb pc,
    calculateFlowchartLayout diamond_nodes diamond_edges 200 None
      = Some (Control.Ok layout) /\
    positions layout !! utf16 "B" = Some pb /\
    positions layout !! utf16 "C" = Some pc /\
    y pb = y pc /\ (x pb, y pb) <> (x pc, y pc).
Proof.
  destruct (calculateFlowchartLayout diamond_nodes diamond_edges 200 None)
    as [[layout|]|] eqn:Hlayout; [|by vm_compute in Hlayout..].
  destruct (positions layout !! utf16 "B") as [pb|] eqn:Hb.
  2: { vm_compute in Hlayout. injection Hlayout as <-. by vm_compute in Hb. }
  destruct (positions layout !! utf16 "C") as [pc|] eqn:Hc.
  2: { vm_compute in Hlayout. injection Hlayout as <-. by vm_compute in Hc. }
  exists layout, pb, pc. do 3 (split; [done|]). split.
  - vm_compute in Hlayout. injection Hlayout as <-.
    vm_compute in Hb, Hc. by injection Hb as <-; injection Hc as <-.
  - by apply (layout_no_overlap diamond_nodes diamond_edges 200 None layout
                (utf16 "B") (utf16 "C")).
Defined.

(** An arrow to a letter that is never given a label yields an edge
    without a node, and the layout of the extracted flowchart throws. *)
Definition unlabelled_reply : jsstring :=
  utf16 "[FLOWCHART]" ++ [10%N] ++ utf16 "```mermaid" ++ [10%N] ++
  utf16 "graph TD" ++ [10%N] ++ utf16 "  A[Start] --> B" ++ [10%N] ++
  utf16 "```".

Example unlabelled_endpoint_throws :
  (fun fc => calculateFlowchartLayout (Flowchart.nodes fc) (Flowchart.edges fc)
               200 None)
    <$> GeminiService.extractFlowchart unlabelled_reply
  = Some (Some Control.Throw).
Proof. by vm_compute. Qed.

End LayoutExtras.
